(** * Fly-Pie: the angle solver, the show request and the selection chain
      of [daemon/Menu.js]

    A shallow embedding of the [Menu] class.  JavaScript numbers are modelled
    as exact rationals ([Q]); list indices and item counts as [Z]; objects of
    the show request as the record [Item]; the actor tree built from it as
    [MenuItem]; references into that tree as paths from its root. *)

From Stdlib Require Import ZArith QArith Qround Qabs Qminmax Lqa Lia Sorted.
From stdpp Require Import base option list strings pretty.
From Stdlib Require Import Ascii.

Set Warnings "-register-all".
Local Open Scope Z_scope.

(** ** JavaScript numbers *)

Module JS.

(** [x < y] and [x <= y] on numbers, as booleans. *)
Definition ltb (x y : Q) : bool := negb (Qle_bool y x).
Definition leb (x y : Q) : bool := Qle_bool x y.

(** The integer part of a number, rounded towards zero. *)
Definition trunc (x : Q) : Z := Z.quot (Qnum x) (Zpos (Qden x)).

(** [x % m]: the remainder has the sign of the dividend. *)
Definition rem (x m : Q) : Q := (x - m * inject_Z (trunc (x / m)))%Q.

(** [Math.abs], [Math.max], [Math.min] and [Math.floor]. *)
Definition abs (x : Q) : Q := Qabs x.
Definition max (x y : Q) : Q := Qmax x y.
Definition min (x y : Q) : Q := Qmin x y.
Definition floor (x : Q) : Z := Qfloor x.

(** Truthiness of an optional string: [undefined] and [''] are falsy. *)
Definition truthy (s : option string) : bool :=
  match s with
  | Some s => negb (String.eqb s "")
  | None => false
  end.

End JS.

(** ** The show request: a tree of items

    [{name?, icon?, angle?, id?, children?: [...]}].  A missing property is
    [None].  A missing [children] property is the empty list: every use of it
    in [Menu.js] is guarded by [if (item.children)] or by a length test and
    does nothing on an empty array. *)

Inductive Item : Type := mkItem {
  item_name : option string;
  item_icon : option string;
  item_angle : option Q;
  item_id : option string;
  item_children : list Item
}.

Definition set_name (v : option string) (it : Item) : Item :=
  mkItem v (item_icon it) (item_angle it) (item_id it) (item_children it).
Definition set_icon (v : option string) (it : Item) : Item :=
  mkItem (item_name it) v (item_angle it) (item_id it) (item_children it).
Definition set_angle (v : option Q) (it : Item) : Item :=
  mkItem (item_name it) (item_icon it) v (item_id it) (item_children it).
Definition set_id (v : option string) (it : Item) : Item :=
  mkItem (item_name it) (item_icon it) (item_angle it) v (item_children it).
Definition set_children (v : list Item) (it : Item) : Item :=
  mkItem (item_name it) (item_icon it) (item_angle it) (item_id it) v.

(** ** [_updateItemIDs] (Menu.js, lines 496-512)

    The function works on a list of items and calls itself on the children of
    each of them.  [updateItemID] is the body of its loop for one item at
    index [i]; the loop over the children is the local [loop], which
    [updateItemID_unfold] shows to be [updateItemIDs] again. *)

Definition assignedID (item : Item) (i : nat) (parentID : option string)
    : option string :=
  if JS.truthy (item_id item) then item_id item
  else match parentID with
       | Some p => if JS.truthy parentID
                   then Some (p +:+ "/" +:+ pretty i)
                   else Some ("/" +:+ pretty i)
       | None => Some ("/" +:+ pretty i)
       end.

Fixpoint updateItemID (item : Item) (i : nat) (parentID : option string)
    {struct item} : Item :=
  let id' := assignedID item i parentID in
  set_children
    ((fix loop (items : list Item) (i : nat) {struct items} : list Item :=
        match items with
        | [] => []
        | child :: rest => updateItemID child i id' :: loop rest (S i)
        end) (item_children item) 0%nat)
    (set_id id' item).

(** The loop of lines 497-511 from index [i] on. *)
Fixpoint updateItemIDsFrom (i : nat) (items : list Item)
    (parentID : option string) {struct items} : list Item :=
  match items with
  | [] => []
  | item :: rest =>
      updateItemID item i parentID :: updateItemIDsFrom (S i) rest parentID
  end.

Definition updateItemIDs (items : list Item) (parentID : option string)
    : list Item :=
  updateItemIDsFrom 0 items parentID.

(** ** [_updateItemAngles] (Menu.js, lines 520-637)

    The part of the function that works on one level (lines 523-625) reads and
    writes nothing but the [angle] property of [items[i]]; it is modelled on
    the list of these properties, the slots of the level. *)

Abbreviation Slots := (list (option Q)).

Record FixedAngle := mkFixed { fangle : Q; findex : Z }.

(** Lines 529-534: the fixed angles of a level with their indices.  A slot
    counts as fixed when it holds an angle that is not negative. *)
Fixpoint fixedAnglesFrom (index : Z) (slots : Slots) : list FixedAngle :=
  match slots with
  | [] => []
  | Some a :: rest =>
      if JS.leb 0 a then mkFixed a index :: fixedAnglesFrom (index + 1) rest
      else fixedAnglesFrom (index + 1) rest
  | None :: rest => fixedAnglesFrom (index + 1) rest
  end.

Definition fixedAnglesOf (slots : Slots) : list FixedAngle :=
  fixedAnglesFrom 0 slots.

(** Lines 537-545: the fixed angles increase and lie between 0 and 360.
    [prev] is the angle at [i - 1], absent for [i = 0]. *)
Fixpoint anglesIncrease (prev : option Q) (fixedAngles : list FixedAngle)
    : bool :=
  match fixedAngles with
  | [] => true
  | f :: rest =>
      if match prev with
         | Some p => JS.leb (fangle f) p
         | None => false
         end then false
      else if JS.ltb (fangle f) 0 || JS.leb 360 (fangle f) then false
      else anglesIncrease (Some (fangle f)) rest
  end.

(** Lines 549-555: no fixed angle collides with the parent link. *)
Fixpoint noParentCollision (parentAngle : Q) (fixedAngles : list FixedAngle)
    : bool :=
  match fixedAngles with
  | [] => true
  | f :: rest =>
      if JS.ltb (JS.abs (fangle f - parentAngle)) 1 then false
      else noParentCollision parentAngle rest
  end.

(** The two checks together: [false] is the [return false] of the level. *)
Definition levelValid (slots : Slots) (parentAngle : option Q) : bool :=
  let fixedAngles := fixedAnglesOf slots in
  anglesIncrease None fixedAngles &&
  match parentAngle with
  | Some p => noParentCollision p fixedAngles
  | None => true
  end.

(** Lines 610-624: the [while] loop of one wedge.  It ends when [index]
    reaches [wedgeEndIndex]; [None] stands for a loop that has not ended
    after [fuel] rounds or that writes to an item that does not exist. *)
Fixpoint assignWedge (fuel : nat) (n : Z) (wedgeBeginAngle wedgeItemGap : Q)
    (wedgeEndIndex : Z) (parentAngle : option Q)
    (index count : Z) (parentGapRequired : bool) (slots : Slots)
    : option Slots :=
  if index =? wedgeEndIndex then Some slots
  else
    match fuel with
    | O => None
    | S fuel' =>
        let itemAngle := (wedgeBeginAngle + wedgeItemGap * inject_Z count)%Q in
        let insertGap :=
          parentGapRequired &&
          match parentAngle with
          | Some p => JS.ltb 0 (itemAngle + wedgeItemGap / 2 - p)%Q
          | None => false
          end in
        let count' := if insertGap then count + 1 else count in
        let itemAngle' :=
          if insertGap
          then (wedgeBeginAngle + wedgeItemGap * inject_Z count')%Q
          else itemAngle in
        let parentGapRequired' :=
          if insertGap then false else parentGapRequired in
        match slots !! Z.to_nat index with
        | None => None
        | Some _ =>
            assignWedge fuel' n wedgeBeginAngle wedgeItemGap wedgeEndIndex
              parentAngle (Z.rem (index + 1) n) (count' + 1)
              parentGapRequired'
              (<[Z.to_nat index := Some (JS.rem itemAngle' 360)]> slots)
        end
    end.

(** Lines 572-624: the body of the [for] loop over the fixed angles, for the
    wedge that begins at the [i]-th fixed angle.  The state of the loop is the
    slots and [parentAngle], which the body may shift by a full turn. *)
Definition wedgeStep (n : Z) (fixedAngles : list FixedAngle) (i : nat)
    (st : Slots * option Q) : option (Slots * option Q) :=
  let '(slots, parentAngle) := st in
  b ← fixedAngles !! i;
  e ← fixedAngles !! ((i + 1) mod length fixedAngles)%nat;
  let wedgeBeginIndex := findex b in
  let wedgeBeginAngle := fangle b in
  let wedgeEndIndex := findex e in
  let wedgeEndAngle :=
    if JS.leb (fangle e) wedgeBeginAngle then (fangle e + 360)%Q
    else fangle e in
  let wedgeItemCount := Z.rem (wedgeEndIndex - wedgeBeginIndex - 1 + n) n in
  let parentAngle' :=
    match parentAngle with
    | Some p => if JS.ltb p wedgeBeginAngle then Some (p + 360)%Q else Some p
    | None => None
    end in
  let parentInWedge :=
    match parentAngle' with
    | Some p => JS.ltb wedgeBeginAngle p && JS.ltb p wedgeEndAngle
    | None => false
    end in
  let wedgeItemCount' :=
    if parentInWedge then wedgeItemCount + 1 else wedgeItemCount in
  let wedgeItemGap :=
    ((wedgeEndAngle - wedgeBeginAngle) / inject_Z (wedgeItemCount' + 1))%Q in
  slots' ← assignWedge (Z.to_nat n) n wedgeBeginAngle wedgeItemGap
             wedgeEndIndex parentAngle' (Z.rem (wedgeBeginIndex + 1) n) 1
             parentInWedge slots;
  Some (slots', parentAngle').

(** The [for] loop of lines 571-625, from round [i] for [k] rounds. *)
Fixpoint wedgeLoop (n : Z) (fixedAngles : list FixedAngle) (i k : nat)
    (st : Slots * option Q) : option (Slots * option Q) :=
  match k with
  | O => Some st
  | S k' =>
      st' ← wedgeStep n fixedAngles i st;
      wedgeLoop n fixedAngles (S i) k' st'
  end.

(** Lines 559-625: the angles of a level whose fixed angles are valid. *)
Definition assignLevel (slots : Slots) (parentAngle : option Q)
    : option Slots :=
  let n := Z.of_nat (length slots) in
  let fixedAngles := fixedAnglesOf slots in
  let '(fixedAngles', slots') :=
    if (length fixedAngles =? 0)%nat then
      let firstAngle : Q :=
        match parentAngle with
        | Some p => if JS.ltb p 180 then 270%Q else 90%Q
        | None => 90%Q
        end in
      ([mkFixed firstAngle 0], <[0%nat := Some firstAngle]> slots)
    else (fixedAngles, slots) in
  st ← wedgeLoop n fixedAngles' 0 (length fixedAngles') (slots', parentAngle);
  Some (fst st).

(** The parent link of the children of an item: [(item.angle + 180) % 360].
    For an item without an angle the sum is NaN, which every comparison of
    the level treats like a missing parent link. *)
Definition childParentAngle (a : option Q) : option Q :=
  match a with
  | Some a => Some (JS.rem (a + 180) 360)
  | None => None
  end.

(** Lines 628-634, the [forEach] over the items of the level: [callback]
    is run on every item together with the angle the level gave it. *)
Section ForEach.
Variable callback : Item -> option Q -> option Item.

Fixpoint forEachItem (items : list Item) (slots : Slots) {struct items}
    : option (list Item) :=
  match items, slots with
  | [], _ => Some []
  | item :: items', a :: slots' =>
      item' ← callback item a;
      rest ← forEachItem items' slots';
      Some (item' :: rest)
  | _ :: _, [] => None
  end.

(** The body of [_updateItemAngles].  The result is the returned boolean
    and the items as the call leaves them; [None] is a call that does not
    return. *)
Definition updateItemAnglesWith (items : list Item)
    (parentAngle : option Q) : option (bool * list Item) :=
  if (length items =? 0)%nat then Some (true, items)
  else
    let slots := map item_angle items in
    if negb (levelValid slots parentAngle) then Some (false, items)
    else
      slots' ← assignLevel slots parentAngle;
      items' ← forEachItem items slots';
      Some (true, items').
End ForEach.

(** The callback of the [forEach]: the item gets its angle [a] and the
    function is called on its children.  The [return false] of the callback
    ends the callback only, so the boolean of the inner call is dropped. *)
Fixpoint updateChildAngles (item : Item) (a : option Q) {struct item}
    : option Item :=
  r ← updateItemAnglesWith updateChildAngles (item_children item)
        (childParentAngle a);
  Some (set_children (snd r) (set_angle a item)).

Definition updateItemAngles (items : list Item) (parentAngle : option Q)
    : option (bool * list Item) :=
  updateItemAnglesWith updateChildAngles items parentAngle.

(** ** The actor tree: [MenuItem] *)

(** Modelled from the spec: the states of a [MenuItem] (daemon/MenuItem.js is
    not among the sources), as section 3 of the spec lists them. *)
Inductive MenuItemState : Type :=
| INVISIBLE
| CENTER
| CENTER_HOVERED
| CHILD
| CHILD_HOVERED
| CHILD_DRAGGED
| GRANDCHILD
| PARENT
| PARENT_HOVERED.

Global Instance MenuItemState_eq_dec : EqDecision MenuItemState.
Proof. solve_decision. Defined.

(** Modelled from the spec: the [MenuItem] object (daemon/MenuItem.js is not
    among the sources).  It carries what [new MenuItem({id, caption, icon,
    angle})] is given, the state and active child index that [setState]
    receives, and the children added with [addMenuItem]. *)
Inductive MenuItem : Type := mkMenuItem {
  mi_id : option string;
  mi_caption : option string;
  mi_icon : option string;
  mi_angle : option Q;
  mi_state : MenuItemState;
  mi_activeChildIndex : option Z;
  mi_children : list MenuItem
}.

(** Modelled from the spec: [MenuItem.setState(state, activeChildIndex)]
    (daemon/MenuItem.js is not among the sources) sets the item to the state
    and, when an index is passed, stores it as the index of the active
    child. *)
Definition setState (state : MenuItemState) (activeChildIndex : option Z)
    (item : MenuItem) : MenuItem :=
  mkMenuItem (mi_id item) (mi_caption item) (mi_icon item) (mi_angle item)
    state
    (match activeChildIndex with
     | Some i => Some i
     | None => mi_activeChildIndex item
     end)
    (mi_children item).

(** [createMenuItem] of [show] (lines 422-432).  Modelled from the spec: a
    new [MenuItem] is [INVISIBLE] and has no active child. *)
Fixpoint createMenuItem (item : Item) : MenuItem :=
  mkMenuItem (item_id item) (item_name item) (item_icon item)
    (item_angle item) INVISIBLE None
    (map createMenuItem (item_children item)).

(** A reference to a [MenuItem] of the tree under [this._root]: the indices
    of the children to follow from the root.  The selection chain and the
    dragged child hold such references; [_hide] drops them all before [show]
    can build another tree. *)
Abbreviation Ref := (list nat).

Fixpoint getItem (t : MenuItem) (p : Ref) : option MenuItem :=
  match p with
  | [] => Some t
  | i :: p' => c ← mi_children t !! i; getItem c p'
  end.

Definition set_mi_children (cs : list MenuItem) (item : MenuItem)
    : MenuItem :=
  mkMenuItem (mi_id item) (mi_caption item) (mi_icon item) (mi_angle item)
    (mi_state item) (mi_activeChildIndex item) cs.

(** A method call on the item that [p] refers to. *)
Fixpoint alterItem (f : MenuItem -> MenuItem) (p : Ref) (t : MenuItem)
    : MenuItem :=
  match p with
  | [] => f t
  | i :: p' => set_mi_children (alter (alterItem f p') i (mi_children t)) t
  end.

(** [array[index]] for an integer index. *)
Definition nthZ {A} (l : list A) (index : Z) : option A :=
  if index <? 0 then None else l !! Z.to_nat index.

(** ** The menu *)

(** Modelled from the spec: the error codes of [DBusInterface.errorCodes]
    (common/DBusInterface.js is not among the sources), section 7. *)
Inductive ErrorCode : Type :=
| eUnknownError
| ePropertyMissing
| eInvalidAngles
| eAlreadyActive.

(** What [show] returns: an error code or the ID of the menu. *)
Inductive ShowResult : Type :=
| Failed (e : ErrorCode)
| Shown (menuID : string).

(** Calls that leave the [Menu]: the two callbacks, the pointer warp, the
    configuration of the selection wedges and the fade-out of the
    background. *)
Inductive Effect : Type :=
| OnSelect (menuID : option string) (itemID : option string)
| OnCancel (menuID : option string)
| WarpPointer (x y : Z)
| SetItemAngles (itemAngles : list (option Q)) (parentAngle : option Q)
| BackgroundHide.

(** The root actor: [destroy()] leaves the reference in place. *)
Record RootActor : Type := mkRoot {
  root_item : MenuItem;
  root_destroyed : bool
}.

(** The members of [Menu] (constructor, lines 37-60).  Translations of
    actors and easing parameters are not part of the model. *)
Record Menu : Type := mkMenu {
  menuID : option string;
  previewMode : bool;
  draggedChild : option Ref;
  menuSelectionChain : list Ref;
  root : option RootActor;
  effects : list Effect
}.

(** The menu after [new Menu(onSelect, onCancel)]. *)
Definition newMenu : Menu := mkMenu None false None [] None [].

Definition set_menuID v m :=
  mkMenu v (previewMode m) (draggedChild m) (menuSelectionChain m) (root m)
    (effects m).
Definition set_previewMode v m :=
  mkMenu (menuID m) v (draggedChild m) (menuSelectionChain m) (root m)
    (effects m).
Definition set_draggedChild v m :=
  mkMenu (menuID m) (previewMode m) v (menuSelectionChain m) (root m)
    (effects m).
Definition set_chain v m :=
  mkMenu (menuID m) (previewMode m) (draggedChild m) v (root m) (effects m).
Definition set_root v m :=
  mkMenu (menuID m) (previewMode m) (draggedChild m) (menuSelectionChain m) v
    (effects m).
Definition emit (e : Effect) m :=
  mkMenu (menuID m) (previewMode m) (draggedChild m) (menuSelectionChain m)
    (root m) (effects m ++ [e]).

(** What [global.get_pointer()] returns: the position and whether the
    primary button is down ([mods & BUTTON1_MASK]). *)
Record Pointer : Type := mkPointer {
  pointerX : Q;
  pointerY : Q;
  button1 : bool
}.

(** [Main.layoutManager.currentMonitor]. *)
Record Monitor : Type := mkMonitor {
  monitor_width : Q;
  monitor_height : Q
}.

(** [if (this._root) this._root.destroy()]: the actors of the tree are
    destroyed, the member keeps its reference. *)
Definition destroyRoot (m : Menu) : Menu :=
  match root m with
  | Some r => set_root (Some (mkRoot (root_item r) true)) m
  | None => m
  end.

(** [_hide] (lines 474-491). *)
Definition hide (m : Menu) : Menu :=
  match menuID m with
  | None => m
  | Some _ =>
      set_chain []
        (set_draggedChild None (set_menuID None (emit BackgroundHide m)))
  end.

(** The handler of the background's [transitions-completed] signal (lines
    128-133); [faded] is [this._background.opacity == 0]. *)
Definition transitionsCompleted (faded : bool) (m : Menu) : Menu :=
  match root m with
  | Some _ => if faded then set_root None m else m
  | None => m
  end.

(** The signals of the selection wedges, with what [global.get_pointer()]
    returns while they are handled. *)
Inductive Event : Type :=
| ChildHovered (index : Z) (ptr : Pointer)
| ChildSelected (index : Z) (ptr : Pointer)
| ParentHovered
| ParentSelected (ptr : Pointer)
| CancelSelection.

(** [this._settings.get_double(key)]. *)
Definition Settings := string -> Q.

Section Menu.

(** The collaborators of the menu: the settings, the monitor under the
    pointer and [MenuItem.redraw] (daemon/MenuItem.js is not among the
    sources), which is a parameter of the model. *)
Variable settings : Settings.
Variable monitor : Monitor.
Variable redraw : MenuItem -> MenuItem.

(** *** [_clampToToMonitor] (lines 659-697) *)

(** Lines 661-683: the theoretically largest extent. *)
Definition maxSize : Q :=
  let wedgeRadius := settings "wedge-inner-radius" in
  let centerRadius :=
    JS.max (settings "center-size" / 2) (settings "center-size-hover" / 2) in
  let childRadius :=
    JS.max (settings "child-size" / 2 + settings "child-offset")
           (settings "child-size-hover" / 2 + settings "child-offset-hover") in
  let grandchildRadius :=
    JS.max (settings "child-offset" + settings "grandchild-size" / 2 +
            settings "grandchild-offset")
           (settings "child-offset-hover" +
            settings "grandchild-size-hover" / 2 +
            settings "grandchild-offset-hover") in
  let maxSize := wedgeRadius in
  let maxSize := JS.max maxSize centerRadius in
  let maxSize := JS.max maxSize childRadius in
  let maxSize := JS.max maxSize grandchildRadius in
  (maxSize * (2 * settings "global-scale"))%Q.

Definition clampToToMonitor (x y margin : Q) : Z * Z :=
  let min := (margin + maxSize / 2)%Q in
  let maxX := (monitor_width monitor - min)%Q in
  let maxY := (monitor_height monitor - min)%Q in
  let posX := JS.min (JS.max x min) maxX in
  let posY := JS.min (JS.max y min) maxY in
  (JS.floor posX, JS.floor posY).

(** [pointerX != clampedX || pointerY != clampedY]. *)
Definition pointerMoved (ptr : Pointer) (clamped : Z * Z) : bool :=
  negb (Qeq_bool (pointerX ptr) (inject_Z (fst clamped))) ||
  negb (Qeq_bool (pointerY ptr) (inject_Z (snd clamped))).

(** Clamp the pointer with a margin of 10 and warp it if it moved. *)
Definition clampAndWarp (ptr : Pointer) (m : Menu) : Menu :=
  let clamped := clampToToMonitor (pointerX ptr) (pointerY ptr) 10 in
  if pointerMoved ptr clamped
  then emit (WarpPointer (fst clamped) (snd clamped)) m
  else m.

(** Lines 393-400 of [show]: the root gets a name and an icon if it has
    none. *)
Definition rootDefaults (structure : Item) : Item :=
  let structure :=
    match item_name structure with
    | None => set_name (Some "root") structure
    | Some _ => structure
    end in
  match item_icon structure with
  | None => set_icon (Some "image-missing") structure
  | Some _ => structure
  end.

(** *** [show] (lines 373-469)

    [grab] is the result of [this._background.show(previewMode)] and [ptr]
    what [global.get_pointer()] returns.  The result is the returned value,
    the [structure] object as the call leaves it and the menu after the
    call; [None] is a call that does not return. *)
Definition show (menuID' : string) (structure : Item) (previewMode' : bool)
    (grab : bool) (ptr : Pointer) (m : Menu)
    : option (ShowResult * Item * Menu) :=
  (* The menu is already active. *)
  if JS.truthy (menuID m) then Some (Failed eAlreadyActive, structure, m)
  (* Check if there is a root item list. *)
  else if negb (0 <? length (item_children structure))%nat
  then Some (Failed ePropertyMissing, structure, m)
  else
    (* Remove any previous menus. *)
    let m := destroyRoot m in
    let m := set_previewMode previewMode' m in
    (* Make sure that a name and an icon is set. *)
    let structure := rootDefaults structure in
    (* Calculate and verify all item angles. *)
    let structure := set_angle (Some 0%Q) structure in
    r ← updateItemAngles (item_children structure) None;
    let structure := set_children (snd r) structure in
    if negb (fst r) then Some (Failed eInvalidAngles, structure, m)
    else
      (* Assign an ID to each item. *)
      let structure := set_id (Some "/") structure in
      let structure :=
        set_children (updateItemIDs (item_children structure) None)
          structure in
      (* Try to grab the complete input. *)
      if negb grab then Some (Failed eUnknownError, structure, m)
      else
        let m := set_menuID (Some menuID') m in
        let item := createMenuItem structure in
        let m := set_chain (menuSelectionChain m ++ [[]]) m in
        let item := setState CENTER_HOVERED (Some (-1)) item in
        let item := redraw item in
        let m := set_root (Some (mkRoot item false)) m in
        let m :=
          emit (SetItemAngles (map mi_angle (mi_children item)) None) m in
        let m := if previewMode' then m else clampAndWarp ptr m in
        Some (Shown menuID', structure, m).

(** *** The handlers of the selection wedges' signals *)

(** The tree under [this._root] and its update. *)
Definition tree (m : Menu) : option MenuItem := root_item <$> root m.
Definition set_tree (t : MenuItem) (m : Menu) : Menu :=
  match root m with
  | Some r => set_root (Some (mkRoot t (root_destroyed r))) m
  | None => m
  end.

(** [child-hovered-event] (lines 155-182). *)
Definition childHovered (index : Z) (ptr : Pointer) (m : Menu)
    : option Menu :=
  t ← tree m;
  center ← menuSelectionChain m !! 0%nat;
  _ ← getItem t center;
  let t :=
    if index =? -1
    then alterItem (setState CENTER_HOVERED (Some (-1))) center t
    else alterItem (setState CENTER (Some index)) center t in
  let t :=
    match menuSelectionChain m !! 1%nat with
    | Some parent => alterItem (setState PARENT None) parent t
    | None => t
    end in
  tm ←
    (if button1 ptr && (0 <=? index) then
       c ← getItem t center;
       _ ← nthZ (mi_children c) index;
       let child := center ++ [Z.to_nat index] in
       Some (alterItem (setState CHILD_DRAGGED None) child t,
             set_draggedChild (Some child) m)
     else Some (t, set_draggedChild None m));
  Some (set_tree (redraw (fst tm)) (snd tm)).

(** [child-selected-event] (lines 186-282). *)
Definition childSelected (index : Z) (ptr : Pointer) (m : Menu)
    : option Menu :=
  t ← tree m;
  parent ← menuSelectionChain m !! 0%nat;
  parentItem ← getItem t parent;
  childItem ← nthZ (mi_children parentItem) index;
  let child := parent ++ [Z.to_nat index] in
  (* Ignore any gesture-based selection of leaf nodes. *)
  if button1 ptr && (length (mi_children childItem) =? 0)%nat then Some m
  else
    let m := set_draggedChild None m in
    let t := alterItem (setState PARENT (Some index)) parent t in
    let t := alterItem (setState CENTER_HOVERED None) child t in
    let m := set_chain (child :: menuSelectionChain m) m in
    let m := clampAndWarp ptr m in
    let m :=
      if (0 <? length (mi_children childItem))%nat
      then emit (SetItemAngles (map mi_angle (mi_children childItem))
                   (childParentAngle (mi_angle childItem))) m
      else m in
    let m := set_tree (redraw t) m in
    t ← tree m;
    childItem ← getItem t child;
    if (length (mi_children childItem) =? 0)%nat
    then Some (hide (emit (OnSelect (menuID m) (mi_id childItem)) m))
    else Some m.

(** [parent-hovered-event] (lines 286-297). *)
Definition parentHovered (m : Menu) : option Menu :=
  t ← tree m;
  center ← menuSelectionChain m !! 0%nat;
  _ ← getItem t center;
  parent ← menuSelectionChain m !! 1%nat;
  _ ← getItem t parent;
  let t := alterItem (setState CENTER_HOVERED (Some (-1))) center t in
  let t := alterItem (setState PARENT_HOVERED None) parent t in
  Some (set_draggedChild None (set_tree (redraw t) m)).

(** [parent-selected-event] (lines 301-349). *)
Definition parentSelected (ptr : Pointer) (m : Menu) : option Menu :=
  t ← tree m;
  parent ← menuSelectionChain m !! 1%nat;
  parentItem ← getItem t parent;
  let t := alterItem (setState CENTER_HOVERED (Some (-1))) parent t in
  let m := set_chain (tail (menuSelectionChain m)) m in
  let m := clampAndWarp ptr m in
  let itemAngles := map mi_angle (mi_children parentItem) in
  let m :=
    if (1 <? length (menuSelectionChain m))%nat
    then emit (SetItemAngles itemAngles
                 (childParentAngle (mi_angle parentItem))) m
    else emit (SetItemAngles itemAngles None) m in
  _ ← last (menuSelectionChain m);
  let m := set_draggedChild None m in
  Some (set_tree (redraw t) m).

(** [cancel-selection-event] (lines 352-355). *)
Definition cancelSelection (m : Menu) : option Menu :=
  Some (hide (emit (OnCancel (menuID m)) m)).

Definition handle (e : Event) (m : Menu) : option Menu :=
  match e with
  | ChildHovered index ptr => childHovered index ptr m
  | ChildSelected index ptr => childSelected index ptr m
  | ParentHovered => parentHovered m
  | ParentSelected ptr => parentSelected ptr m
  | CancelSelection => cancelSelection m
  end.

(** A sequence of events, handled one after the other. *)
Fixpoint run (es : list Event) (m : Menu) : option Menu :=
  match es with
  | [] => Some m
  | e :: es' => m' ← handle e m; run es' m'
  end.

End Menu.

Arguments wedgeStep : simpl never.

(** ** Notions used in the statements *)

(** The fixed angles of a level as the solver takes them: the angles that
    the items supply and that are not negative, in list order. *)
Definition fixedValues (items : list Item) : list Q :=
  List.filter (JS.leb 0) (omap item_angle items).

(** The solver as the [return false] of its callback is meant (line 631):
    a level that is rejected below an item makes the call on the level of
    the item fail as well.  Here [None] is that failure. *)
Fixpoint strictChildAngles (item : Item) (a : option Q) {struct item}
    : option Item :=
  r ← updateItemAnglesWith strictChildAngles (item_children item)
        (childParentAngle a);
  if fst (r : bool * list Item)
  then Some (set_children (snd r) (set_angle a item))
  else None.

(** The fixed angles of all levels of a tree are valid: the solver accepts
    the top level and every level below. *)
Definition allLevelsValid (items : list Item) (parentAngle : option Q)
    : Prop :=
  fst <$> updateItemAnglesWith strictChildAngles items parentAngle =
  Some true.

(** A property of all items of a tree. *)
Inductive EveryItem (P : Item -> Prop) : list Item -> Prop :=
| EveryItem_intro items :
    Forall (fun item => P item /\ EveryItem P (item_children item)) items ->
    EveryItem P items.

(** What [show] leaves of an item of the request in the item it has made of
    it: the name, the icon, an id that is not empty, and the same for the
    children, one by one. *)
Inductive Written : Item -> Item -> Prop :=
| Written_intro a b :
    item_name b = item_name a ->
    item_icon b = item_icon a ->
    (JS.truthy (item_id a) = true -> item_id b = item_id a) ->
    Forall2 Written (item_children a) (item_children b) ->
    Written a b.

(** The item has an angle between 0 and 360. *)
Definition hasAngle (item : Item) : Prop :=
  exists a, item_angle item = Some a /\ (0 <= a < 360)%Q.

(** The same for a slot of a level. *)
Definition goodSlot (o : option (option Q)) : Prop :=
  exists a, o = Some (Some a) /\ (0 <= a < 360)%Q.

(** The selection chain *)

Definition isCenter (s : MenuItemState) : Prop :=
  s = CENTER \/ s = CENTER_HOVERED.

Definition isParent (s : MenuItemState) : Prop :=
  s = PARENT \/ s = PARENT_HOVERED.

(** The item that [this._menuSelectionChain[0]] refers to. *)
Definition centerItem (m : Menu) : option MenuItem :=
  t ← root_item <$> root m;
  center ← menuSelectionChain m !! 0%nat;
  getItem t center.

(** The selection chain invariant of the spec: the element at index 0 is in
    state CENTER or CENTER_HOVERED and the last element is the root of the
    tree. *)
Definition selectionChainInvariant (m : Menu) : Prop :=
  (exists item, centerItem m = Some item /\ isCenter (mi_state item)) /\
  last (menuSelectionChain m) = Some [].

(** A chain as [push(root)], [unshift(child)] and [shift()] build it: every
    element is a child of the next one and the last one is the root. *)
Inductive chainOK : list Ref -> Prop :=
| chainOK_root : chainOK [[]]
| chainOK_child p i chain :
    chainOK (p :: chain) -> chainOK ((p ++ [i]) :: p :: chain).

(** The way from the root to [p] leads through parents and their active
    children: every item above [p] is in state PARENT or PARENT_HOVERED and
    its active child is the next item on the way. *)
Definition onActivePath (t : MenuItem) (p : Ref) : Prop :=
  forall q i, (q ++ [i]) `prefix_of` p ->
    exists item, getItem t q = Some item /\ isParent (mi_state item) /\
      mi_activeChildIndex item = Some (Z.of_nat i).

(** The menu is open: the menu ID is set, the chain leads from the center
    item up to the root. *)
Definition Active (m : Menu) : Prop :=
  menuID m <> None /\
  exists t center item,
    root_item <$> root m = Some t /\
    chainOK (menuSelectionChain m) /\
    menuSelectionChain m !! 0%nat = Some center /\
    onActivePath t center /\
    getItem t center = Some item /\ isCenter (mi_state item).

(** The menu is closed, as [_hide] leaves it. *)
Definition Closed (m : Menu) : Prop :=
  menuID m = None /\ menuSelectionChain m = [].

(** An event that the selection wedges can send for the item in the center:
    a child index is one of its children (or -1 when no child is hovered),
    and the parent wedge exists only below the root. *)
Definition validEvent (m : Menu) (e : Event) : Prop :=
  match e with
  | ChildHovered index _ =>
      exists item, centerItem m = Some item /\
        -1 <= index < Z.of_nat (length (mi_children item))
  | ChildSelected index _ =>
      exists item, centerItem m = Some item /\
        0 <= index < Z.of_nat (length (mi_children item))
  | ParentHovered | ParentSelected _ =>
      (1 < length (menuSelectionChain m))%nat
  | CancelSelection => True
  end.

(** Every event of the sequence is valid for the menu it arrives at. *)
Fixpoint validRun (settings : Settings) (monitor : Monitor)
    (redraw : MenuItem -> MenuItem) (es : list Event) (m : Menu) : Prop :=
  match es with
  | [] => True
  | e :: es' =>
      validEvent m e /\
      forall m', handle settings monitor redraw e m = Some m' ->
                 validRun settings monitor redraw es' m'
  end.

(** An example of a [redraw] that propagates the states down the tree, for
    the examples below: the children of the center item are children, the
    active one hovered or dragged; below them come the grandchildren and then
    invisible items; a parent keeps its active child as it is and hides its
    other children. *)
Definition childState (parentState : MenuItemState) (active : option Z)
    (i : nat) (own : MenuItemState) : MenuItemState :=
  match parentState with
  | CENTER_HOVERED => CHILD
  | CENTER =>
      if decide (active = Some (Z.of_nat i))
      then (if decide (own = CHILD_DRAGGED) then CHILD_DRAGGED
            else CHILD_HOVERED)
      else CHILD
  | CHILD | CHILD_HOVERED | CHILD_DRAGGED => GRANDCHILD
  | PARENT | PARENT_HOVERED =>
      if decide (active = Some (Z.of_nat i)) then own else INVISIBLE
  | GRANDCHILD | INVISIBLE => INVISIBLE
  end.

Fixpoint redrawAs (state : MenuItemState) (t : MenuItem) {struct t}
    : MenuItem :=
  mkMenuItem (mi_id t) (mi_caption t) (mi_icon t) (mi_angle t) state
    (mi_activeChildIndex t)
    ((fix each (i : nat) (cs : list MenuItem) {struct cs} : list MenuItem :=
        match cs with
        | [] => []
        | c :: cs' =>
            redrawAs (childState state (mi_activeChildIndex t) i (mi_state c))
              c :: each (S i) cs'
        end) 0%nat (mi_children t)).

Definition redrawExample (t : MenuItem) : MenuItem :=
  redrawAs (mi_state t) t.


(** ** Example requests and menus *)


(** The menu of the spec's example after its [show], and the structure of
    that request. *)
Definition exampleStructure : Item :=
  mkItem None None None None
    [mkItem (Some "A") None None None [];
     mkItem (Some "B") None None None [];
     mkItem (Some "C") None None None []].

Definition exampleSettings : Settings := fun _ => 0%Q.
Definition exampleMonitor : Monitor := mkMonitor 1920 1080.
Definition examplePointer : Pointer := mkPointer 100 100 false.

Definition exampleMenu : Menu :=
  match show exampleSettings exampleMonitor redrawExample "m1"
          exampleStructure false true examplePointer newMenu with
  | Some (_, _, m) => m
  | None => newMenu
  end.

(** The menu of the example after [_hide]: the menu ID is cleared and the
    tree is still there, fading out. *)
Definition hiddenMenu : Menu := hide exampleMenu.

(** A request whose fixed angles 30 and 10 are out of order. *)
Definition invalidStructure : Item :=
  mkItem None None None None
    [mkItem None None (Some 30%Q) None [];
     mkItem None None (Some 10%Q) None []].

(** A request with a submenu: A has the children A1 and A2, B is a leaf. *)
Definition nestedStructure : Item :=
  mkItem None None None None
    [mkItem (Some "A") None None None
       [mkItem (Some "A1") None None None [];
        mkItem (Some "A2") None None None []];
     mkItem (Some "B") None None None []].

Definition nestedMenu : Menu :=
  match show exampleSettings exampleMonitor redrawExample "m1"
          nestedStructure false true examplePointer newMenu with
  | Some (_, _, m) => m
  | None => newMenu
  end.

(** ** Notions used in the further properties *)

(** The angle of the first item of a level without fixed angles (lines
    559-566): to the left if the parent link points to the right half. *)
Definition firstAngleFor (parentAngle : option Q) : Q :=
  match parentAngle with
  | Some p => if JS.ltb p 180 then 270%Q else 90%Q
  | None => 90%Q
  end.

(** The [k]-th of [n] directions spread evenly over the full circle,
    beginning at 90 degrees, as an angle below 360. *)
Definition evenAngle (n k : nat) : Q :=
  let a := (90 + 360 * inject_Z (Z.of_nat k) / inject_Z (Z.of_nat n))%Q in
  if Qle_bool 360 a then (a - 360)%Q else a.

(** The item that the index path [path] leads to from the items of a
    level: [items[i].children[j]...]. *)
Fixpoint itemAt (items : list Item) (path : list nat) : option Item :=
  match path with
  | [] => None
  | i :: path' =>
      item ← items !! i;
      match path' with
      | [] => Some item
      | _ :: _ => itemAt (item_children item) path'
      end
  end.

(** The path as the default ids write it: [/0/2/1]. *)
Fixpoint pathID (path : list nat) : string :=
  match path with
  | [] => ""
  | i :: path' => "/" +:+ pretty i +:+ pathID path'
  end.

(** The item has no id of its own: the property is missing or empty. *)
Definition noID (item : Item) : Prop := JS.truthy (item_id item) = false.

(** The item without the angles that it and the items below it carry. *)
Fixpoint eraseAngles (item : Item) : Item :=
  match item with
  | mkItem n ic _ d cs => mkItem n ic None d (map eraseAngles cs)
  end.

(** No character of the string is a slash. *)
Fixpoint noSlash (s : string) : Prop :=
  match s with
  | EmptyString => True
  | String c s' => c <> "/"%char /\ noSlash s'
  end.

(** ** The other handlers of the menu *)

Section Handlers.

Variable settings : Settings.
Variable monitor : Monitor.
Variable redraw : MenuItem -> MenuItem.

(** The handler of the background's [motion-event] (lines 87-125), after it
    has passed the event on to the selection wedges.  [button1] is the
    primary button in the state of the event and [hovered] what
    [this._selectionWedges.getHoveredChild()] returns.  The translation of
    the dragged child and the trace of its parent (lines 102-121) are not
    part of the model. *)
Definition motionEvent (button1 : bool) (hovered : Z) (m : Menu)
    : option Menu :=
  match button1, draggedChild m with
  | true, None =>
      if 0 <=? hovered then
        t ← tree m;
        center ← menuSelectionChain m !! 0%nat;
        c ← getItem t center;
        _ ← nthZ (mi_children c) hovered;
        let child := center ++ [Z.to_nat hovered] in
        let t := alterItem (setState CHILD_DRAGGED None) child t in
        Some (set_draggedChild (Some child) (set_tree t m))
      else Some m
  | _, _ => Some m
  end.

(** The handler of the background's [close-event] (lines 136-139). *)
Definition closeEvent (m : Menu) : option Menu :=
  Some (hide (emit (OnCancel (menuID m)) m)).

(** [_onSettingsChange] (lines 641-652): the tree is drawn again. *)
Definition onSettingsChange (m : Menu) : Menu :=
  match tree m with
  | Some t => set_tree (redraw t) m
  | None => m
  end.

(** What reaches the menu: a show request with what the background and the
    pointer answer during the call, a signal of the selection wedges, and
    the signals of the background and of the settings. *)
Inductive Signal : Type :=
| ShowRequest (menuID : string) (structure : Item) (previewMode : bool)
    (grab : bool) (ptr : Pointer)
| Wedges (e : Event)
| MotionEvent (button1 : bool) (hovered : Z)
| TransitionsCompleted (faded : bool)
| CloseEvent
| SettingsChanged.

Definition react (s : Signal) (m : Menu) : option Menu :=
  match s with
  | ShowRequest menuID' structure previewMode' grab ptr =>
      r ← show settings monitor redraw menuID' structure previewMode' grab
            ptr m;
      Some (snd r)
  | Wedges e => handle settings monitor redraw e m
  | MotionEvent button1 hovered => motionEvent button1 hovered m
  | TransitionsCompleted faded => Some (transitionsCompleted faded m)
  | CloseEvent => closeEvent m
  | SettingsChanged => Some (onSettingsChange m)
  end.

(** The signals of a list, one after the other. *)
Fixpoint reactAll (ss : list Signal) (m : Menu) : option Menu :=
  match ss with
  | [] => Some m
  | s :: ss' => m' ← react s m; reactAll ss' m'
  end.

End Handlers.

Definition isShowRequest (s : Signal) : bool :=
  match s with
  | ShowRequest _ _ _ _ _ => true
  | _ => false
  end.

(** The calls of the two callbacks that name a menu. *)
Definition isReport (e : Effect) : bool :=
  match e with
  | OnSelect _ _ => true
  | OnCancel (Some _) => true
  | _ => false
  end.

Definition reports (m : Menu) : list Effect :=
  List.filter isReport (effects m).

(** The members of the menu fit together: the menu ID is null exactly when
    the selection chain is empty, and a dragged child is a child of the
    first item of the chain. *)
Definition Consistent (m : Menu) : Prop :=
  (menuID m = None <-> menuSelectionChain m = []) /\
  (forall r, draggedChild m = Some r ->
     exists c i, menuSelectionChain m !! 0%nat = Some c /\ r = c ++ [i]).

(** A step of the menu that reports nothing, and a step that closes the
    menu with one report that names it. *)
Definition Quiet (m m' : Menu) : Prop :=
  menuID m' = menuID m /\ reports m' = reports m.

Definition reportOf (id : string) (r : Effect) : Prop :=
  r = OnCancel (Some id) \/ exists itemID, r = OnSelect (Some id) itemID.

Definition Reported (m m' : Menu) : Prop :=
  exists id r,
    menuID m = Some id /\ menuID m' = None /\
    reports m' = reports m ++ [r] /\ reportOf id r.

(** What a show request returns, read off the four tests of [show] in
    their order. *)
Definition showResult (menuID' : string) (structure : Item) (grab : bool)
    (m : Menu) : ShowResult :=
  if JS.truthy (menuID m) then Failed eAlreadyActive
  else if (length (item_children structure) =? 0)%nat
  then Failed ePropertyMissing
  else if negb (levelValid (map item_angle (item_children structure)) None)
  then Failed eInvalidAngles
  else if negb grab then Failed eUnknownError
  else Shown menuID'.








(** * Properties *)

(** ** Comparisons of numbers *)


Lemma JS_ltb_ge x y : JS.ltb x y = false <-> (y <= x)%Q.
Proof.
  unfold JS.ltb. rewrite negb_false_iff. apply Qle_bool_iff.
Qed.

Lemma JS_leb_le x y : JS.leb x y = true <-> (x <= y)%Q.
Proof. apply Qle_bool_iff. Qed.

Lemma JS_leb_gt x y : JS.leb x y = false <-> (y < x)%Q.
Proof.
  unfold JS.leb. rewrite <- not_true_iff_false, Qle_bool_iff.
  split; [apply Qnot_le_lt | apply Qlt_not_le].
Qed.

(** An induction principle that reaches the children. *)
Lemma Item_ind' (P : Item -> Prop) :
  (forall n i a d cs, Forall P cs -> P (mkItem n i a d cs)) ->
  forall it, P it.
Proof.
  intros step. fix IH 1. intros [n i a d cs]. apply step.
  induction cs as [|c cs IHcs]; constructor; [apply IH | apply IHcs].
Qed.

(** ** The loops of the angle solver end *)

(** Every fixed angle sits at its index and is not negative. *)
Lemma fixedAnglesFrom_spec index slots f :
  f ∈ fixedAnglesFrom index slots ->
  index <= findex f < index + Z.of_nat (length slots) /\
  slots !! Z.to_nat (findex f - index) = Some (Some (fangle f)) /\
  (0 <= fangle f)%Q.
Proof.
  revert index. induction slots as [|o slots IH]; intros index Hin; simpl in *.
  - by apply elem_of_nil in Hin.
  - assert (Hrest : f ∈ fixedAnglesFrom (index + 1) slots ->
      index <= findex f < index + Z.of_nat (S (length slots)) /\
      (o :: slots) !! Z.to_nat (findex f - index) = Some (Some (fangle f)) /\
      (0 <= fangle f)%Q).
    { intros H. destruct (IH _ H) as (Hr & Hl & Hp). split; [lia|].
      split; [|done].
      replace (Z.to_nat (findex f - index))
        with (S (Z.to_nat (findex f - (index + 1)))) by lia.
      done. }
    destruct o as [a|]; [|by apply Hrest].
    destruct (JS.leb 0 a) eqn:Ha; [|by apply Hrest].
    apply elem_of_cons in Hin as [->|Hin]; [|by apply Hrest].
    simpl. split; [lia|]. rewrite Z.sub_diag. split; [done|].
    by apply JS_leb_le.
Qed.

Lemma fixedAnglesOf_range slots f :
  f ∈ fixedAnglesOf slots -> 0 <= findex f < Z.of_nat (length slots).
Proof. intros H. apply fixedAnglesFrom_spec in H. lia. Qed.

Lemma rem_succ index n :
  0 <= index < n ->
  Z.rem (index + 1) n = if index + 1 =? n then 0 else index + 1.
Proof.
  intros H. rewrite Z.rem_mod_nonneg by lia.
  destruct (index + 1 =? n) eqn:E.
  - apply Z.eqb_eq in E. rewrite E. apply Z.mod_same. lia.
  - apply Z.eqb_neq in E. apply Z.mod_small. lia.
Qed.

(** The [while] loop of a wedge ends within [n] rounds and keeps the number
    of slots. *)
Lemma assignWedge_total fuel n bA gap e pa index count pgr (slots : Slots) :
  Z.of_nat (length slots) = n ->
  0 <= index < n -> 0 <= e < n ->
  (e - index) mod n < Z.of_nat fuel ->
  exists slots',
    assignWedge fuel n bA gap e pa index count pgr slots = Some slots' /\
    length slots' = length slots.
Proof.
  revert index count pgr slots.
  induction fuel as [|fuel IH]; intros index count pgr slots Hn Hi He Hfuel.
  - pose proof (Z.mod_pos_bound (e - index) n). lia.
  - simpl. destruct (index =? e) eqn:E; [eauto|].
    apply Z.eqb_neq in E.
    destruct (slots !! Z.to_nat index) as [o|] eqn:Hl.
    2:{ apply lookup_ge_None in Hl. lia. }
    edestruct (IH (Z.rem (index + 1) n)) as (slots' & Hw & Hlen);
      [| | done | | eexists; split; [exact Hw|]].
    + by rewrite length_insert.
    + rewrite rem_succ by done. destruct (Z.eqb_spec (index + 1) n); lia.
    + rewrite rem_succ by done. destruct (index + 1 =? n) eqn:E'.
      * apply Z.eqb_eq in E'. rewrite Z.sub_0_r, Z.mod_small by lia.
        replace (e - index) with (e + 1 + (-1) * n) in Hfuel by lia.
        rewrite Z.mod_add, Z.mod_small in Hfuel by lia. lia.
      * apply Z.eqb_neq in E'.
        destruct (Z_lt_le_dec index e).
        -- rewrite Z.mod_small in Hfuel |- * by lia. lia.
        -- replace (e - (index + 1)) with (e - index - 1 + n + (-1) * n)
             by lia.
           replace (e - index) with (e - index + n + (-1) * n) in Hfuel
             by lia.
           rewrite Z.mod_add, Z.mod_small in Hfuel |- * by lia. lia.
    + by rewrite Hlen, length_insert.
Qed.

Lemma wedgeStep_total n fixedAngles i (slots : Slots) pa :
  Z.of_nat (length slots) = n ->
  (forall f, f ∈ fixedAngles -> 0 <= findex f < n) ->
  (i < length fixedAngles)%nat ->
  exists slots' pa',
    wedgeStep n fixedAngles i (slots, pa) = Some (slots', pa') /\
    length slots' = length slots.
Proof.
  intros Hn Hrange Hi. unfold wedgeStep.
  destruct (lookup_lt_is_Some_2 fixedAngles i Hi) as [b Hb].
  assert (Hi' : ((i + 1) mod length fixedAngles < length fixedAngles)%nat)
    by (apply Nat.mod_upper_bound; lia).
  destruct (lookup_lt_is_Some_2 fixedAngles _ Hi') as [e He].
  rewrite Hb, He. simpl.
  pose proof (Hrange b (list_elem_of_lookup_2 _ _ _ Hb)) as Hbr.
  pose proof (Hrange e (list_elem_of_lookup_2 _ _ _ He)) as Her.
  match goal with
  | |- context [assignWedge ?fu n ?bA ?g ?ee ?p ?ix ?c ?q slots] =>
      destruct (assignWedge_total fu n bA g ee p ix c q slots)
        as (slots' & Hw & Hlen)
  end; [done | | done | | rewrite Hw; simpl; eauto].
  - rewrite rem_succ by done. destruct (Z.eqb_spec (findex b + 1) n); lia.
  - pose proof (Z.mod_pos_bound (findex e - Z.rem (findex b + 1) n) n). lia.
Qed.

Lemma wedgeLoop_total n fixedAngles k i (slots : Slots) pa :
  Z.of_nat (length slots) = n ->
  (forall f, f ∈ fixedAngles -> 0 <= findex f < n) ->
  (i + k <= length fixedAngles)%nat ->
  exists slots' pa',
    wedgeLoop n fixedAngles i k (slots, pa) = Some (slots', pa') /\
    length slots' = length slots.
Proof.
  revert i slots pa. induction k as [|k IH]; intros i slots pa Hn Hr Hk; simpl.
  - eauto.
  - destruct (wedgeStep_total n fixedAngles i slots pa)
      as (s1 & pa1 & Hs & Hl1); [done | done | lia |].
    rewrite Hs. simpl.
    destruct (IH (S i) s1 pa1) as (s2 & pa2 & Hw & Hl2);
      [lia | done | lia |].
    rewrite Hw. eexists _, _. split; [done | lia].
Qed.

(** The level part of the solver returns on every non-empty level. *)
Lemma assignLevel_total (slots : Slots) pa :
  (0 < length slots)%nat ->
  exists slots',
    assignLevel slots pa = Some slots' /\ length slots' = length slots.
Proof.
  intros Hpos. unfold assignLevel.
  destruct (length (fixedAnglesOf slots) =? 0)%nat eqn:E.
  - match goal with
    | |- context [wedgeLoop ?n ?fa 0 ?k (?s, ?p)] =>
        destruct (wedgeLoop_total n fa k 0%nat s p) as (s' & p' & Hw & Hl)
    end.
    + by rewrite length_insert.
    + intros f Hf. apply list_elem_of_singleton in Hf as ->. simpl. lia.
    + simpl. lia.
    + rewrite Hw. simpl. eexists. split; [done|].
      by rewrite Hl, length_insert.
  - match goal with
    | |- context [wedgeLoop ?n ?fa 0 ?k (?s, ?p)] =>
        destruct (wedgeLoop_total n fa k 0%nat s p) as (s' & p' & Hw & Hl)
    end.
    + done.
    + apply fixedAnglesOf_range.
    + lia.
    + rewrite Hw. simpl. eauto.
Qed.

Lemma forEachItem_total callback (items : list Item) (slots : Slots) :
  length slots = length items ->
  Forall (fun item => forall a, is_Some (callback item a)) items ->
  exists items',
    forEachItem callback items slots = Some items' /\
    length items' = length items.
Proof.
  revert slots. induction items as [|item items IH]; intros slots Hlen Hall.
  - simpl. eauto.
  - destruct slots as [|a slots]; [done|]. simpl.
    apply Forall_cons in Hall as [Hitem Hall].
    destruct (Hitem a) as [item' ->]. simpl.
    destruct (IH slots) as (items' & Hrest & Hl); [by inversion Hlen | done |].
    rewrite Hrest. simpl. eexists. split; [done|]. simpl. lia.
Qed.

Lemma updateItemAnglesWith_total callback items pa :
  Forall (fun item => forall a, is_Some (callback item a)) items ->
  exists ok items',
    updateItemAnglesWith callback items pa = Some (ok, items') /\
    length items' = length items.
Proof.
  intros Hall. unfold updateItemAnglesWith.
  destruct (length items =? 0)%nat eqn:E; [eauto|].
  apply Nat.eqb_neq in E.
  destruct (levelValid (map item_angle items) pa); simpl; [|eauto].
  destruct (assignLevel_total (map item_angle items) pa)
    as (slots' & Ha & Hl); [rewrite length_map; lia|].
  rewrite Ha. simpl.
  destruct (forEachItem_total callback items slots')
    as (items' & Hf & Hl'); [by rewrite Hl, length_map | done |].
  rewrite Hf. simpl. eauto.
Qed.

Lemma updateChildAngles_unfold item a :
  updateChildAngles item a =
  r ← updateItemAngles (item_children item) (childParentAngle a);
  Some (set_children (snd r) (set_angle a item)).
Proof. by destruct item. Qed.

Lemma updateChildAngles_total item : forall a, is_Some (updateChildAngles item a).
Proof.
  induction item as [n i a0 d cs IH] using Item_ind'. intros a.
  rewrite updateChildAngles_unfold. simpl. unfold updateItemAngles.
  destruct (updateItemAnglesWith_total updateChildAngles cs
              (childParentAngle a) IH) as (ok & items' & Hu & _).
  rewrite Hu. simpl. eauto.
Qed.

(** [_updateItemAngles] returns on every input, with as many items as it
    was given. *)
Lemma updateItemAngles_total items pa :
  exists ok items',
    updateItemAngles items pa = Some (ok, items') /\
    length items' = length items.
Proof.
  apply updateItemAnglesWith_total, Forall_forall.
  intros item _. apply updateChildAngles_total.
Qed.

(** ** What [_updateItemIDs] writes *)

Lemma updateItemID_unfold item i parentID :
  updateItemID item i parentID =
  set_children
    (updateItemIDs (item_children item) (assignedID item i parentID))
    (set_id (assignedID item i parentID) item).
Proof.
  destruct item as [n ic a d cs]. simpl. f_equal.
  unfold updateItemIDs. generalize 0%nat.
  induction cs as [|c cs IH]; intros k; simpl; [done|]. by rewrite IH.
Qed.

Lemma item_id_updateItemID item i parentID :
  item_id (updateItemID item i parentID) = assignedID item i parentID.
Proof. by rewrite updateItemID_unfold. Qed.

Lemma item_angle_updateItemID item i parentID :
  item_angle (updateItemID item i parentID) = item_angle item.
Proof. by rewrite updateItemID_unfold. Qed.

(** ** The show request with three children *)

Lemma levelValid_three : levelValid [None; None; None] None = true.
Proof. reflexivity. Qed.

Lemma assignLevel_three :
  assignLevel [None; None; None] None =
  Some [Some 90%Q; Some (630 # 3)%Q; Some (990 # 3)%Q].
Proof. vm_compute. reflexivity. Qed.

Lemma updateItemAngles_three A B C :
  item_angle A = None -> item_angle B = None -> item_angle C = None ->
  exists cA cB cC,
    updateItemAngles [A; B; C] None =
    Some (true, [set_children cA (set_angle (Some 90%Q) A);
                 set_children cB (set_angle (Some (630 # 3)%Q) B);
                 set_children cC (set_angle (Some (990 # 3)%Q) C)]).
Proof.
  intros HA HB HC.
  unfold updateItemAngles, updateItemAnglesWith.
  cbn [length Nat.eqb map]. rewrite HA, HB, HC, levelValid_three.
  cbn [negb]. rewrite assignLevel_three. cbn [mbind option_bind forEachItem].
  destruct (updateChildAngles_total A (Some 90%Q)) as [A' HA'].
  destruct (updateChildAngles_total B (Some (630 # 3)%Q)) as [B' HB'].
  destruct (updateChildAngles_total C (Some (990 # 3)%Q)) as [C' HC'].
  rewrite HA', HB', HC'. cbn [mbind option_bind].
  rewrite updateChildAngles_unfold in HA', HB', HC'.
  destruct (updateItemAngles (item_children A) _) as [[okA cA]|];
    [|discriminate].
  destruct (updateItemAngles (item_children B) _) as [[okB cB]|];
    [|discriminate].
  destruct (updateItemAngles (item_children C) _) as [[okC cC]|];
    [|discriminate].
  simpl in HA', HB', HC'.
  injection HA' as <-. injection HB' as <-. injection HC' as <-.
  by exists cA, cB, cC.
Qed.

(** C1: a show request whose root has three children without fixed angles
    and without ids, sent to a menu that is not active and that gets the
    input grab, returns the passed menu id; the solver gives the children the
    angles 90, 210 and 330 and the id assignment gives them the ids /0, /1
    and /2. *)
Theorem C1_show_three_children settings monitor redraw menuID'
    (structure A B C : Item) previewMode' ptr m :
  JS.truthy (menuID m) = false ->
  item_children structure = [A; B; C] ->
  item_angle A = None -> item_angle B = None -> item_angle C = None ->
  item_id A = None -> item_id B = None -> item_id C = None ->
  exists structure' m',
    show settings monitor redraw menuID' structure previewMode' true ptr m =
      Some (Shown menuID', structure', m') /\
    map (fun item => Qred <$> item_angle item) (item_children structure') =
      [Some 90%Q; Some 210%Q; Some 330%Q] /\
    map item_id (item_children structure') =
      [Some "/0"; Some "/1"; Some "/2"].
Proof.
  intros Hidle Hcs HA HB HC IA IB IC.
  destruct (updateItemAngles_three A B C HA HB HC) as (cA & cB & cC & Hsolve).
  unfold show. rewrite Hidle.
  assert (Hkeep : forall s,
    item_children (set_angle (Some 0%Q) (rootDefaults s)) = item_children s).
  { intros [[?|] [?|] ? ? ?]; reflexivity. }
  rewrite Hkeep, Hcs. cbn [length Nat.ltb Nat.leb negb].
  rewrite Hsolve. cbn [mbind option_bind fst snd negb].
  eexists _, _. split; [reflexivity|].
  cbn [item_children set_children set_id updateItemIDs updateItemIDsFrom map].
  rewrite !item_angle_updateItemID, !item_id_updateItemID.
  unfold assignedID. cbn [item_id item_angle set_children set_angle].
  rewrite IA, IB, IC. split; reflexivity.
Qed.

(** The request of the spec's example, sent to a new menu. *)
Lemma C1_show_three_children_witness :
  exists structure' m',
    show exampleSettings exampleMonitor redrawExample "m1" exampleStructure
      false true examplePointer newMenu =
      Some (Shown "m1", structure', m') /\
    map (fun item => Qred <$> item_angle item) (item_children structure') =
      [Some 90%Q; Some 210%Q; Some 330%Q] /\
    map item_id (item_children structure') =
      [Some "/0"; Some "/1"; Some "/2"].
Proof.
  apply (C1_show_three_children exampleSettings exampleMonitor
           redrawExample "m1" _ (mkItem (Some "A") None None None [])
           (mkItem (Some "B") None None None [])
           (mkItem (Some "C") None None None []));
    reflexivity.
Defined.

(** ** The checks of a level *)

Lemma fixedAnglesFrom_values index items :
  map fangle (fixedAnglesFrom index (map item_angle items)) =
  fixedValues items.
Proof.
  revert index. unfold fixedValues.
  induction items as [|item items IH]; intros index; simpl; [done|].
  destruct (item_angle item) as [a|]; simpl; [|apply IH].
  destruct (JS.leb 0 a); simpl; by rewrite IH.
Qed.

Lemma anglesIncrease_true prev fixedAngles :
  anglesIncrease prev fixedAngles = true ->
  Forall (fun a => (0 <= a < 360)%Q) (map fangle fixedAngles) /\
  (forall p, prev = Some p ->
     Forall (fun a => (p < a)%Q) (map fangle fixedAngles)) /\
  (forall i j a b, (i < j)%nat ->
     map fangle fixedAngles !! i = Some a ->
     map fangle fixedAngles !! j = Some b -> (a < b)%Q).
Proof.
  revert prev. induction fixedAngles as [|f rest IH]; intros prev; simpl.
  - intros _. split; [constructor|]. split; [constructor|].
    intros i j a b _ Hi. by rewrite lookup_nil in Hi.
  - destruct (match prev with
              | Some p => JS.leb (fangle f) p
              | None => false
              end) eqn:Hprev; [done|].
    destruct (JS.ltb (fangle f) 0 || JS.leb 360 (fangle f)) eqn:Hrange;
      [done|].
    apply orb_false_iff in Hrange as [H0 H360].
    apply JS_ltb_ge in H0. apply JS_leb_gt in H360.
    intros Hrest. destruct (IH _ Hrest) as (Hr & Hp & Hs).
    specialize (Hp _ eq_refl).
    split; [by constructor|]. split.
    + intros p ->. apply JS_leb_gt in Hprev. constructor; [done|].
      eapply Forall_impl; [exact Hp|]. simpl. intros a Ha.
      by apply Qlt_trans with (fangle f).
    + intros [|i] [|j] a b Hij Ha Hb; simpl in *; try lia.
      * injection Ha as <-. rewrite Forall_forall in Hp. apply Hp.
        by eapply list_elem_of_lookup_2.
      * eapply (Hs i j); [lia | done | done].
Qed.



Lemma updateItemAngles_rejected items pa :
  items <> [] ->
  levelValid (map item_angle items) pa = false ->
  updateItemAngles items pa = Some (false, items).
Proof.
  intros Hne Hv. unfold updateItemAngles, updateItemAnglesWith.
  destruct items; [done|]. simpl length. cbn [Nat.eqb]. by rewrite Hv.
Qed.




(** ** A failure below the top level *)

(** The boolean that [_updateItemAngles] returns is the verdict of the
    checks on the level it is called on, whatever lies below. *)
Lemma updateItemAngles_verdict items pa :
  items <> [] ->
  fst <$> updateItemAngles items pa =
  Some (levelValid (map item_angle items) pa).
Proof.
  intros Hne.
  destruct (levelValid (map item_angle items) pa) eqn:Hv.
  - destruct (updateItemAngles_total items pa) as (ok & items' & Hu & _).
    rewrite Hu. simpl. f_equal.
    unfold updateItemAngles, updateItemAnglesWith in Hu.
    destruct items; [done|]. simpl length in Hu. cbn [Nat.eqb] in Hu.
    rewrite Hv in Hu. cbn [negb] in Hu.
    destruct (assignLevel _ _); [|done]. cbn [mbind option_bind] in Hu.
    destruct (forEachItem _ _ _); [|done]. by injection Hu as <- _.
  - by rewrite updateItemAngles_rejected.
Qed.

(** C4: the fixed angles 30 and 10 of the children of A are out of order
    and the call on that level returns false, with the parent-link angle
    (90 + 180) mod 360 = 270; yet the call on the top level returns true and
    [show] returns the menu id instead of the InvalidAngles error. *)
Theorem C4_descendant_failure_is_dropped :
  let inner := [mkItem None None (Some 30%Q) None [];
                mkItem None None (Some 10%Q) None []] in
  let structure :=
    mkItem None None None None [mkItem (Some "A") None None None inner] in
  childParentAngle (Some 90%Q) = Some 270%Q /\
  updateItemAngles inner (Some 270%Q) = Some (false, inner) /\
  updateItemAngles (item_children structure) None =
    Some (true, [mkItem (Some "A") None (Some 90%Q) None inner]) /\
  fst <$> show exampleSettings exampleMonitor redrawExample "m1"
            structure false true examplePointer newMenu =
    Some (Shown "m1", mkItem (Some "root") (Some "image-missing") (Some 0%Q)
            (Some "/")
            [mkItem (Some "A") None (Some 90%Q) (Some "/0")
               [mkItem None None (Some 30%Q) (Some "/0/0") [];
                mkItem None None (Some 10%Q) (Some "/0/1") []]]).
Proof. repeat split; vm_compute; reflexivity. Qed.

(** ** Failing show requests *)

(** [show] returns on every request. *)
Lemma show_total settings monitor redraw menuID' structure previewMode' grab
    ptr m :
  is_Some (show settings monitor redraw menuID' structure previewMode' grab
             ptr m).
Proof.
  unfold show.
  destruct (JS.truthy (menuID m)); [eauto|].
  destruct (negb _); [eauto|].
  match goal with
  | |- context [updateItemAngles ?items ?pa] =>
      destruct (updateItemAngles_total items pa) as (ok & items' & -> & _)
  end.
  cbn [mbind option_bind fst snd].
  destruct ok; cbn [negb]; [|eauto]. destruct grab; cbn [negb]; eauto.
Qed.


Lemma exampleMenu_active :
  menuID exampleMenu = Some "m1" /\
  menuSelectionChain exampleMenu = [[]] /\
  (mi_state <$> tree exampleMenu) = Some CENTER_HOVERED.
Proof. repeat split; vm_compute; reflexivity. Qed.


(** C5 (amended): a show request that fails with AlreadyActive or with
    PropertyMissing leaves the menu, and with it the tree of a previous
    request, as it was; the previous tree is destroyed after these two checks
    and before the angles are verified, so a request that fails with
    InvalidAngles (or UnknownError) leaves no live tree. *)
Theorem C5_failed_show_and_previous_tree settings monitor redraw menuID'
    structure previewMode' grab ptr m e structure' m' :
  show settings monitor redraw menuID' structure previewMode' grab ptr m =
    Some (Failed e, structure', m') ->
  match e with
  | eAlreadyActive | ePropertyMissing => m' = m /\ structure' = structure
  | eInvalidAngles | eUnknownError =>
      m' = set_previewMode previewMode' (destroyRoot m) /\
      forall r, root m' = Some r -> root_destroyed r = true
  end.
Proof.
  unfold show.
  destruct (JS.truthy (menuID m)).
  { intros H. by injection H as <- <- <-. }
  destruct (negb _).
  { intros H. by injection H as <- <- <-. }
  destruct (updateItemAngles _ _) as [[ok items']|]; [|done].
  cbn [mbind option_bind fst snd].
  assert (Hdestroyed : forall r,
    root (set_previewMode previewMode' (destroyRoot m)) = Some r ->
    root_destroyed r = true).
  { unfold destroyRoot. destruct (root m) as [r0|] eqn:Hr; simpl.
    - intros r [= <-]. done.
    - rewrite Hr. done. }
  destruct ok; cbn [negb].
  - destruct grab; cbn [negb]; [done|].
    intros H. by injection H as <- <- <-.
  - intros H. by injection H as <- <- <-.
Qed.

Lemma hiddenMenu_tree :
  menuID hiddenMenu = None /\
  (root_destroyed <$> root hiddenMenu) = Some false /\
  root (transitionsCompleted true hiddenMenu) = None.
Proof. repeat split; vm_compute; reflexivity. Qed.

(** A request with invalid angles while the previous tree fades out. *)
Lemma C5_failed_show_and_previous_tree_witness :
  show exampleSettings exampleMonitor redrawExample "m2" invalidStructure
    false true examplePointer hiddenMenu =
    Some (Failed eInvalidAngles,
          set_angle (Some 0%Q)
            (set_icon (Some "image-missing")
               (set_name (Some "root") invalidStructure)),
          set_previewMode false (destroyRoot hiddenMenu)) /\
  forall r,
    root (set_previewMode false (destroyRoot hiddenMenu)) = Some r ->
    root_destroyed r = true.
Proof.
  assert (Hshow :
    show exampleSettings exampleMonitor redrawExample "m2" invalidStructure
      false true examplePointer hiddenMenu =
    Some (Failed eInvalidAngles,
          set_angle (Some 0%Q)
            (set_icon (Some "image-missing")
               (set_name (Some "root") invalidStructure)),
          set_previewMode false (destroyRoot hiddenMenu)))
    by (vm_compute; reflexivity).
  split; [exact Hshow|].
  exact (proj2 (C5_failed_show_and_previous_tree _ _ _ _ _ _ _ _ _ _ _ _
                  Hshow)).
Defined.

(** C5 as stated fails: a request without children arrives while the
    previous tree fades out; it fails with PropertyMissing and the previous
    tree is still there, not destroyed. *)
Lemma C5_property_missing_keeps_tree :
  show exampleSettings exampleMonitor redrawExample "m2"
    (mkItem None None None None []) false true examplePointer hiddenMenu =
    Some (Failed ePropertyMissing, mkItem None None None None [],
          hiddenMenu) /\
  (root_destroyed <$> root hiddenMenu) = Some false.
Proof. split; vm_compute; reflexivity. Qed.

(** ** Selecting a leaf while the button is held *)

(** C9: a child-selected event for a child without children that arrives
    while the primary button is down is ignored: the handler returns with
    the menu as it was (the selection chain, the states of all items and the
    list of outward calls, so no [onSelect]). *)
Theorem C9_leaf_selected_while_button_held settings monitor redraw index ptr
    m t parent parentItem childItem :
  tree m = Some t ->
  menuSelectionChain m !! 0%nat = Some parent ->
  getItem t parent = Some parentItem ->
  nthZ (mi_children parentItem) index = Some childItem ->
  mi_children childItem = [] ->
  button1 ptr = true ->
  childSelected settings monitor redraw index ptr m = Some m.
Proof.
  intros Ht Hc Hp Hi Hleaf Hheld. unfold childSelected.
  rewrite Ht. cbn [mbind option_bind]. rewrite Hc. cbn [mbind option_bind].
  rewrite Hp. cbn [mbind option_bind]. rewrite Hi. cbn [mbind option_bind].
  by rewrite Hheld, Hleaf.
Qed.

(** The leaf A of the example menu, selected with the button down. *)
Lemma C9_leaf_selected_while_button_held_witness :
  childSelected exampleSettings exampleMonitor redrawExample 0
    (mkPointer 100 100 true) exampleMenu = Some exampleMenu.
Proof.
  eapply (C9_leaf_selected_while_button_held _ _ _ 0 _ exampleMenu _ []);
    vm_compute; reflexivity.
Defined.

(** With the button released the same event commits the leaf: [onSelect]
    is called with the menu ID and the ID of the leaf and the menu hides. *)
Lemma leaf_selected_button_released :
  exists m',
    childSelected exampleSettings exampleMonitor redrawExample 0
      (mkPointer 100 100 false) exampleMenu = Some m' /\
    OnSelect (Some "m1") (Some "/0") ∈ effects m' /\
    menuID m' = None /\ menuSelectionChain m' = [].
Proof.
  eexists. split; [vm_compute; reflexivity|].
  split; [|split; reflexivity].
  apply list_elem_of_In. simpl. tauto.
Qed.

(** ** Clamping to the monitor *)

Lemma Qfloor_between (v : Q) (r : Z) :
  (inject_Z r <= v)%Q -> (v < inject_Z (r + 1))%Q -> Qfloor v = r.
Proof.
  intros Hlo Hhi.
  apply Qfloor_resp_le in Hlo. rewrite Qfloor_Z in Hlo.
  pose proof (Qfloor_le v) as Hf.
  assert (Hlt : (inject_Z (Qfloor v) < inject_Z (r + 1))%Q)
    by (eapply Qle_lt_trans; eassumption).
  rewrite <- Zlt_Qlt in Hlt. lia.
Qed.

(** One axis: clamping the clamped and floored value gives it again,
    whatever the bounds are. *)
Lemma clampAxis_idempotent (x lo hi : Q) :
  let r := JS.floor (JS.min (JS.max x lo) hi) in
  JS.floor (JS.min (JS.max (inject_Z r) lo) hi) = r.
Proof.
  intros r. unfold JS.floor, JS.min, JS.max in *.
  set (c := Qmin (Qmax x lo) hi) in *.
  pose proof (Qfloor_le c) as Hrc. fold r in Hrc.
  pose proof (Qlt_floor c) as Hcr. fold r in Hcr.
  assert (Hchi : (c <= hi)%Q) by apply Q.le_min_r.
  assert (Hcmax : (c <= Qmax x lo)%Q) by apply Q.le_min_l.
  apply Qfloor_between.
  - apply Q.min_glb.
    + apply Q.le_max_l.
    + by apply Qle_trans with c.
  - eapply Qle_lt_trans; [|exact Hcr].
    apply Q.min_glb; [|apply Q.le_min_r].
    eapply Qle_trans; [apply Q.le_min_l|].
    apply Q.max_lub; [|apply Q.le_max_r].
    by apply Qle_trans with c.
Qed.

(** C6: clamping is idempotent: the result of clamping a point, clamped
    again with the same margin, is the same point. *)
Theorem C6_clamp_idempotent settings monitor (x y margin : Q) :
  let p := clampToToMonitor settings monitor x y margin in
  clampToToMonitor settings monitor (inject_Z (fst p)) (inject_Z (snd p))
    margin = p.
Proof.
  unfold clampToToMonitor. cbn [fst snd].
  f_equal; apply clampAxis_idempotent.
Qed.






(** ** References into the tree *)

Lemma getItem_app t p q :
  getItem t (p ++ q) = getItem t p ≫= fun item => getItem item q.
Proof.
  revert t. induction p as [|i p IH]; intros t; simpl; [done|].
  destruct (mi_children t !! i) as [c|]; simpl; [apply IH | done].
Qed.

Lemma getItem_setState_same s i p t item :
  getItem t p = Some item ->
  getItem (alterItem (setState s i) p t) p = Some (setState s i item).
Proof.
  revert t. induction p as [|j p IH]; intros t; simpl.
  - by intros [= ->].
  - rewrite list_lookup_alter_eq.
    destruct (mi_children t !! j) as [c|]; simpl; [apply IH | done].
Qed.

(** A [setState] on one item changes no state and no active child index
    elsewhere in the tree. *)
Lemma getItem_setState_other s i p t q item :
  q <> p -> getItem t q = Some item ->
  exists item',
    getItem (alterItem (setState s i) p t) q = Some item' /\
    mi_state item' = mi_state item /\
    mi_activeChildIndex item' = mi_activeChildIndex item /\
    length (mi_children item') = length (mi_children item).
Proof.
  revert t q. induction p as [|j p IH]; intros t q Hne Hq.
  - destruct q as [|k q]; [done|]. simpl in *. eauto.
  - destruct q as [|k q]; simpl in *.
    + injection Hq as <-. eexists. split; [done|]. simpl.
      by rewrite length_alter.
    + destruct (decide (k = j)) as [->|Hkj].
      * rewrite list_lookup_alter_eq.
        destruct (mi_children t !! j) as [c|]; simpl in *; [|done].
        apply IH; [congruence | done].
      * rewrite list_lookup_alter_ne by done.
        destruct (mi_children t !! k) as [c|]; simpl in *; eauto.
Qed.

Lemma prefix_snoc_inv (q p : Ref) (i k : nat) :
  (q ++ [i]) `prefix_of` (p ++ [k]) ->
  (q ++ [i]) `prefix_of` p \/ (q = p /\ i = k).
Proof.
  intros [r Hr]. destruct r as [|x r _] using rev_ind.
  - rewrite app_nil_r in Hr. apply app_inj_tail in Hr as [-> ->]. by right.
  - left. exists r. rewrite app_assoc in Hr.
    by apply app_inj_tail in Hr as [-> _].
Qed.

Lemma onActivePath_nil t : onActivePath t [].
Proof.
  intros q i Hpre. apply prefix_nil_inv in Hpre. by destruct q.
Qed.

Lemma onActivePath_prefix t p q :
  onActivePath t p -> q `prefix_of` p -> onActivePath t q.
Proof.
  intros Hp Hq r i Hr. apply Hp. by transitivity q.
Qed.

Lemma onActivePath_snoc t p k item :
  onActivePath t p ->
  getItem t p = Some item -> isParent (mi_state item) ->
  mi_activeChildIndex item = Some (Z.of_nat k) ->
  onActivePath t (p ++ [k]).
Proof.
  intros Hp Hitem Hs Hk q i Hpre.
  apply prefix_snoc_inv in Hpre as [Hpre|[-> ->]]; [by apply Hp | eauto].
Qed.

(** A proper prefix differs from the reference it is cut from. *)
Lemma prefix_snoc_ne (q p : Ref) (i : nat) : (q ++ [i]) `prefix_of` p -> q <> p.
Proof.
  intros Hpre ->. apply prefix_length in Hpre.
  rewrite length_app in Hpre. simpl in Hpre. lia.
Qed.

(** A [setState] on an item that is not above [p] keeps the way to [p]. *)
Lemma onActivePath_setState_other s i r t p :
  onActivePath t p ->
  (forall k, ~ (r ++ [k]) `prefix_of` p) ->
  onActivePath (alterItem (setState s i) r t) p.
Proof.
  intros Hp Hr q k Hpre.
  destruct (Hp q k Hpre) as (item & Hitem & Hs & Hk).
  assert (Hne : q <> r) by (intros ->; by apply (Hr k)).
  destruct (getItem_setState_other s i r t q item Hne Hitem)
    as (item' & Hitem' & Hs' & Hk' & _).
  exists item'. by rewrite Hs', Hk'.
Qed.

(** A [setState] to a parent state that passes no index keeps the way. *)
Lemma onActivePath_setState_parent s r t p :
  onActivePath t p -> isParent s ->
  onActivePath (alterItem (setState s None) r t) p.
Proof.
  intros Hp Hs q k Hpre.
  destruct (Hp q k Hpre) as (item & Hitem & Hst & Hk).
  destruct (decide (q = r)) as [->|Hne].
  - exists (setState s None item).
    split; [by apply getItem_setState_same | by split].
  - destruct (getItem_setState_other s None r t q item Hne Hitem)
      as (item' & Hitem' & Hs' & Hk' & _).
    exists item'. by rewrite Hs', Hk'.
Qed.

Lemma no_prefix_of_self (p : Ref) (k : nat) : ~ (p ++ [k]) `prefix_of` p.
Proof.
  intros Hpre. apply prefix_length in Hpre.
  rewrite length_app in Hpre. simpl in Hpre. lia.
Qed.

Lemma no_prefix_of_parent (p : Ref) (i k : nat) :
  ~ ((p ++ [i]) ++ [k]) `prefix_of` p.
Proof.
  intros Hpre. apply prefix_length in Hpre.
  rewrite !length_app in Hpre. simpl in Hpre. lia.
Qed.

(** ** The selection chain *)

Lemma chainOK_last chain : chainOK chain -> last chain = Some [].
Proof.
  induction 1 as [|p i chain _ IH]; [done|].
  by rewrite last_cons, IH.
Qed.

Lemma chainOK_shift c0 c1 chain :
  chainOK (c0 :: c1 :: chain) ->
  (exists i, c0 = c1 ++ [i]) /\ chainOK (c1 :: chain).
Proof. inversion 1; subst. eauto. Qed.

(** What the bookkeeping of the handlers leaves alone. *)
Lemma clampAndWarp_fields settings monitor ptr m :
  menuID (clampAndWarp settings monitor ptr m) = menuID m /\
  root (clampAndWarp settings monitor ptr m) = root m /\
  menuSelectionChain (clampAndWarp settings monitor ptr m) =
    menuSelectionChain m.
Proof. unfold clampAndWarp. by destruct (pointerMoved _ _). Qed.

Lemma nthZ_lt {A} (l : list A) (index : Z) :
  0 <= index < Z.of_nat (length l) -> is_Some (nthZ l index).
Proof.
  intros H. unfold nthZ. destruct (Z.ltb_spec index 0); [lia|].
  apply lookup_lt_is_Some_2. lia.
Qed.

Lemma nthZ_Some {A} (l : list A) (index : Z) x :
  nthZ l index = Some x ->
  0 <= index /\ l !! Z.to_nat index = Some x /\
  Z.of_nat (Z.to_nat index) = index.
Proof.
  unfold nthZ. destruct (Z.ltb_spec index 0) as [|Hge]; [done|].
  intros Hx. repeat split; [done | done | lia].
Qed.

Lemma centerItem_Active m t center :
  root_item <$> root m = Some t ->
  menuSelectionChain m !! 0%nat = Some center ->
  centerItem m = getItem t center.
Proof. intros Ht Hc. unfold centerItem. by rewrite Ht, Hc. Qed.

Lemma hide_Closed m : menuID m <> None -> Closed (hide m).
Proof. unfold hide. by destruct (menuID m). Qed.

Section SelectionChain.

Variable settings : Settings.
Variable monitor : Monitor.
Variable redraw : MenuItem -> MenuItem.

(** What is taken of [MenuItem.redraw] (daemon/MenuItem.js is not among the
    sources): it propagates states down the tree and leaves the state and
    the active child index of the items on the way from the root to the
    center item as the handlers have set them. *)
Hypothesis redraw_activePath : forall t p item,
  onActivePath t p -> getItem t p = Some item ->
  exists item',
    getItem (redraw t) p = Some item' /\
    mi_state item' = mi_state item /\
    mi_activeChildIndex item' = mi_activeChildIndex item.

Lemma redraw_center t center item :
  onActivePath t center -> getItem t center = Some item ->
  isCenter (mi_state item) ->
  onActivePath (redraw t) center /\
  exists item', getItem (redraw t) center = Some item' /\
    isCenter (mi_state item').
Proof using redraw_activePath.
  intros Hpath Hitem Hst. split.
  - intros q i Hpre. destruct (Hpath q i Hpre) as (it & Hit & Hs & Hk).
    destruct (redraw_activePath t q it) as (it' & Hit' & Hs' & Hk');
      [|done|].
    { eapply onActivePath_prefix; [exact Hpath|].
      etransitivity; [|exact Hpre]. by apply prefix_app_r. }
    exists it'. by rewrite Hs', Hk'.
  - destruct (redraw_activePath t center item Hpath Hitem)
      as (item' & Hit' & Hs' & _).
    exists item'. by rewrite Hs'.
Qed.

Lemma childSelected_step index ptr m :
  Active m -> validEvent m (ChildSelected index ptr) ->
  exists m',
    childSelected settings monitor redraw index ptr m = Some m' /\
    (Active m' \/ Closed m').
Proof using redraw_activePath.
  intros HA (item0 & Hcenter & Hrange).
  pose proof HA as
    (Hid & t & center & item & Ht & Hchain & Hc & Hpath & Hitem & Hst).
  rewrite (centerItem_Active m t center Ht Hc), Hitem in Hcenter.
  injection Hcenter as <-.
  destruct (nthZ_lt (mi_children item) index Hrange) as [childItem Hchild].
  destruct (nthZ_Some _ _ _ Hchild) as (Hpos & Hlook & Hnat).
  unfold childSelected, tree. rewrite Ht. cbn [mbind option_bind].
  rewrite Hc. cbn [mbind option_bind]. rewrite Hitem.
  cbn [mbind option_bind]. rewrite Hchild. cbn [mbind option_bind].
  destruct (button1 ptr && (length (mi_children childItem) =? 0)%nat);
    [eauto|].
  set (child := center ++ [Z.to_nat index]).
  set (t1 := alterItem (setState PARENT (Some index)) center t).
  set (t2 := alterItem (setState CENTER_HOVERED None) child t1).
  assert (Hpath1 : onActivePath t1 center).
  { apply onActivePath_setState_other; [done | apply no_prefix_of_self]. }
  assert (Hitem1 : getItem t1 center = Some (setState PARENT (Some index) item))
    by by apply getItem_setState_same.
  assert (Hchild1 : getItem t1 child =
                    Some childItem).
  { unfold child. rewrite getItem_app, Hitem1. simpl. by rewrite Hlook. }
  assert (Hpath1' : onActivePath t1 child).
  { eapply onActivePath_snoc; [done | done | by left |].
    simpl. by rewrite Hnat. }
  assert (Hpath2 : onActivePath t2 child).
  { apply onActivePath_setState_other; [done | apply no_prefix_of_self]. }
  assert (Hchild2 : getItem t2 child =
                    Some (setState CENTER_HOVERED None childItem))
    by by apply getItem_setState_same.
  destruct (redraw_center t2 child _ Hpath2 Hchild2) as (Hpath3 & c3 & Hc3 & Hs3);
    [by right|].
  destruct m as [mid pm dc chain [[t0 d0]|] eff]; [|done].
  simpl in Ht, Hc, Hid, Hchain. injection Ht as ->.
  unfold clampAndWarp.
  destruct (pointerMoved _ _);
    destruct (0 <? length (mi_children childItem))%nat; simpl;
    rewrite Hc3; simpl;
    (destruct (length (mi_children c3) =? 0)%nat;
     [ eexists; split; [reflexivity|]; right; apply hide_Closed; done
     | eexists; split; [reflexivity|]; left; split; [done|];
       exists (redraw t2), child, c3; simpl;
       repeat split; try done;
       destruct chain as [|c0 chain']; [done|];
       injection Hc as ->; by constructor ]).
Qed.

Lemma parent_on_chain t c0 c1 chain :
  chainOK (c0 :: c1 :: chain) -> onActivePath t c0 ->
  c1 <> c0 /\ onActivePath t c1 /\ chainOK (c1 :: chain) /\
  exists item, getItem t c1 = Some item /\ isParent (mi_state item).
Proof.
  intros Hchain Hpath.
  apply chainOK_shift in Hchain as [[i ->] Hchain].
  destruct (Hpath c1 i) as (item & Hitem & Hs & _); [done|].
  split; [by eapply prefix_snoc_ne|].
  split; [|by eauto].
  eapply onActivePath_prefix; [done | by apply prefix_app_r].
Qed.

Lemma parentSelected_step ptr m :
  Active m -> validEvent m (ParentSelected ptr) ->
  exists m',
    parentSelected settings monitor redraw ptr m = Some m' /\
    (Active m' \/ Closed m').
Proof using redraw_activePath.
  intros (Hid & t & center & item & Ht & Hchain & Hc & Hpath & Hitem & Hst)
    Hlen.
  destruct m as [mid pm dc chain [[t0 d0]|] eff]; [|done].
  simpl in Ht, Hc, Hid, Hchain, Hlen. injection Ht as ->.
  destruct chain as [|c0 [|c1 chain']]; simpl in Hlen; try lia.
  injection Hc as ->.
  destruct (parent_on_chain t center c1 chain' Hchain Hpath)
    as (Hne & Hpath1 & Hchain1 & pItem & HpItem & _).
  set (t1 := alterItem (setState CENTER_HOVERED (Some (-1))) c1 t).
  assert (Hpath2 : onActivePath t1 c1).
  { apply onActivePath_setState_other; [done | apply no_prefix_of_self]. }
  assert (Hitem2 : getItem t1 c1 =
                   Some (setState CENTER_HOVERED (Some (-1)) pItem))
    by by apply getItem_setState_same.
  destruct (redraw_center t1 c1 _ Hpath2 Hitem2) as (Hpath3 & c3 & Hc3 & Hs3);
    [by right|].
  pose proof (chainOK_last _ Hchain1) as Hlast.
  unfold parentSelected, tree, clampAndWarp. simpl. rewrite HpItem. simpl.
  destruct (pointerMoved _ _); simpl;
    destruct (1 <? length (c1 :: chain'))%nat eqn:E; simpl in *;
    rewrite ?E; simpl; rewrite Hlast; simpl;
    (eexists; split; [reflexivity|]; left; split; [done|];
     exists (redraw t1), c1, c3; simpl; by repeat split).
Qed.

Lemma parentHovered_step m :
  Active m -> validEvent m ParentHovered ->
  exists m',
    parentHovered redraw m = Some m' /\ (Active m' \/ Closed m').
Proof using redraw_activePath.
  intros (Hid & t & center & item & Ht & Hchain & Hc & Hpath & Hitem & Hst)
    Hlen.
  destruct m as [mid pm dc chain [[t0 d0]|] eff]; [|done].
  simpl in Ht, Hc, Hid, Hchain, Hlen. injection Ht as ->.
  destruct chain as [|c0 [|c1 chain']]; simpl in Hlen; try lia.
  injection Hc as ->.
  destruct (parent_on_chain t center c1 chain' Hchain Hpath)
    as (Hne & Hpath1 & Hchain1 & pItem & HpItem & _).
  set (t1 := alterItem (setState CENTER_HOVERED (Some (-1))) center t).
  set (t2 := alterItem (setState PARENT_HOVERED None) c1 t1).
  assert (Hp1 : onActivePath t1 center).
  { apply onActivePath_setState_other; [done | apply no_prefix_of_self]. }
  assert (Hi1 : getItem t1 center =
                Some (setState CENTER_HOVERED (Some (-1)) item))
    by by apply getItem_setState_same.
  assert (Hp2 : onActivePath t2 center)
    by (apply onActivePath_setState_parent; [done | by right]).
  destruct (getItem_setState_other PARENT_HOVERED None c1 t1 center _
              (not_eq_sym Hne) Hi1) as (item2 & Hi2 & Hs2 & _).
  destruct (redraw_center t2 center _ Hp2 Hi2) as (Hp3 & c3 & Hc3 & Hs3).
  { rewrite Hs2. by right. }
  unfold parentHovered, tree. simpl. rewrite Hitem, HpItem. simpl.
  eexists. split; [reflexivity|]. left. split; [done|].
  exists (redraw t2), center, c3. simpl. by repeat split.
Qed.

Lemma childHovered_step index ptr m :
  Active m -> validEvent m (ChildHovered index ptr) ->
  exists m',
    childHovered redraw index ptr m = Some m' /\ (Active m' \/ Closed m').
Proof using redraw_activePath.
  intros HA (item0 & Hcenter & Hrange).
  pose proof HA as
    (Hid & t & center & item & Ht & Hchain & Hc & Hpath & Hitem & Hst).
  rewrite (centerItem_Active m t center Ht Hc), Hitem in Hcenter.
  injection Hcenter as <-.
  destruct m as [mid pm dc chain [[t0 d0]|] eff]; [|done].
  simpl in Ht, Hc, Hid, Hchain. injection Ht as ->.
  (* The state of the center item. *)
  set (t1 := if index =? -1
             then alterItem (setState CENTER_HOVERED (Some (-1))) center t
             else alterItem (setState CENTER (Some index)) center t).
  assert (H1 : onActivePath t1 center /\ exists item1,
    getItem t1 center = Some item1 /\ isCenter (mi_state item1) /\
    length (mi_children item1) = length (mi_children item)).
  { unfold t1. destruct (index =? -1); (split;
      [apply onActivePath_setState_other; [done | apply no_prefix_of_self]|]);
      (eexists; split; [by apply getItem_setState_same|]);
      simpl; split; [by right | done | by left | done]. }
  destruct H1 as (Hp1 & item1 & Hi1 & Hs1 & Hl1).
  (* The state of its parent. *)
  set (t2 := match chain !! 1%nat with
             | Some parent => alterItem (setState PARENT None) parent t1
             | None => t1
             end).
  assert (H2 : onActivePath t2 center /\ exists item2,
    getItem t2 center = Some item2 /\ isCenter (mi_state item2) /\
    length (mi_children item2) = length (mi_children item)).
  { unfold t2. destruct chain as [|c0 [|c1 chain']]; simpl; [done| eauto |].
    injection Hc as ->.
    destruct (parent_on_chain t center c1 chain' Hchain Hpath)
      as (Hne & _).
    split; [apply onActivePath_setState_parent; [done | by left]|].
    destruct (getItem_setState_other PARENT None c1 t1 center _
                (not_eq_sym Hne) Hi1) as (item2 & Hi2 & Hs2 & _ & Hl2).
    exists item2. rewrite Hs2, Hl2. eauto. }
  destruct H2 as (Hp2 & item2 & Hi2 & Hs2 & Hl2).
  unfold childHovered, tree. simpl. rewrite Hc. simpl. rewrite Hitem. simpl.
  fold t1. fold t2.
  destruct (button1 ptr && (0 <=? index)) eqn:Hdrag.
  - (* The hovered child is dragged. *)
    apply andb_true_iff in Hdrag as [_ Hpos]. apply Z.leb_le in Hpos.
    rewrite Hi2. simpl.
    destruct (nthZ_lt (mi_children item2) index) as [childItem Hchild];
      [lia|].
    rewrite Hchild. simpl.
    set (child := center ++ [Z.to_nat index]).
    set (t3 := alterItem (setState CHILD_DRAGGED None) child t2).
    assert (Hp3 : onActivePath t3 center).
    { apply onActivePath_setState_other; [done|].
      apply no_prefix_of_parent. }
    destruct (getItem_setState_other CHILD_DRAGGED None child t2 center _
                (prefix_snoc_ne center child (Z.to_nat index)
                   (reflexivity _)) Hi2)
      as (item3 & Hi3 & Hs3 & _).
    destruct (redraw_center t3 center _ Hp3 Hi3) as (Hp4 & c4 & Hc4 & Hs4).
    { by rewrite Hs3. }
    eexists. split; [reflexivity|]. left. split; [done|].
    exists (redraw t3), center, c4. simpl. by repeat split.
  - destruct (redraw_center t2 center _ Hp2 Hi2) as (Hp4 & c4 & Hc4 & Hs4);
      [done|].
    eexists. split; [reflexivity|]. left. split; [done|].
    exists (redraw t2), center, c4. simpl. by repeat split.
Qed.

Lemma cancelSelection_step m :
  Active m \/ Closed m ->
  exists m', cancelSelection m = Some m' /\ (Active m' \/ Closed m').
Proof.
  intros HAC. eexists. split; [reflexivity|]. right.
  destruct m as [mid pm dc chain r eff]. unfold hide. simpl.
  destruct mid as [s|]; [done|].
  destruct HAC as [[Hid _]|[_ Hchain]]; [done|]. simpl in Hchain. by subst.
Qed.

Lemma Closed_no_center m : Closed m -> centerItem m = None.
Proof.
  intros [_ Hchain]. unfold centerItem. rewrite Hchain.
  by destruct (root_item <$> root m).
Qed.

(** A valid event is handled, and leaves the menu open with its chain in
    order, or closed. *)
Lemma handle_step e m :
  Active m \/ Closed m -> validEvent m e ->
  exists m',
    handle settings monitor redraw e m = Some m' /\ (Active m' \/ Closed m').
Proof using redraw_activePath.
  intros [HA|HC] Hvalid.
  - destruct e; simpl.
    + by apply childHovered_step.
    + by apply childSelected_step.
    + by apply parentHovered_step.
    + by apply parentSelected_step.
    + apply cancelSelection_step. by left.
  - destruct e; simpl in *.
    + destruct Hvalid as (item & Hitem & _).
      by rewrite Closed_no_center in Hitem.
    + destruct Hvalid as (item & Hitem & _).
      by rewrite Closed_no_center in Hitem.
    + destruct HC as [_ HC]. rewrite HC in Hvalid. simpl in Hvalid. lia.
    + destruct HC as [_ HC]. rewrite HC in Hvalid. simpl in Hvalid. lia.
    + apply cancelSelection_step. by right.
Qed.

Lemma run_steps es m :
  Active m \/ Closed m -> validRun settings monitor redraw es m ->
  exists m',
    run settings monitor redraw es m = Some m' /\ (Active m' \/ Closed m').
Proof using redraw_activePath.
  revert m. induction es as [|e es IH]; intros m Hm Hvalid; simpl.
  - eauto.
  - destruct Hvalid as [He Hrest].
    destruct (handle_step e m Hm He) as (m1 & Hh & Hm1).
    rewrite Hh. simpl. apply IH; [done | by apply Hrest].
Qed.

Lemma Active_invariant m : Active m -> selectionChainInvariant m.
Proof.
  intros (Hid & t & center & item & Ht & Hchain & Hc & Hpath & Hitem & Hst).
  split; [|by apply chainOK_last].
  exists item. by rewrite (centerItem_Active m t center Ht Hc).
Qed.

(** A successful [show] on a menu with an empty chain opens the menu. *)
Lemma show_Active menuID' structure previewMode' grab ptr m structure' m' :
  menuSelectionChain m = [] ->
  show settings monitor redraw menuID' structure previewMode' grab ptr m =
    Some (Shown menuID', structure', m') ->
  Active m'.
Proof using redraw_activePath.
  intros Hempty. unfold show.
  destruct (JS.truthy (menuID m)); [done|].
  destruct (negb _); [done|].
  destruct (updateItemAngles _ _) as [[ok items']|]; [|done].
  cbn [mbind option_bind fst snd].
  destruct ok; cbn [negb]; [|done]. destruct grab; cbn [negb]; [|done].
  intros [= <- <-].
  match goal with
  | |- context [redraw ?t0] => set (t := t0)
  end.
  destruct (redraw_center t [] t (onActivePath_nil t) eq_refl)
    as (Hp & c & Hc & Hs); [by right|].
  assert (Hfields : forall m0 : Menu,
    menuID (if previewMode' then m0
            else clampAndWarp settings monitor ptr m0) = menuID m0 /\
    root (if previewMode' then m0
          else clampAndWarp settings monitor ptr m0) = root m0 /\
    menuSelectionChain (if previewMode' then m0
                        else clampAndWarp settings monitor ptr m0) =
      menuSelectionChain m0).
  { intros m0. destruct previewMode'; [done|]. apply clampAndWarp_fields. }
  match goal with
  | |- Active (if previewMode' then ?m0 else _) =>
      destruct (Hfields m0) as (Hid & Hroot & Hchain)
  end.
  split; [rewrite Hid; simpl; done|].
  exists (redraw t), [], c. rewrite Hroot, Hchain. simpl.
  unfold destroyRoot. destruct (root m); simpl; rewrite Hempty; simpl;
    repeat split; try done; apply chainOK_root || apply onActivePath_nil.
Qed.

(** C2 (amended): a sequence of valid events of the selection wedges
    (child-selected and parent-selected, and child-hovered, parent-hovered
    and cancel-selection as well) on a menu that [show] has opened is handled
    to the end, and afterwards either the menu is still open and the
    selection chain invariant holds (the element at index 0 is in state
    CENTER or CENTER_HOVERED and the last element is the root), or the menu
    has been closed by the commit of a leaf or by a cancel, and the chain is
    empty. *)
Theorem C2_selection_chain_invariant menuID' structure previewMode' grab ptr
    m0 structure' m es :
  menuSelectionChain m0 = [] ->
  show settings monitor redraw menuID' structure previewMode' grab ptr m0 =
    Some (Shown menuID', structure', m) ->
  validRun settings monitor redraw es m ->
  exists m',
    run settings monitor redraw es m = Some m' /\
    ((menuID m' <> None /\ selectionChainInvariant m') \/
     (menuID m' = None /\ menuSelectionChain m' = [])).
Proof using redraw_activePath.
  intros Hclosed Hshow Hvalid.
  pose proof (show_Active _ _ _ _ _ _ _ _ Hclosed Hshow) as HA.
  destruct (run_steps es m (or_introl HA) Hvalid) as (m' & Hrun & [HA'|HC]).
  - exists m'. split; [done|]. left.
    split; [apply HA' | by apply Active_invariant].
  - exists m'. split; [done|]. by right.
Qed.

End SelectionChain.

(** ** The example [redraw] and the examples of the selection chain *)

Lemma redrawAs_children s t i :
  mi_children (redrawAs s t) !! i =
  (fun c => redrawAs (childState s (mi_activeChildIndex t) i (mi_state c)) c)
    <$> mi_children t !! i.
Proof.
  destruct t as [d c ic a st act cs]. simpl.
  change i with (0 + i)%nat at 2. generalize 0%nat. revert i.
  induction cs as [|x cs IH]; intros i k; [done|].
  destruct i as [|i]; simpl.
  - by rewrite Nat.add_0_r.
  - rewrite IH. by replace (S k + i)%nat with (k + S i)%nat by lia.
Qed.

Lemma redrawAs_fields s t :
  mi_state (redrawAs s t) = s /\
  mi_activeChildIndex (redrawAs s t) = mi_activeChildIndex t.
Proof. by destruct t. Qed.

(** The example [redraw] leaves the items on the way to the center alone. *)
Lemma redrawExample_activePath t p item :
  onActivePath t p -> getItem t p = Some item ->
  exists item',
    getItem (redrawExample t) p = Some item' /\
    mi_state item' = mi_state item /\
    mi_activeChildIndex item' = mi_activeChildIndex item.
Proof.
  unfold redrawExample. revert t.
  induction p as [|i p IH]; intros t Hpath Hitem.
  - injection Hitem as <-. eexists. split; [done|]. apply redrawAs_fields.
  - destruct (Hpath [] i) as (root & Hroot & Hst & Hact).
    { by apply prefix_cons, prefix_nil. }
    injection Hroot as <-.
    simpl in Hitem. simpl. rewrite redrawAs_children.
    destruct (mi_children t !! i) as [c|] eqn:Hc; [|done]. simpl in *.
    assert (Hown : childState (mi_state t) (mi_activeChildIndex t) i
                     (mi_state c) = mi_state c).
    { rewrite Hact. unfold childState.
      destruct Hst as [-> | ->]; by rewrite decide_True. }
    rewrite Hown. apply IH; [|done].
    intros q k Hpre.
    destruct (Hpath (i :: q) k) as (it & Hit & Hs & Hk).
    { by apply prefix_cons. }
    simpl in Hit. rewrite Hc in Hit. eauto.
Qed.

Lemma nestedMenu_Active : Active nestedMenu.
Proof.
  eapply (show_Active exampleSettings exampleMonitor redrawExample
            redrawExample_activePath "m1" nestedStructure false true
            examplePointer newMenu); [done|].
  vm_compute. reflexivity.
Qed.

(** The submenu A of the nested example is entered and left again. *)
Lemma C2_selection_chain_invariant_witness :
  exists m',
    run exampleSettings exampleMonitor redrawExample
      [ChildSelected 0 examplePointer; ParentSelected examplePointer]
      nestedMenu = Some m' /\
    ((menuID m' <> None /\ selectionChainInvariant m') \/
     (menuID m' = None /\ menuSelectionChain m' = [])).
Proof.
  eapply (C2_selection_chain_invariant exampleSettings exampleMonitor
            redrawExample redrawExample_activePath "m1" nestedStructure
            false true examplePointer newMenu).
  - reflexivity.
  - vm_compute. reflexivity.
  - split.
    + eexists. split; [vm_compute; reflexivity|]. simpl. lia.
    + intros m1 H1. vm_compute in H1. injection H1 as <-.
      split; [simpl; lia|]. intros m2 _. exact I.
Defined.

(** C2 as stated fails: the leaf A of the example menu is selected with the
    button released; the event is valid, the selection is committed and
    [_hide] empties the chain, so that no element at index 0 is left. *)
Lemma C2_leaf_commit_empties_chain :
  (exists structure',
     show exampleSettings exampleMonitor redrawExample "m1" exampleStructure
       false true examplePointer newMenu =
     Some (Shown "m1", structure', exampleMenu)) /\
  validRun exampleSettings exampleMonitor redrawExample
    [ChildSelected 0 examplePointer] exampleMenu /\
  exists m',
    run exampleSettings exampleMonitor redrawExample
      [ChildSelected 0 examplePointer] exampleMenu = Some m' /\
    menuSelectionChain m' = [] /\
    ~ selectionChainInvariant m'.
Proof.
  split; [eexists; vm_compute; reflexivity|]. split.
  - split; [|done].
    eexists. split; [vm_compute; reflexivity|]. simpl. lia.
  - eexists. split; [vm_compute; reflexivity|]. split; [done|].
    intros [_ Hlast]. discriminate Hlast.
Qed.

(** ** The angles that a valid level gets *)

Lemma trunc_floor (x : Q) : (0 <= x)%Q -> JS.trunc x = Qfloor x.
Proof.
  destruct x as [n d]. unfold JS.trunc, Qfloor, Qle. simpl.
  intros H. apply Z.quot_div_nonneg; lia.
Qed.

(** The remainder of a number that is not negative lies in [0, m). *)
Lemma rem_range (x m : Q) :
  (0 <= x)%Q -> (0 < m)%Q -> (0 <= JS.rem x m < m)%Q.
Proof.
  intros Hx Hm. unfold JS.rem.
  assert (Hq : (0 <= x / m)%Q).
  { apply Qle_shift_div_l; [done|]. lra. }
  rewrite trunc_floor by done.
  pose proof (Qfloor_le (x / m)) as Hle.
  pose proof (Qlt_floor (x / m)) as Hlt.
  rewrite inject_Z_plus in Hlt. change (inject_Z 1) with 1%Q in Hlt.
  set (f := inject_Z (Qfloor (x / m))) in *.
  assert (Hxm : (x == m * (x / m))%Q) by (field; lra).
  split.
  - assert (m * f <= m * (x / m))%Q by (apply Qmult_le_l; done). lra.
  - assert (m * (x / m) < m * (f + 1))%Q by (apply Qmult_lt_l; done). lra.
Qed.

(** Cyclic distances between indices. *)
Lemma mod_wrap (x n : Z) : - n <= x < 0 -> x mod n = x + n.
Proof.
  intros H. replace x with (x + n + (-1) * n) at 1 by lia.
  rewrite Z.mod_add by lia. apply Z.mod_small. lia.
Qed.

Lemma cyc_rem (a b n : Z) :
  0 <= b < n -> (a - Z.rem (b + 1) n) mod n = (a - b - 1) mod n.
Proof.
  intros H. rewrite rem_succ by done.
  destruct (Z.eqb_spec (b + 1) n) as [E|E].
  - replace (a - b - 1) with (a - 0 + (-1) * n) by lia.
    by rewrite Z.mod_add by lia.
  - f_equal. lia.
Qed.

Lemma mod_pred (x n : Z) :
  0 < n -> x mod n <> 0 -> (x - 1) mod n = x mod n - 1.
Proof.
  intros Hn Hx. pose proof (Z.mod_pos_bound x n Hn) as Hb.
  rewrite (Z.div_mod x n) at 1 by lia.
  replace (n * (x / n) + x mod n - 1) with (x mod n - 1 + (x / n) * n)
    by lia.
  rewrite Z.mod_add by lia. apply Z.mod_small. lia.
Qed.

Lemma mod_zero_eq (a b n : Z) :
  0 <= a < n -> 0 <= b < n -> (a - b) mod n = 0 -> a = b.
Proof.
  intros Ha Hb H. destruct (Z_lt_le_dec a b).
  - rewrite mod_wrap in H by lia. lia.
  - rewrite Z.mod_small in H by lia. lia.
Qed.

Lemma goodSlot_insert (slots : Slots) (i j : nat) (v : Q) :
  (0 <= v < 360)%Q ->
  goodSlot (slots !! j) -> goodSlot (<[i := Some v]> slots !! j).
Proof.
  intros Hv (a & Ha & Hr). destruct (decide (i = j)) as [->|Hne].
  - exists v. split; [|done]. apply list_lookup_insert_eq.
    by eapply lookup_lt_Some.
  - exists a. by rewrite list_lookup_insert_ne.
Qed.

(** The [while] loop of a wedge writes an angle between 0 and 360 to every
    slot from [index] up to the end of the wedge, cyclically, and keeps the
    slots that hold such an angle in that state. *)
Lemma assignWedge_good fuel n bA gap e pa index count pgr (slots slots' : Slots) :
  Z.of_nat (length slots) = n ->
  0 <= index < n -> 0 <= e < n ->
  (0 <= bA)%Q -> (0 <= gap)%Q -> 0 <= count ->
  assignWedge fuel n bA gap e pa index count pgr slots = Some slots' ->
  (forall j, goodSlot (slots !! j) -> goodSlot (slots' !! j)) /\
  (forall j, 0 <= j < n -> (j - index) mod n < (e - index) mod n ->
     goodSlot (slots' !! Z.to_nat j)).
Proof.
  intros Hn Hi He HbA Hgap. revert index count pgr slots Hn Hi.
  assert (Hstop : forall index (slots : Slots),
    (forall j, goodSlot (slots !! j) -> goodSlot (slots !! j)) /\
    (forall j, 0 <= j < n -> (j - index) mod n < (index - index) mod n ->
       goodSlot (slots !! Z.to_nat j))).
  { intros index slots. split; [done|]. intros j Hj.
    rewrite Z.sub_diag, Z.mod_0_l by lia.
    pose proof (Z.mod_pos_bound (j - index) n). lia. }
  induction fuel as [|fuel IH]; intros index count pgr slots Hn Hi Hcount;
    simpl.
  - destruct (Z.eqb_spec index e) as [->|E]; [|done].
    intros [= <-]. apply Hstop.
  - destruct (Z.eqb_spec index e) as [->|E].
    { intros [= <-]. apply Hstop. }
    destruct (slots !! Z.to_nat index) as [o|] eqn:Hl; [|done].
    match goal with
    | |- assignWedge _ _ _ _ _ _ _ ?c _ (<[_ := Some ?v]> _) = _ -> _ =>
        set (count' := c); set (angle := v)
    end.
    assert (Hangle : (0 <= angle < 360)%Q).
    { apply rem_range; [|done].
      assert (H0 : (0 <= gap * inject_Z count)%Q).
      { apply Qmult_le_0_compat; [done|].
        rewrite Zle_Qle in Hcount. exact Hcount. }
      assert (H1 : (0 <= gap * inject_Z (count + 1))%Q).
      { apply Qmult_le_0_compat; [done|].
        assert (Hc1 : 0 <= count + 1) by lia.
        rewrite Zle_Qle in Hc1. exact Hc1. }
      destruct (pgr && _); lra. }
    intros Hrec.
    apply IH in Hrec as [Hkeep Hnew].
    + split.
      * intros j Hj. by apply Hkeep, goodSlot_insert.
      * intros j Hj Hlt.
        destruct (Z.eq_dec j index) as [->|Hne].
        -- apply Hkeep. exists angle. split; [|done].
           apply list_lookup_insert_eq. by eapply lookup_lt_Some.
        -- apply Hnew; [done|]. rewrite !cyc_rem by done.
           assert (Hj0 : (j - index) mod n <> 0).
           { intros H0. by apply mod_zero_eq in H0. }
           assert (He0 : (e - index) mod n <> 0).
           { intros H0. apply mod_zero_eq in H0; [congruence | done | done]. }
           rewrite !mod_pred by (done || lia). lia.
    + by rewrite length_insert.
    + rewrite rem_succ by done. destruct (Z.eqb_spec (index + 1) n); lia.
    + unfold count'. destruct (pgr && _); lia.
Qed.

Lemma assignWedge_length fuel n bA gap e pa index count pgr
    (slots slots' : Slots) :
  assignWedge fuel n bA gap e pa index count pgr slots = Some slots' ->
  length slots' = length slots.
Proof.
  revert index count pgr slots.
  induction fuel as [|fuel IH]; intros index count pgr slots; simpl.
  - destruct (index =? e); [|done]. by intros [= <-].
  - destruct (index =? e); [by intros [= <-]|].
    destruct (slots !! Z.to_nat index); [|done].
    intros H. apply IH in H. by rewrite length_insert in H.
Qed.

(** One round of the [for] loop over the wedges. *)
Lemma wedgeStep_good n fixedAngles i (slots slots' : Slots) pa pa' b e :
  Z.of_nat (length slots) = n ->
  (forall f, f ∈ fixedAngles ->
     0 <= findex f < n /\ (0 <= fangle f < 360)%Q) ->
  fixedAngles !! i = Some b ->
  fixedAngles !! ((i + 1) mod length fixedAngles)%nat = Some e ->
  wedgeStep n fixedAngles i (slots, pa) = Some (slots', pa') ->
  length slots' = length slots /\
  (forall j, goodSlot (slots !! j) -> goodSlot (slots' !! j)) /\
  (forall j, 0 <= j < n ->
     (j - findex b - 1) mod n < (findex e - findex b - 1) mod n ->
     goodSlot (slots' !! Z.to_nat j)).
Proof.
  intros Hn Hrange Hb He. unfold wedgeStep. rewrite Hb, He.
  cbn [mbind option_bind].
  destruct (Hrange b (list_elem_of_lookup_2 _ _ _ Hb)) as [Hbi Hba].
  destruct (Hrange e (list_elem_of_lookup_2 _ _ _ He)) as [Hei Hea].
  match goal with
  | |- context [assignWedge ?fu n ?bA ?g ?ee ?p ?ix ?c ?q slots] =>
      set (gap := g); set (pa1 := p)
  end.
  destruct (assignWedge _ _ _ _ _ _ _ _ _ _) as [s1|] eqn:Hw; [|done].
  cbn [mbind option_bind]. intros [= <- <-].
  split; [by eapply assignWedge_length|].
  assert (Hgap : (0 <= gap)%Q).
  { unfold gap.
    match goal with
    | |- (0 <= ?num / inject_Z ?den)%Q =>
        assert (Hnum : (0 <= num)%Q);
        [|assert (Hden : 0 < den);
          [|apply Qle_shift_div_l;
            [rewrite Zlt_Qlt in Hden; exact Hden | lra]]]
    end.
    - destruct (JS.leb (fangle e) (fangle b)) eqn:E;
        [lra | apply JS_leb_gt in E; lra].
    - assert (0 <= Z.rem (findex e - findex b - 1 + n) n)
        by (apply Z.rem_nonneg; lia).
      match goal with
      | |- 0 < (if ?c then _ else _) + 1 => destruct c
      end; lia. }
  eapply assignWedge_good in Hw as [Hkeep Hnew]; try done; try lra.
  - split; [done|]. intros j Hj Hlt. apply Hnew; [done|].
    by rewrite !cyc_rem.
  - rewrite rem_succ by done. destruct (Z.eqb_spec (findex b + 1) n); lia.
Qed.

Lemma wedgeLoop_good n fixedAngles k i (slots slots' : Slots) pa pa' :
  Z.of_nat (length slots) = n ->
  (forall f, f ∈ fixedAngles ->
     0 <= findex f < n /\ (0 <= fangle f < 360)%Q) ->
  (i + k <= length fixedAngles)%nat ->
  wedgeLoop n fixedAngles i k (slots, pa) = Some (slots', pa') ->
  length slots' = length slots /\
  (forall j, goodSlot (slots !! j) -> goodSlot (slots' !! j)) /\
  (forall i' b e j, (i <= i' < i + k)%nat ->
     fixedAngles !! i' = Some b ->
     fixedAngles !! ((i' + 1) mod length fixedAngles)%nat = Some e ->
     0 <= j < n ->
     (j - findex b - 1) mod n < (findex e - findex b - 1) mod n ->
     goodSlot (slots' !! Z.to_nat j)).
Proof.
  intros Hn Hrange. revert i slots pa Hn.
  induction k as [|k IH]; intros i slots pa Hn Hk; simpl.
  - intros [= <- <-]. split; [done|]. split; [done|]. intros; lia.
  - destruct (wedgeStep n fixedAngles i (slots, pa)) as [[s1 pa1]|] eqn:Hs;
      [|done].
    cbn [mbind option_bind]. intros Hloop.
    assert (Hi : (i < length fixedAngles)%nat) by lia.
    destruct (lookup_lt_is_Some_2 fixedAngles i Hi) as [b Hb].
    assert (Hi' : ((i + 1) mod length fixedAngles < length fixedAngles)%nat)
      by (apply Nat.mod_upper_bound; lia).
    destruct (lookup_lt_is_Some_2 fixedAngles _ Hi') as [e He].
    destruct (wedgeStep_good n fixedAngles i slots s1 pa pa1 b e
                Hn Hrange Hb He Hs) as (Hl1 & Hkeep1 & Hnew1).
    apply IH in Hloop as (Hl2 & Hkeep2 & Hnew2); [| lia | lia].
    split; [lia|]. split; [by auto|].
    intros i' b' e' j Hi'' Hb' He' Hj Hlt.
    destruct (decide (i' = i)) as [->|Hne].
    + rewrite Hb in Hb'. rewrite He in He'.
      injection Hb' as <-. injection He' as <-.
      by apply Hkeep2, Hnew1.
    + eapply (Hnew2 i'); [lia | done | done | done | done].
Qed.

(** The wedges between the fixed angles cover all items without a fixed
    angle. *)
Lemma between_fixed (fixedAngles : list FixedAngle) (j : Z) :
  StronglySorted (fun f g => findex f < findex g) fixedAngles ->
  (forall f, f ∈ fixedAngles -> findex f <> j) ->
  (forall f, f ∈ fixedAngles -> j < findex f) \/
  (forall f, f ∈ fixedAngles -> findex f < j) \/
  (exists i x y, fixedAngles !! i = Some x /\
     fixedAngles !! S i = Some y /\ findex x < j < findex y).
Proof.
  induction 1 as [|f rest Hsorted IH Hall]; intros Hne.
  - left. intros f Hf. by apply elem_of_nil in Hf.
  - assert (Hf : findex f <> j) by (apply Hne, list_elem_of_here).
    destruct IH as [Hgt|[Hlt|(i & x & y & Hx & Hy & Hxy)]].
    + intros g Hg. by apply Hne, list_elem_of_further.
    + destruct (Z_lt_le_dec j (findex f)).
      * left. intros g [->|Hg]%elem_of_cons; [done | by apply Hgt].
      * destruct rest as [|g rest].
        -- right. left. intros g [->|Hg]%elem_of_cons; [lia|].
           by apply elem_of_nil in Hg.
        -- right. right. exists 0%nat, f, g. simpl.
           split; [done|]. split; [done|].
           split; [lia | apply Hgt, list_elem_of_here].
    + destruct rest as [|g rest].
      * destruct (Z_lt_le_dec j (findex f)).
        -- left. intros g [->|Hg]%elem_of_cons; [done|].
           by apply elem_of_nil in Hg.
        -- right. left. intros g [->|Hg]%elem_of_cons; [lia|].
           by apply elem_of_nil in Hg.
      * right. left. intros h [->|Hh]%elem_of_cons; [|by apply Hlt].
        rewrite Forall_forall in Hall.
        pose proof (Hall g (list_elem_of_here _ _)).
        pose proof (Hlt g (list_elem_of_here _ _)). lia.
    + right. right. by exists (S i), x, y.
Qed.

Lemma fixedAnglesFrom_sorted index slots :
  StronglySorted (fun f g => findex f < findex g)
    (fixedAnglesFrom index slots).
Proof.
  revert index. induction slots as [|[a|] slots IH]; intros index; simpl.
  - constructor.
  - destruct (JS.leb 0 a); [|apply IH]. constructor; [apply IH|].
    apply Forall_forall. intros g Hg.
    apply fixedAnglesFrom_spec in Hg. simpl. lia.
  - apply IH.
Qed.

Lemma sorted_lookup_le (fixedAngles : list FixedAngle) i1 i2 x y :
  StronglySorted (fun f g => findex f < findex g) fixedAngles ->
  (i1 <= i2)%nat ->
  fixedAngles !! i1 = Some x -> fixedAngles !! i2 = Some y ->
  findex x <= findex y.
Proof.
  intros Hsorted. revert i1 i2.
  induction Hsorted as [|f rest Hs IH Hall]; intros i1 i2 Hle H1 H2.
  - by rewrite lookup_nil in H1.
  - destruct i1 as [|i1], i2 as [|i2]; simpl in *; try lia.
    + injection H1 as <-. injection H2 as <-. lia.
    + injection H1 as <-. rewrite Forall_forall in Hall.
      apply list_elem_of_lookup_2 in H2.
      specialize (Hall _ H2). simpl in Hall. lia.
    + eapply (IH i1 i2); [lia | done | done].
Qed.

Lemma wedges_cover n (fixedAngles : list FixedAngle) (j : Z) :
  fixedAngles <> [] ->
  (forall f, f ∈ fixedAngles -> 0 <= findex f < n) ->
  StronglySorted (fun f g => findex f < findex g) fixedAngles ->
  0 <= j < n ->
  (forall f, f ∈ fixedAngles -> findex f <> j) ->
  exists i b e,
    (i < length fixedAngles)%nat /\
    fixedAngles !! i = Some b /\
    fixedAngles !! ((i + 1) mod length fixedAngles)%nat = Some e /\
    (j - findex b - 1) mod n < (findex e - findex b - 1) mod n.
Proof.
  intros Hne Hrange Hsorted Hj Hfree.
  set (k := length fixedAngles).
  assert (Hk : (0 < k)%nat) by (unfold k; destruct fixedAngles; simpl; [done|lia]).
  destruct (lookup_lt_is_Some_2 fixedAngles 0) as [f0 Hf0]; [done|].
  destruct (lookup_lt_is_Some_2 fixedAngles (k - 1)) as [fl Hfl];
    [unfold k in *; lia|].
  pose proof (sorted_lookup_le _ 0 (k - 1) _ _ Hsorted ltac:(lia) Hf0 Hfl)
    as Hfirstlast.
  pose proof (Hrange _ (list_elem_of_lookup_2 _ _ _ Hf0)) as Hr0.
  pose proof (Hrange _ (list_elem_of_lookup_2 _ _ _ Hfl)) as Hrl.
  assert (Hwrap : ((k - 1 + 1) mod k = 0)%nat).
  { replace (k - 1 + 1)%nat with k by lia. apply Nat.Div0.mod_same. }
  destruct (between_fixed fixedAngles j Hsorted Hfree)
    as [Hgt|[Hlt|(i & x & y & Hx & Hy & Hxy)]].
  - exists (k - 1)%nat, fl, f0. split; [lia|]. split; [done|].
    split; [by rewrite Hwrap|].
    pose proof (Hgt _ (list_elem_of_lookup_2 _ _ _ Hf0)).
    rewrite !mod_wrap by lia. lia.
  - exists (k - 1)%nat, fl, f0. split; [lia|]. split; [done|].
    split; [by rewrite Hwrap|].
    pose proof (Hlt _ (list_elem_of_lookup_2 _ _ _ Hfl)).
    rewrite (mod_wrap (findex f0 - findex fl - 1)) by lia.
    rewrite Z.mod_small by lia. lia.
  - pose proof (lookup_lt_Some _ _ _ Hy) as Hlen. fold k in Hlen.
    exists i, x, y. split; [lia|]. split; [done|].
    split.
    + replace (i + 1)%nat with (S i) by lia.
      by rewrite Nat.mod_small.
    + pose proof (Hrange _ (list_elem_of_lookup_2 _ _ _ Hx)).
      pose proof (Hrange _ (list_elem_of_lookup_2 _ _ _ Hy)).
      rewrite !Z.mod_small by lia. lia.
Qed.

(** Every slot of a level that passes the checks gets an angle between 0
    and 360. *)
Lemma assignLevel_good (slots slots' : Slots) pa :
  (0 < length slots)%nat ->
  levelValid slots pa = true ->
  assignLevel slots pa = Some slots' ->
  length slots' = length slots /\
  forall j, (j < length slots)%nat -> goodSlot (slots' !! j).
Proof.
  intros Hpos Hvalid. unfold assignLevel.
  set (n := Z.of_nat (length slots)).
  assert (Hfinish : forall (F : list FixedAngle) (slots0 : Slots),
    length slots0 = length slots -> F <> [] ->
    (forall f, f ∈ F -> 0 <= findex f < n /\ (0 <= fangle f < 360)%Q) ->
    StronglySorted (fun f g => findex f < findex g) F ->
    (forall f, f ∈ F -> goodSlot (slots0 !! Z.to_nat (findex f))) ->
    (st ← wedgeLoop n F 0 (length F) (slots0, pa); Some (fst st)) =
      Some slots' ->
    length slots' = length slots /\
    forall j, (j < length slots)%nat -> goodSlot (slots' !! j)).
  { intros F slots0 Hlen HF Hrange Hsorted Hinit.
    destruct (wedgeLoop n F 0 (length F) (slots0, pa)) as [[s1 pa1]|] eqn:Hloop;
      [|done].
    cbn [mbind option_bind fst]. intros [= <-].
    apply wedgeLoop_good in Hloop as (Hl & Hkeep & Hnew);
      [| unfold n; lia | done | lia].
    split; [lia|]. intros j Hj.
    destruct (decide (Exists (fun f => findex f = Z.of_nat j) F))
      as [Hfixed|Hfree].
    - apply Exists_exists in Hfixed as (f & Hf & Hfj).
      apply Hkeep. specialize (Hinit f Hf). rewrite Hfj in Hinit.
      by rewrite Nat2Z.id in Hinit.
    - destruct (wedges_cover n F (Z.of_nat j)) as (i & b & e & Hi & Hb & He & Hlt).
      + done.
      + intros f Hf. by apply Hrange.
      + done.
      + unfold n. lia.
      + intros f Hf Hfj. apply Hfree, Exists_exists. by exists f.
      + rewrite <- (Nat2Z.id j).
        eapply (Hnew i b e); [lia | done | done | unfold n; lia | done]. }
  destruct (length (fixedAnglesOf slots) =? 0)%nat eqn:E.
  - (* no fixed angle: the first item gets 90 or 270 *)
    match goal with
    | |- context [mkFixed ?a 0] => set (firstAngle := a)
    end.
    assert (Hfirst : (0 <= firstAngle < 360)%Q).
    { unfold firstAngle. destruct pa as [p|]; [destruct (JS.ltb p 180)|];
        lra. }
    apply Hfinish.
    + by rewrite length_insert.
    + done.
    + intros f Hf. apply list_elem_of_singleton in Hf as ->. simpl.
      split; [unfold n; lia | done].
    + repeat constructor.
    + intros f Hf. apply list_elem_of_singleton in Hf as ->. simpl.
      exists firstAngle. split; [|done].
      apply list_lookup_insert_eq. lia.
  - apply Nat.eqb_neq in E.
    unfold levelValid in Hvalid. apply andb_true_iff in Hvalid as [Hinc _].
    apply anglesIncrease_true in Hinc as (Hr & _ & _).
    rewrite Forall_forall in Hr.
    assert (Hrange : forall f, f ∈ fixedAnglesOf slots ->
      (0 <= fangle f < 360)%Q).
    { intros f Hf. apply Hr, list_elem_of_In, in_map.
      by apply list_elem_of_In. }
    apply Hfinish.
    + done.
    + intros Hnil. by rewrite Hnil in E.
    + intros f Hf. split; [by apply fixedAnglesOf_range | by apply Hrange].
    + apply fixedAnglesFrom_sorted.
    + intros f Hf. exists (fangle f). split; [|by apply Hrange].
      apply fixedAnglesFrom_spec in Hf as (_ & Hl & _).
      by rewrite Z.sub_0_r in Hl.
Qed.

(** ** Properties of all items of a tree *)

Lemma EveryItem_inv P items :
  EveryItem P items ->
  Forall (fun item => P item /\ EveryItem P (item_children item)) items.
Proof. by inversion 1. Qed.

Lemma EveryItem_trivial (P : Item -> Prop) items :
  (forall item, P item) -> EveryItem P items.
Proof.
  intros HP. constructor. apply Forall_forall. intros item _.
  induction item as [n ic a d cs IH] using Item_ind'.
  split; [done|]. by constructor.
Qed.

(** [_updateItemIDs] maps a property of all items that it keeps at every
    single item. *)
Lemma EveryItem_updateItemIDs (P Q : Item -> Prop) :
  (forall item i parentID, P item -> Q (updateItemID item i parentID)) ->
  forall items i parentID,
    EveryItem P items -> EveryItem Q (updateItemIDsFrom i items parentID).
Proof.
  intros HPQ.
  assert (Hitem : forall item i parentID,
    P item /\ EveryItem P (item_children item) ->
    Q (updateItemID item i parentID) /\
    EveryItem Q (item_children (updateItemID item i parentID))).
  { induction item as [n ic a d cs IH] using Item_ind'.
    intros i parentID [HP Hcs]. split; [by apply HPQ|]. clear HP.
    rewrite updateItemID_unfold. cbn [item_children set_children].
    unfold updateItemIDs. generalize 0%nat.
    generalize (assignedID (mkItem n ic a d cs) i parentID).
    apply EveryItem_inv in Hcs. cbn [item_children] in Hcs.
    intros pid k. constructor. revert k.
    induction cs as [|c cs IHcs]; intros k; simpl; [constructor|].
    apply Forall_cons in IH as [IHc IH].
    apply Forall_cons in Hcs as [Hc Hcs].
    constructor; [by apply IHc | by apply IHcs]. }
  intros items i parentID Hall. constructor.
  apply EveryItem_inv in Hall. revert i.
  induction items as [|item items IH]; intros i; simpl; [constructor|].
  apply Forall_cons in Hall as [Hi Hall].
  constructor; [by apply Hitem | by apply IH].
Qed.

Lemma append_truthy (p s : string) :
  JS.truthy (Some p) = true -> JS.truthy (Some (p +:+ s)) = true.
Proof. by destruct p. Qed.

Lemma assignedID_truthy item i parentID :
  JS.truthy (assignedID item i parentID) = true.
Proof.
  unfold assignedID. destruct (JS.truthy (item_id item)) eqn:E; [done|].
  destruct parentID as [p|]; [|done].
  destruct (JS.truthy (Some p)) eqn:Ep; [|done]. by apply append_truthy.
Qed.

(** ** The solver on a tree whose levels are all valid *)

Lemma strictChildAngles_unfold item a :
  strictChildAngles item a =
  r ← updateItemAnglesWith strictChildAngles (item_children item)
        (childParentAngle a);
  if fst (r : bool * list Item)
  then Some (set_children (snd r) (set_angle a item))
  else None.
Proof. by destruct item. Qed.

Lemma forEachItem_strict (items items' : list Item) (slots : Slots) :
  Forall (fun item => forall a item',
    strictChildAngles item a = Some item' ->
    updateChildAngles item a = Some item' /\ item_angle item' = a /\
    EveryItem hasAngle (item_children item')) items ->
  (forall j, (j < length items)%nat -> goodSlot (slots !! j)) ->
  forEachItem strictChildAngles items slots = Some items' ->
  forEachItem updateChildAngles items slots = Some items' /\
  Forall (fun item => hasAngle item /\
            EveryItem hasAngle (item_children item)) items'.
Proof.
  revert slots items'.
  induction items as [|item items IH]; intros slots items' Hcb Hgood; simpl.
  - intros [= <-]. split; [done | constructor].
  - destruct slots as [|a slots]; [done|].
    apply Forall_cons in Hcb as [Hitem Hcb].
    destruct (strictChildAngles item a) as [item1|] eqn:Hs; [|done].
    cbn [mbind option_bind].
    destruct (forEachItem strictChildAngles items slots) as [rest|] eqn:Hr;
      [|done].
    cbn [mbind option_bind]. intros [= <-].
    destruct (Hitem a item1 Hs) as (Hu & Ha & Hcs). rewrite Hu.
    cbn [mbind option_bind].
    destruct (IH slots rest Hcb) as [Hrest Hall]; [|done|].
    { intros j Hj. apply (Hgood (S j)). simpl. lia. }
    rewrite Hrest. cbn [mbind option_bind]. split; [done|].
    constructor; [|done]. split; [|done].
    destruct (Hgood 0%nat) as (q & Hq & Hrange); [simpl; lia|].
    simpl in Hq. injection Hq as ->. exists q. by rewrite Ha.
Qed.

Lemma updateItemAnglesWith_strict items pa items' :
  Forall (fun item => forall a item',
    strictChildAngles item a = Some item' ->
    updateChildAngles item a = Some item' /\ item_angle item' = a /\
    EveryItem hasAngle (item_children item')) items ->
  updateItemAnglesWith strictChildAngles items pa = Some (true, items') ->
  updateItemAngles items pa = Some (true, items') /\
  EveryItem hasAngle items'.
Proof.
  intros Hcb. unfold updateItemAngles, updateItemAnglesWith.
  destruct (length items =? 0)%nat eqn:E.
  - intros [= <-]. split; [done|].
    apply Nat.eqb_eq in E. destruct items; [|done].
    constructor. constructor.
  - apply Nat.eqb_neq in E.
    destruct (levelValid (map item_angle items) pa) eqn:Hv; [|done].
    cbn [negb].
    destruct (assignLevel (map item_angle items) pa) as [slots'|] eqn:Ha;
      [|done].
    cbn [mbind option_bind].
    destruct (forEachItem strictChildAngles items slots') as [its|] eqn:Hf;
      [|done].
    cbn [mbind option_bind]. intros [= <-].
    apply assignLevel_good in Ha as [Hlen Hgood];
      [| rewrite length_map; lia | done].
    rewrite length_map in Hgood.
    destruct (forEachItem_strict items its slots' Hcb Hgood Hf)
      as [Hu Hall].
    rewrite Hu. cbn [mbind option_bind]. split; [done | by constructor].
Qed.

Lemma strictChildAngles_spec item : forall a item',
  strictChildAngles item a = Some item' ->
  updateChildAngles item a = Some item' /\ item_angle item' = a /\
  EveryItem hasAngle (item_children item').
Proof.
  induction item as [n ic a0 d cs IH] using Item_ind'. intros a item'.
  rewrite strictChildAngles_unfold, updateChildAngles_unfold.
  cbn [item_children].
  destruct (updateItemAnglesWith strictChildAngles cs (childParentAngle a))
    as [[ok cs']|] eqn:Hs; [|done].
  cbn [mbind option_bind fst snd]. destruct ok; [|done]. intros [= <-].
  destruct (updateItemAnglesWith_strict cs _ cs' IH Hs) as [Hu Hall].
  rewrite Hu. simpl. split; [done|]. by split.
Qed.

(** The request whose submenu has the fixed angles 30 and 10 is not valid on
    all levels. *)
Lemma invalid_submenu_not_allLevelsValid :
  ~ allLevelsValid
      [mkItem (Some "A") None None None
         [mkItem None None (Some 30%Q) None [];
          mkItem None None (Some 10%Q) None []]] None.
Proof. unfold allLevelsValid. vm_compute. discriminate. Qed.

(** On a tree whose levels are all valid the solver returns true and gives
    every item an angle between 0 and 360. *)
Lemma updateItemAngles_allLevelsValid items pa :
  allLevelsValid items pa ->
  exists items',
    updateItemAngles items pa = Some (true, items') /\
    EveryItem hasAngle items'.
Proof.
  unfold allLevelsValid.
  destruct (updateItemAnglesWith strictChildAngles items pa)
    as [[ok items']|] eqn:Hs; [|done].
  simpl. intros [= ->]. exists items'.
  apply updateItemAnglesWith_strict; [|done].
  apply Forall_forall. intros item _. apply strictChildAngles_spec.
Qed.

(** Every item of a level that the solver accepts gets an angle between 0
    and 360, whatever lies below. *)
Lemma updateItemAngles_level items pa items' :
  updateItemAngles items pa = Some (true, items') ->
  Forall hasAngle items'.
Proof.
  unfold updateItemAngles, updateItemAnglesWith.
  destruct (length items =? 0)%nat eqn:E.
  - intros [= <-]. apply Nat.eqb_eq in E. destruct items; [|done].
    constructor.
  - apply Nat.eqb_neq in E.
    destruct (levelValid (map item_angle items) pa) eqn:Hv; [|done].
    cbn [negb].
    destruct (assignLevel (map item_angle items) pa) as [slots'|] eqn:Ha;
      [|done].
    cbn [mbind option_bind].
    apply assignLevel_good in Ha as [Hlen Hgood];
      [| rewrite length_map; lia | done].
    rewrite length_map in Hgood. clear Hlen Hv E.
    destruct (forEachItem updateChildAngles items slots') as [its|] eqn:Hf;
      [|done].
    cbn [mbind option_bind]. intros [= <-].
    revert slots' its Hgood Hf.
    induction items as [|item items IH]; intros slots' its Hgood; simpl.
    + intros [= <-]. constructor.
    + destruct slots' as [|a slots']; [done|].
      rewrite updateChildAngles_unfold.
      destruct (updateItemAngles (item_children item) _) as [[ok cs]|];
        [|done].
      cbn [mbind option_bind].
      destruct (forEachItem updateChildAngles items slots') as [rest|] eqn:Hr;
        [|done].
      cbn [mbind option_bind]. intros [= <-].
      constructor.
      * destruct (Hgood 0%nat) as (q & Hq & Hrange); [simpl; lia|].
        simpl in Hq. injection Hq as ->. by exists q.
      * eapply IH; [|done]. intros j Hj. apply (Hgood (S j)). simpl. lia.
Qed.

(** ** What [show] writes into the structure *)

Lemma Written_refl item : Written item item.
Proof.
  induction item as [n ic a d cs IH] using Item_ind'.
  constructor; try done. simpl.
  induction IH; constructor; done.
Qed.

Lemma Forall2_Written_refl items : Forall2 Written items items.
Proof. induction items; constructor; [apply Written_refl | done]. Qed.

Lemma forEachItem_Written callback (items items' : list Item)
    (slots : Slots) :
  Forall (fun item => forall a item',
    callback item a = Some item' -> Written item item') items ->
  forEachItem callback items slots = Some items' ->
  Forall2 Written items items'.
Proof.
  revert slots items'.
  induction items as [|item items IH]; intros slots items' Hcb; simpl.
  - intros [= <-]. constructor.
  - destruct slots as [|a slots]; [done|].
    apply Forall_cons in Hcb as [Hitem Hcb].
    destruct (callback item a) as [item1|] eqn:Hc; [|done].
    cbn [mbind option_bind].
    destruct (forEachItem callback items slots) as [rest|] eqn:Hr; [|done].
    cbn [mbind option_bind]. intros [= <-].
    constructor; [by eapply Hitem | by eapply IH].
Qed.

Lemma updateItemAnglesWith_Written callback items pa ok items' :
  Forall (fun item => forall a item',
    callback item a = Some item' -> Written item item') items ->
  updateItemAnglesWith callback items pa = Some (ok, items') ->
  Forall2 Written items items'.
Proof.
  intros Hcb. unfold updateItemAnglesWith.
  destruct (length items =? 0)%nat.
  { intros [= _ <-]. apply Forall2_Written_refl. }
  destruct (negb _).
  { intros [= _ <-]. apply Forall2_Written_refl. }
  destruct (assignLevel _ _) as [slots'|]; [|done].
  cbn [mbind option_bind].
  destruct (forEachItem callback items slots') as [its|] eqn:Hf; [|done].
  cbn [mbind option_bind]. intros [= _ <-].
  by eapply forEachItem_Written.
Qed.

Lemma updateChildAngles_Written item : forall a item',
  updateChildAngles item a = Some item' -> Written item item'.
Proof.
  induction item as [n ic a0 d cs IH] using Item_ind'. intros a item'.
  rewrite updateChildAngles_unfold. cbn [item_children].
  destruct (updateItemAngles cs (childParentAngle a)) as [[ok cs']|] eqn:Hu;
    [|done].
  cbn [mbind option_bind snd]. intros [= <-].
  constructor; try done. simpl.
  by eapply updateItemAnglesWith_Written.
Qed.

(** The solver keeps the names, the icons and the ids of all items. *)
Lemma updateItemAngles_Written items pa ok items' :
  updateItemAngles items pa = Some (ok, items') ->
  Forall2 Written items items'.
Proof.
  apply updateItemAnglesWith_Written, Forall_forall.
  intros item _. apply updateChildAngles_Written.
Qed.

(** The id assignment keeps the names, the icons and the ids that are not
    empty. *)
Lemma updateItemID_Written a : forall b i parentID,
  Written a b -> Written a (updateItemID b i parentID).
Proof.
  induction a as [n ic an d cs IH] using Item_ind'.
  intros b i parentID Hab. inversion Hab as [? ? Hn Hic Hid Hcs]; subst.
  rewrite updateItemID_unfold. constructor; cbn; try done.
  - intros Ht. specialize (Hid Ht). unfold assignedID.
    rewrite Hid. simpl in Ht |- *. by rewrite Ht.
  - unfold updateItemIDs. generalize 0%nat.
    generalize (assignedID b i parentID). intros pid.
    simpl in Hcs. clear Hab Hid.
    induction Hcs as [|x y xs ys Hxy Hrest IHrest]; intros k; simpl;
      [constructor|].
    apply Forall_cons in IH as [IHx IHxs].
    constructor; [by apply IHx | by apply IHrest].
Qed.

Lemma updateItemIDs_Written items items' :
  Forall2 Written items items' ->
  forall i parentID,
    Forall2 Written items (updateItemIDsFrom i items' parentID).
Proof.
  induction 1 as [|a b items items' Hab _ IH]; intros i parentID; simpl;
    constructor; [by apply updateItemID_Written | apply IH].
Qed.

Lemma rootDefaults_fields structure :
  item_name (rootDefaults structure) =
    Some (default "root" (item_name structure)) /\
  item_icon (rootDefaults structure) =
    Some (default "image-missing" (item_icon structure)) /\
  item_id (rootDefaults structure) = item_id structure /\
  item_children (rootDefaults structure) = item_children structure.
Proof. by destruct structure as [[?|] [?|] ? ? ?]. Qed.

Lemma updateItemAngles_false items pa items' :
  updateItemAngles items pa = Some (false, items') -> items' = items.
Proof.
  unfold updateItemAngles, updateItemAnglesWith.
  destruct (length items =? 0)%nat; [done|].
  destruct (negb _); [by intros [= <-]|].
  destruct (assignLevel _ _); [|done]. cbn [mbind option_bind].
  by destruct (forEachItem _ _ _).
Qed.

Lemma Forall_hasAngle_updateItemIDs items i parentID :
  Forall hasAngle items ->
  Forall hasAngle (updateItemIDsFrom i items parentID).
Proof.
  intros H. revert i. induction H as [|item items Hitem _ IH]; intros i;
    simpl; constructor; [|apply IH].
  unfold hasAngle. by rewrite item_angle_updateItemID.
Qed.

(** C10 (amended): a show request that passes the AlreadyActive and the
    PropertyMissing check mutates the passed structure: the root gets the
    name 'root' and the icon 'image-missing' if it has none, and its angle
    becomes 0.  If the request fails with InvalidAngles, nothing else is
    written.  Otherwise the id of the root becomes '/'; the items below the
    root keep their names, their icons and the ids that are not empty, and
    all of them have an id; every child of the root has an angle between 0
    and 360, and so has every item below the root if the fixed angles of all
    levels are valid. *)
Theorem C10_show_mutates_structure settings monitor redraw menuID' structure
    previewMode' grab ptr m :
  JS.truthy (menuID m) = false ->
  item_children structure <> [] ->
  exists result structure' m',
    show settings monitor redraw menuID' structure previewMode' grab ptr m =
      Some (result, structure', m') /\
    item_name structure' = Some (default "root" (item_name structure)) /\
    item_icon structure' =
      Some (default "image-missing" (item_icon structure)) /\
    item_angle structure' = Some 0%Q /\
    (result = Failed eInvalidAngles ->
     item_id structure' = item_id structure /\
     item_children structure' = item_children structure) /\
    (result <> Failed eInvalidAngles ->
     item_id structure' = Some "/" /\
     Forall2 Written (item_children structure) (item_children structure') /\
     EveryItem (fun item => JS.truthy (item_id item) = true)
       (item_children structure') /\
     Forall hasAngle (item_children structure') /\
     (allLevelsValid (item_children structure) None ->
      EveryItem hasAngle (item_children structure'))).
Proof.
  intros Hidle Hchildren. unfold show. rewrite Hidle.
  destruct (rootDefaults_fields structure) as (Hname & Hicon & Hid & Hcs).
  assert (Hlen : negb (0 <? length (item_children structure))%nat = false).
  { destruct (item_children structure); [done|reflexivity]. }
  rewrite Hlen.
  cbn [item_children set_angle]. rewrite Hcs.
  destruct (updateItemAngles_total (item_children structure) None)
    as (ok & items' & Hsolve & _).
  rewrite Hsolve. cbn [mbind option_bind fst snd].
  destruct ok; cbn [negb].
  - (* the top level is valid *)
    pose proof (updateItemAngles_level _ _ _ Hsolve) as Hlevel.
    assert (Hwritten :
      Forall2 Written (item_children structure)
        (updateItemIDs items' None) /\
      EveryItem (fun item => JS.truthy (item_id item) = true)
        (updateItemIDs items' None) /\
      Forall hasAngle (updateItemIDs items' None) /\
      (allLevelsValid (item_children structure) None ->
       EveryItem hasAngle (updateItemIDs items' None))).
    { split; [|split; [|split]].
      - apply updateItemIDs_Written. by eapply updateItemAngles_Written.
      - apply (EveryItem_updateItemIDs (fun _ => True)).
        + intros item i p _. rewrite item_id_updateItemID.
          apply assignedID_truthy.
        + by apply EveryItem_trivial.
      - by apply Forall_hasAngle_updateItemIDs.
      - intros Hvalid.
        apply updateItemAngles_allLevelsValid in Hvalid
            as (items'' & Hsolve' & Hall).
        rewrite Hsolve in Hsolve'. injection Hsolve' as <-.
        apply (EveryItem_updateItemIDs hasAngle); [|done].
        intros item i p. unfold hasAngle.
        by rewrite item_angle_updateItemID. }
    destruct grab; cbn [negb]; eexists _, _, _;
      (split; [reflexivity|]); cbn -[updateItemIDs];
      (split; [done|]); (split; [done|]); (split; [done|]);
      (split; [done|]); intros _; (split; [done|]); exact Hwritten.
  - (* the top level is rejected *)
    apply updateItemAngles_false in Hsolve as ->.
    eexists _, _, _. split; [reflexivity|]. cbn.
    split; [done|]. split; [done|]. split; [done|]. split; [|done].
    intros _. by split.
Qed.

(** The request with a submenu, sent to a new menu. *)
Lemma C10_show_mutates_structure_witness :
  exists result structure' m',
    show exampleSettings exampleMonitor redrawExample "m1" nestedStructure
      false true examplePointer newMenu = Some (result, structure', m') /\
    item_name structure' = Some "root" /\
    item_icon structure' = Some "image-missing" /\
    item_angle structure' = Some 0%Q /\
    (result = Failed eInvalidAngles ->
     item_id structure' = None /\
     item_children structure' = item_children nestedStructure) /\
    (result <> Failed eInvalidAngles ->
     item_id structure' = Some "/" /\
     Forall2 Written (item_children nestedStructure)
       (item_children structure') /\
     EveryItem (fun item => JS.truthy (item_id item) = true)
       (item_children structure') /\
     Forall hasAngle (item_children structure') /\
     (allLevelsValid (item_children nestedStructure) None ->
      EveryItem hasAngle (item_children structure'))).
Proof.
  apply (C10_show_mutates_structure exampleSettings exampleMonitor
           redrawExample "m1" nestedStructure false true examplePointer
           newMenu); [reflexivity | discriminate].
Defined.

Lemma nestedStructure_allLevelsValid :
  allLevelsValid (item_children nestedStructure) None.
Proof. vm_compute. reflexivity. Qed.

(** C10 as stated fails: a request to a menu that is already active returns
    before anything is written; the root of the passed structure still has
    no name, no icon, no angle and no id, and its children neither angles nor
    ids. *)
Lemma C10_rejected_request_is_not_mutated :
  exists structure' m',
    show exampleSettings exampleMonitor redrawExample "m2" exampleStructure
      false true examplePointer exampleMenu =
      Some (Failed eAlreadyActive, structure', m') /\
    item_name structure' = None /\ item_icon structure' = None /\
    item_angle structure' = None /\ item_id structure' = None /\
    Forall (fun item => item_angle item = None /\ item_id item = None)
      (item_children structure').
Proof.
  eexists _, _. split; [vm_compute; reflexivity|].
  repeat split; repeat constructor.
Qed.

(** * Further properties of the code *)

(** ** The angle solver: what a wedge writes and what it leaves *)

(** The [while] loop of a wedge leaves the slots outside the wedge as they
    are. *)
Lemma assignWedge_outside fuel n bA gap e pa index count pgr
    (slots slots' : Slots) :
  Z.of_nat (length slots) = n ->
  0 <= index < n -> 0 <= e < n ->
  assignWedge fuel n bA gap e pa index count pgr slots = Some slots' ->
  forall i, 0 <= i < n -> (e - index) mod n <= (i - index) mod n ->
    slots' !! Z.to_nat i = slots !! Z.to_nat i.
Proof.
  intros Hn Hi He. revert index count pgr slots Hn Hi.
  induction fuel as [|fuel IH]; intros index count pgr slots Hn Hi; simpl.
  - destruct (Z.eqb_spec index e) as [->|E]; [|done]. by intros [= <-].
  - destruct (Z.eqb_spec index e) as [->|E]; [by intros [= <-]|].
    destruct (slots !! Z.to_nat index) as [o|] eqn:Hl; [|done].
    intros Hrec i Hir Hle.
    assert (He0 : (e - index) mod n <> 0).
    { intros H0. apply mod_zero_eq in H0; [congruence | done | done]. }
    assert (Hi0 : (i - index) mod n <> 0).
    { pose proof (Z.mod_pos_bound (e - index) n). lia. }
    assert (Hne : i <> index).
    { intros ->. apply Hi0. rewrite Z.sub_diag. apply Z.mod_0_l. lia. }
    eapply IH in Hrec.
    + rewrite Hrec. apply list_lookup_insert_ne. lia.
    + by rewrite length_insert.
    + rewrite rem_succ by done. destruct (Z.eqb_spec (index + 1) n); lia.
    + done.
    + rewrite !cyc_rem by done. rewrite !mod_pred by (done || lia). lia.
Qed.

(** Without a gap for the parent link the loop gives the [j]-th item of the
    wedge the angle [wedgeBeginAngle + wedgeItemGap * (count + j)], modulo
    360. *)
Lemma assignWedge_values fuel n bA gap e pa index count
    (slots slots' : Slots) :
  Z.of_nat (length slots) = n ->
  0 <= index < n -> 0 <= e < n ->
  assignWedge fuel n bA gap e pa index count false slots = Some slots' ->
  forall j, 0 <= j < (e - index) mod n ->
    slots' !! Z.to_nat ((index + j) mod n) =
    Some (Some (JS.rem (bA + gap * inject_Z (count + j)) 360)).
Proof.
  intros Hn Hi He. revert index count slots Hn Hi.
  induction fuel as [|fuel IH]; intros index count slots Hn Hi; simpl.
  - destruct (Z.eqb_spec index e) as [->|E]; [|done]. intros _ j.
    rewrite Z.sub_diag, Z.mod_0_l by lia. lia.
  - destruct (Z.eqb_spec index e) as [->|E].
    { intros _ j. rewrite Z.sub_diag, Z.mod_0_l by lia. lia. }
    destruct (slots !! Z.to_nat index) as [o|] eqn:Hl; [|done].
    intros Hrec j Hj.
    assert (Hidx' : 0 <= Z.rem (index + 1) n < n).
    { rewrite rem_succ by done. destruct (Z.eqb_spec (index + 1) n); lia. }
    assert (He0 : (e - index) mod n <> 0) by lia.
    destruct (Z.eq_dec j 0) as [->|Hj0].
    + rewrite !Z.add_0_r, Z.mod_small by lia.
      pose proof (assignWedge_outside _ _ _ _ _ _ _ _ _ _ _
                    ltac:(by rewrite length_insert) Hidx' He Hrec index Hi)
        as Hout.
      rewrite Hout.
      * apply list_lookup_insert_eq. apply lookup_lt_Some in Hl. done.
      * rewrite !cyc_rem by done. rewrite mod_pred by (done || lia).
        replace (index - index - 1) with (-1) by lia.
        rewrite (mod_wrap (-1)) by lia.
        pose proof (Z.mod_pos_bound (e - index) n). lia.
    + specialize (IH _ _ _ ltac:(by rewrite length_insert) Hidx' Hrec (j - 1)).
      rewrite cyc_rem, mod_pred in IH by (done || lia).
      specialize (IH ltac:(lia)).
      replace (count + 1 + (j - 1)) with (count + j) in IH by lia.
      rewrite <- IH. f_equal. f_equal.
      rewrite rem_succ by done.
      destruct (Z.eqb_spec (index + 1) n) as [E1|E1].
      * replace (index + j) with (0 + (j - 1) + 1 * n) by lia.
        by rewrite Z.mod_add by lia.
      * f_equal. lia.
Qed.

Lemma fixedAnglesFrom_complete index (slots : Slots) i a :
  slots !! i = Some (Some a) -> (0 <= a)%Q ->
  mkFixed a (index + Z.of_nat i) ∈ fixedAnglesFrom index slots.
Proof.
  revert index i. induction slots as [|o slots IH]; intros index i Hl Ha.
  - by rewrite lookup_nil in Hl.
  - destruct i as [|i]; simpl in Hl.
    + injection Hl as ->. simpl. apply JS_leb_le in Ha. rewrite Ha.
      rewrite Z.add_0_r. apply list_elem_of_here.
    + specialize (IH (index + 1) i Hl Ha).
      replace (index + Z.of_nat (S i)) with (index + 1 + Z.of_nat i) by lia.
      simpl. destruct o as [b|]; [|done].
      destruct (JS.leb 0 b); [by apply list_elem_of_further | done].
Qed.

(** No fixed angle lies inside a wedge. *)
Lemma fixed_not_between n (fixedAngles : list FixedAngle) i b e f :
  (forall g, g ∈ fixedAngles -> 0 <= findex g < n) ->
  StronglySorted (fun f g => findex f < findex g) fixedAngles ->
  fixedAngles !! i = Some b ->
  fixedAngles !! ((i + 1) mod length fixedAngles)%nat = Some e ->
  f ∈ fixedAngles ->
  (findex e - findex b - 1) mod n <= (findex f - findex b - 1) mod n.
Proof.
  intros Hrange Hsorted Hb He Hf.
  apply list_elem_of_lookup_1 in Hf as [j Hj].
  pose proof (Hrange _ (list_elem_of_lookup_2 _ _ _ Hb)) as Hrb.
  pose proof (Hrange _ (list_elem_of_lookup_2 _ _ _ He)) as Hre.
  pose proof (Hrange _ (list_elem_of_lookup_2 _ _ _ Hj)) as Hrf.
  pose proof (lookup_lt_Some _ _ _ Hb) as Hi.
  set (k := length fixedAngles) in *.
  assert (Hstrict : forall i1 i2 x y, (i1 < i2)%nat ->
    fixedAngles !! i1 = Some x -> fixedAngles !! i2 = Some y ->
    findex x < findex y).
  { clear -Hsorted. induction Hsorted as [|g rest Hs IH Hall];
      intros i1 i2 x y Hlt H1 H2.
    - by rewrite lookup_nil in H1.
    - destruct i1 as [|i1], i2 as [|i2]; simpl in *; try lia.
      + injection H1 as <-. rewrite Forall_forall in Hall.
        apply (Hall y). by eapply list_elem_of_lookup_2.
      + eapply (IH i1 i2); [lia | done | done]. }
  destruct (decide (S i = k)) as [Hlast|Hmid].
  - (* the last wedge wraps around to the first fixed angle *)
    replace ((i + 1) mod k)%nat with 0%nat in He.
    2:{ replace (i + 1)%nat with k by lia. symmetry. apply Nat.Div0.mod_same. }
    pose proof (sorted_lookup_le _ 0 j _ _ Hsorted ltac:(lia) He Hj).
    pose proof (lookup_lt_Some _ _ _ Hj).
    pose proof (sorted_lookup_le _ j i _ _ Hsorted ltac:(lia) Hj Hb).
    rewrite !mod_wrap by lia. lia.
  - replace ((i + 1) mod k)%nat with (S i) in He.
    2:{ replace (i + 1)%nat with (S i) by lia. symmetry.
        apply Nat.mod_small. lia. }
    pose proof (Hstrict i (S i) b e ltac:(lia) Hb He).
    rewrite (Z.mod_small (findex e - findex b - 1)) by lia.
    destruct (le_lt_dec j i).
    + pose proof (sorted_lookup_le _ j i _ _ Hsorted ltac:(lia) Hj Hb).
      rewrite mod_wrap by lia. lia.
    + pose proof (sorted_lookup_le _ (S i) j _ _ Hsorted ltac:(lia) He Hj).
      rewrite Z.mod_small by lia. lia.
Qed.

Lemma wedgeStep_outside n fixedAngles i (slots slots' : Slots) pa pa' b e :
  Z.of_nat (length slots) = n ->
  (forall f, f ∈ fixedAngles -> 0 <= findex f < n) ->
  fixedAngles !! i = Some b ->
  fixedAngles !! ((i + 1) mod length fixedAngles)%nat = Some e ->
  wedgeStep n fixedAngles i (slots, pa) = Some (slots', pa') ->
  forall j, 0 <= j < n ->
    (findex e - findex b - 1) mod n <= (j - findex b - 1) mod n ->
    slots' !! Z.to_nat j = slots !! Z.to_nat j.
Proof.
  intros Hn Hrange Hb He. unfold wedgeStep. rewrite Hb, He.
  cbn [mbind option_bind].
  pose proof (Hrange b (list_elem_of_lookup_2 _ _ _ Hb)) as Hbi.
  pose proof (Hrange e (list_elem_of_lookup_2 _ _ _ He)) as Hei.
  destruct (assignWedge _ _ _ _ _ _ _ _ _ _) as [s1|] eqn:Hw; [|done].
  cbn [mbind option_bind]. intros [= <- <-] j Hj Hle.
  eapply assignWedge_outside in Hw; [exact Hw | done | | done | done |].
  - rewrite rem_succ by done. destruct (Z.eqb_spec (findex b + 1) n); lia.
  - by rewrite !cyc_rem.
Qed.

(** The [for] loop over the wedges leaves every slot alone that lies in no
    wedge. *)
Lemma wedgeLoop_outside n fixedAngles k i (slots slots' : Slots) pa pa' j :
  Z.of_nat (length slots) = n ->
  (forall f, f ∈ fixedAngles -> 0 <= findex f < n) ->
  (i + k <= length fixedAngles)%nat ->
  0 <= j < n ->
  (forall i' b e, fixedAngles !! i' = Some b ->
     fixedAngles !! ((i' + 1) mod length fixedAngles)%nat = Some e ->
     (findex e - findex b - 1) mod n <= (j - findex b - 1) mod n) ->
  wedgeLoop n fixedAngles i k (slots, pa) = Some (slots', pa') ->
  slots' !! Z.to_nat j = slots !! Z.to_nat j.
Proof.
  intros Hn Hrange Hk Hj Hout. revert i slots pa Hn Hk.
  induction k as [|k IH]; intros i slots pa Hn Hk; simpl.
  - by intros [= <- <-].
  - destruct (wedgeStep n fixedAngles i (slots, pa)) as [[s1 pa1]|] eqn:Hs;
      [|done].
    cbn [mbind option_bind]. intros Hloop.
    assert (Hi : (i < length fixedAngles)%nat) by lia.
    destruct (lookup_lt_is_Some_2 fixedAngles i Hi) as [b Hb].
    assert (Hi' : ((i + 1) mod length fixedAngles < length fixedAngles)%nat)
      by (apply Nat.mod_upper_bound; lia).
    destruct (lookup_lt_is_Some_2 fixedAngles _ Hi') as [e He].
    pose proof (wedgeStep_outside n fixedAngles i slots s1 pa pa1 b e
                  Hn Hrange Hb He Hs j Hj (Hout i b e Hb He)) as H1.
    destruct (wedgeStep_total n fixedAngles i slots pa Hn Hrange Hi)
      as (s1' & pa1' & Hs' & Hlen).
    rewrite Hs in Hs'. injection Hs' as <- <-.
    rewrite <- H1. apply (IH (S i) s1 pa1); [lia | lia | exact Hloop].
Qed.

(** The level part of the solver keeps every fixed angle; on a level
    without fixed angles the first item gets 270 if the parent link lies
    below 180, and 90 otherwise. *)
Lemma assignLevel_fixed (slots slots' : Slots) pa :
  (0 < length slots)%nat ->
  assignLevel slots pa = Some slots' ->
  (forall f, f ∈ fixedAnglesOf slots ->
     slots' !! Z.to_nat (findex f) = Some (Some (fangle f))) /\
  (fixedAnglesOf slots = [] ->
   slots' !! 0%nat =
   Some (Some match pa with
              | Some p => if JS.ltb p 180 then 270%Q else 90%Q
              | None => 90%Q
              end)).
Proof.
  intros Hpos. unfold assignLevel.
  set (n := Z.of_nat (length slots)).
  assert (Hkeep : forall (F : list FixedAngle) (slots0 : Slots) f,
    length slots0 = length slots ->
    (forall g, g ∈ F -> 0 <= findex g < n) ->
    StronglySorted (fun f g => findex f < findex g) F ->
    f ∈ F ->
    (st ← wedgeLoop n F 0 (length F) (slots0, pa); Some (fst st)) =
      Some slots' ->
    slots' !! Z.to_nat (findex f) = slots0 !! Z.to_nat (findex f)).
  { intros F slots0 f Hlen Hrange Hsorted Hf.
    destruct (wedgeLoop n F 0 (length F) (slots0, pa)) as [[s1 pa1]|] eqn:Hloop;
      [|done].
    cbn [mbind option_bind fst]. intros [= <-].
    eapply wedgeLoop_outside; [| exact Hrange | | | | exact Hloop].
    - unfold n. lia.
    - lia.
    - by apply Hrange.
    - intros i' b e Hb He. by eapply fixed_not_between. }
  destruct (length (fixedAnglesOf slots) =? 0)%nat eqn:E.
  - apply Nat.eqb_eq in E.
    assert (Hnil : fixedAnglesOf slots = [])
      by (by destruct (fixedAnglesOf slots)).
    match goal with
    | |- context [mkFixed ?a 0] => set (firstAngle := a)
    end.
    intros Hloop. split.
    + intros f Hf. rewrite Hnil in Hf. by apply elem_of_nil in Hf.
    + intros _.
      change (slots' !! 0%nat)
        with (slots' !! Z.to_nat (findex (mkFixed firstAngle 0))).
      erewrite (Hkeep [mkFixed firstAngle 0] _ (mkFixed firstAngle 0));
        [| | | | | exact Hloop].
      * simpl. apply list_lookup_insert_eq. lia.
      * by rewrite length_insert.
      * intros g Hg. apply list_elem_of_singleton in Hg as ->. simpl.
        unfold n. lia.
      * repeat constructor.
      * apply list_elem_of_here.
  - apply Nat.eqb_neq in E. intros Hloop. split.
    + intros f Hf.
      erewrite (Hkeep (fixedAnglesOf slots) slots f); [| | | | | exact Hloop].
      * apply fixedAnglesFrom_spec in Hf as (_ & Hl & _).
        by rewrite Z.sub_0_r in Hl.
      * done.
      * apply fixedAnglesOf_range.
      * apply fixedAnglesFrom_sorted.
      * done.
    + intros Hnil. by rewrite Hnil in E.
Qed.

(** ** The angle solver: fixed angles and the even split *)

Lemma forEachItem_angles (items items' : list Item) (slots : Slots) :
  length slots = length items ->
  forEachItem updateChildAngles items slots = Some items' ->
  map item_angle items' = slots.
Proof.
  revert slots items'.
  induction items as [|item items IH]; intros slots items' Hlen; simpl.
  - intros [= <-]. by destruct slots.
  - destruct slots as [|a slots]; [done|].
    rewrite updateChildAngles_unfold.
    destruct (updateItemAngles (item_children item) _) as [[ok cs]|];
      [|done].
    cbn [mbind option_bind].
    destruct (forEachItem updateChildAngles items slots) as [rest|] eqn:Hr;
      [|done].
    cbn [mbind option_bind]. intros [= <-]. simpl. f_equal.
    apply IH; [by inversion Hlen | done].
Qed.

(** What an accepted call has done on its level: the checks have passed
    and the items carry the angles that the level part has computed. *)
Lemma updateItemAngles_accepted items pa items' :
  items <> [] ->
  updateItemAngles items pa = Some (true, items') ->
  levelValid (map item_angle items) pa = true /\
  assignLevel (map item_angle items) pa = Some (map item_angle items').
Proof.
  intros Hne. unfold updateItemAngles, updateItemAnglesWith.
  destruct (length items =? 0)%nat eqn:E.
  { apply Nat.eqb_eq in E. by destruct items. }
  destruct (levelValid (map item_angle items) pa) eqn:Hv; [|done].
  cbn [negb].
  destruct (assignLevel (map item_angle items) pa) as [slots'|] eqn:Ha;
    [|done].
  cbn [mbind option_bind].
  destruct (forEachItem updateChildAngles items slots') as [its|] eqn:Hf;
    [|done].
  cbn [mbind option_bind]. intros [= <-]. split; [done|].
  destruct (assignLevel_total (map item_angle items) pa) as (s2 & Hs2 & Hlen).
  { rewrite length_map. destruct items; simpl; [done|lia]. }
  rewrite Ha in Hs2. injection Hs2 as <-.
  f_equal. symmetry. apply (forEachItem_angles items); [|done].
  by rewrite Hlen, length_map.
Qed.

Lemma lookup_map_angle (items : list Item) i :
  map item_angle items !! i = item_angle <$> items !! i.
Proof. revert i. induction items; intros [|i]; simpl; auto. Qed.

(** X1: the solver keeps the fixed angles: on a level that it accepts, an item
    that came with an angle that is not negative has that angle
    afterwards. *)
Theorem fixed_angles_kept items pa items' i item a :
  updateItemAngles items pa = Some (true, items') ->
  items !! i = Some item -> item_angle item = Some a -> (0 <= a)%Q ->
  exists item', items' !! i = Some item' /\ item_angle item' = Some a.
Proof.
  intros Hsolve Hi Ha Hpos.
  assert (Hne : items <> []) by (intros ->; by rewrite lookup_nil in Hi).
  destruct (updateItemAngles_accepted _ _ _ Hne Hsolve) as [_ Hlevel].
  assert (Hslot : map item_angle items !! i = Some (Some a))
    by (by rewrite lookup_map_angle, Hi; simpl; rewrite Ha).
  pose proof (fixedAnglesFrom_complete 0 _ _ _ Hslot Hpos) as Hf.
  apply assignLevel_fixed in Hlevel as [Hkeep _].
  2:{ rewrite length_map. destruct items; simpl; [done|lia]. }
  specialize (Hkeep _ Hf). simpl in Hkeep.
  rewrite Z.add_0_l, Nat2Z.id, lookup_map_angle in Hkeep.
  destruct (items' !! i) as [item'|]; [|done].
  exists item'. split; [done|]. by injection Hkeep.
Qed.

Lemma fixed_angles_kept_witness :
  exists items' item',
    updateItemAngles [mkItem None None None None [];
                      mkItem None None (Some 180%Q) None []] None =
      Some (true, items') /\
    items' !! 1%nat = Some item' /\ item_angle item' = Some 180%Q.
Proof.
  eexists. 
  assert (H : updateItemAngles [mkItem None None None None [];
                      mkItem None None (Some 180%Q) None []] None =
      Some (true, _)) by (vm_compute; reflexivity).
  destruct (fixed_angles_kept _ _ _ 1%nat _ 180%Q H eq_refl eq_refl)
    as (item' & Hi & Ha).
  { unfold Qle. simpl. lia. }
  exists item'. split; [exact H|]. split; [exact Hi | exact Ha].
Defined.

Lemma fixedValues_nil items :
  fixedValues items = [] -> fixedAnglesOf (map item_angle items) = [].
Proof.
  intros H. unfold fixedAnglesOf.
  pose proof (fixedAnglesFrom_values 0 items) as Hv. rewrite H in Hv.
  by destruct (fixedAnglesFrom 0 (map item_angle items)).
Qed.

Lemma levelValid_no_fixed slots pa :
  fixedAnglesOf slots = [] -> levelValid slots pa = true.
Proof. intros H. unfold levelValid. rewrite H. by destruct pa. Qed.

Lemma updateItemAngles_no_fixed items pa :
  items <> [] -> fixedValues items = [] ->
  exists items',
    updateItemAngles items pa = Some (true, items') /\
    assignLevel (map item_angle items) pa = Some (map item_angle items').
Proof.
  intros Hne Hnil.
  destruct (updateItemAngles_total items pa) as (ok & items' & H & _).
  pose proof (updateItemAngles_verdict items pa Hne) as Hv.
  rewrite H, levelValid_no_fixed in Hv by by apply fixedValues_nil.
  injection Hv as ->. exists items'. split; [done|].
  by apply updateItemAngles_accepted.
Qed.

(** X2: a level on which no item has a fixed angle is accepted, and its first
    item gets the angle 90, or 270 where the link to the parent lies below
    180. *)
Theorem first_angle_without_fixed items pa :
  items <> [] -> fixedValues items = [] ->
  exists items' item',
    updateItemAngles items pa = Some (true, items') /\
    items' !! 0%nat = Some item' /\
    item_angle item' = Some (firstAngleFor pa).
Proof.
  intros Hne Hnil.
  destruct (updateItemAngles_no_fixed items pa Hne Hnil)
    as (items' & Hsolve & Hlevel).
  apply assignLevel_fixed in Hlevel as [_ Hfirst].
  2:{ rewrite length_map. destruct items; simpl; [done|lia]. }
  specialize (Hfirst (fixedValues_nil _ Hnil)).
  rewrite lookup_map_angle in Hfirst.
  destruct (items' !! 0%nat) as [item'|] eqn:Hitem; [|done].
  exists items', item'. split; [done|]. split; [done|].
  by injection Hfirst.
Qed.

Lemma first_angle_without_fixed_witness :
  exists items' item',
    updateItemAngles [mkItem None None None None [];
                      mkItem None None None None []] (Some 45%Q) =
      Some (true, items') /\
    items' !! 0%nat = Some item' /\
    item_angle item' = Some (firstAngleFor (Some 45%Q)).
Proof.
  apply (first_angle_without_fixed
           [mkItem None None None None []; mkItem None None None None []]
           (Some 45%Q)).
  - discriminate.
  - reflexivity.
Defined.

(** The remainder by 360 of a number of [0, 720). *)
Lemma rem_360 (x : Q) :
  (0 <= x)%Q -> (x < 720)%Q ->
  (JS.rem x 360 == if Qle_bool 360 x then x - 360 else x)%Q.
Proof.
  intros Hlo Hhi. unfold JS.rem.
  assert (Hq : (0 <= x / 360)%Q) by (apply Qle_shift_div_l; lra).
  rewrite trunc_floor by done.
  destruct (Qle_bool 360 x) eqn:E.
  - apply Qle_bool_iff in E.
    rewrite (Qfloor_between (x / 360) 1).
    + change (inject_Z 1) with 1%Q. lra.
    + apply Qle_shift_div_l; [lra|]. change (inject_Z 1) with 1%Q. lra.
    + apply Qlt_shift_div_r; [lra|]. change (inject_Z (1 + 1)) with 2%Q. lra.
  - assert (Hlt : (x < 360)%Q).
    { apply Qnot_le_lt. intros Hle. apply Qle_bool_iff in Hle. congruence. }
    rewrite (Qfloor_between (x / 360) 0).
    + change (inject_Z 0) with 0%Q. lra.
    + done.
    + apply Qlt_shift_div_r; [lra|]. change (inject_Z (0 + 1)) with 1%Q. lra.
Qed.

Lemma assignLevel_even (slots slots' : Slots) :
  fixedAnglesOf slots = [] ->
  assignLevel slots None = Some slots' ->
  forall k, (k < length slots)%nat ->
    exists a, slots' !! k = Some (Some a) /\
              (a == evenAngle (length slots) k)%Q.
Proof.
  intros Hnil Ha k Hk.
  assert (Hcase : forall x : Q,
            (x == 90 + 360 * inject_Z (Z.of_nat k) /
                         inject_Z (Z.of_nat (length slots)))%Q ->
            (JS.rem x 360 == evenAngle (length slots) k)%Q).
  { intros x Hx.
    assert (Hn : (0 < inject_Z (Z.of_nat (length slots)))%Q)
      by (change 0%Q with (inject_Z 0); rewrite <- Zlt_Qlt; lia).
    assert (Hk0 : (0 <= inject_Z (Z.of_nat k))%Q)
      by (change 0%Q with (inject_Z 0); rewrite <- Zle_Qle; lia).
    assert (Hk1 : (inject_Z (Z.of_nat k) <
                   inject_Z (Z.of_nat (length slots)))%Q)
      by (rewrite <- Zlt_Qlt; lia).
    assert (Hfrac : (0 <= inject_Z (Z.of_nat k) /
                          inject_Z (Z.of_nat (length slots)) < 1)%Q).
    { split.
      - apply Qle_shift_div_l; [done|]. lra.
      - apply Qlt_shift_div_r; [done|]. lra. }
    assert (Hx' : (x == 90 + 360 * (inject_Z (Z.of_nat k) /
                          inject_Z (Z.of_nat (length slots))))%Q).
    { rewrite Hx. field. lra. }
    rewrite rem_360 by lra.
    unfold evenAngle. cbv zeta.
    assert (Hb : Qle_bool 360 x =
                 Qle_bool 360 (90 + 360 * inject_Z (Z.of_nat k) /
                                 inject_Z (Z.of_nat (length slots))))
      by (by rewrite Hx).
    rewrite <- Hb. destruct (Qle_bool 360 x); rewrite Hx; reflexivity. }
  destruct k as [|k].
  { apply assignLevel_fixed in Ha as [_ Hfirst]; [|lia].
    specialize (Hfirst Hnil). exists 90%Q. split; [done|].
    rewrite <- (Hcase 90%Q).
    - reflexivity.
    - change (inject_Z (Z.of_nat 0)) with 0%Q. field.
      change 0%Q with (inject_Z 0). rewrite inject_Z_injective. lia. }
  unfold assignLevel in Ha. rewrite Hnil in Ha.
  cbn [length Nat.eqb wedgeLoop mbind option_bind] in Ha.
  unfold wedgeStep in Ha.
  change ([mkFixed 90 0] !! 0%nat) with (Some (mkFixed 90 0)) in Ha.
  change ([mkFixed 90 0] !! ((0 + 1) mod length [mkFixed 90 0])%nat)
    with (Some (mkFixed 90 0)) in Ha.
  cbn [mbind option_bind fangle findex] in Ha.
  change (JS.leb 90 90) with true in Ha. cbv iota in Ha.
  set (n := Z.of_nat (length slots)) in *.
  assert (Hn : 2 <= n) by lia.
  replace (Z.rem (0 - 0 - 1 + n) n) with (n - 1) in Ha
    by (rewrite Z.rem_small; lia).
  replace (Z.rem (0 + 1) n) with 1 in Ha by (rewrite Z.rem_small; lia).
  destruct (assignWedge _ _ _ _ _ _ _ _ _ _) as [s1|] eqn:Hw; [|done].
  cbn [mbind option_bind fst] in Ha. injection Ha as <-.
  apply assignWedge_values with (j := Z.of_nat k) in Hw.
  - replace ((1 + Z.of_nat k) mod n) with (Z.of_nat (S k)) in Hw
      by (rewrite Z.mod_small; lia).
    rewrite Nat2Z.id in Hw. eexists. split; [exact Hw|].
    apply Hcase. replace (1 + Z.of_nat k) with (Z.of_nat (S k)) by lia.
    replace (n - 1 + 1) with n by lia. subst n. field.
    change 0%Q with (inject_Z 0). rewrite inject_Z_injective. lia.
  - rewrite length_insert. done.
  - lia.
  - lia.
  - replace ((0 - 1) mod n) with (n - 1); [lia|].
    apply Z.mod_unique with (q := -1); lia.
Qed.



(** ** The ids *)

Lemma append_nil_r (s : string) : s +:+ "" = s.
Proof.
  induction s as [|c s IH]; [done|].
  change (String c (s +:+ "") = String c s). by rewrite IH.
Qed.

Lemma append_assoc (s1 s2 s3 : string) :
  (s1 +:+ s2) +:+ s3 = s1 +:+ (s2 +:+ s3).
Proof.
  induction s1 as [|c s1 IH]; [done|].
  change (String c ((s1 +:+ s2) +:+ s3) = String c (s1 +:+ (s2 +:+ s3))).
  by rewrite IH.
Qed.

Lemma lookup_updateItemIDsFrom i items parentID k :
  updateItemIDsFrom i items parentID !! k =
  (fun item => updateItemID item (i + k) parentID) <$> items !! k.
Proof.
  revert i k. induction items as [|item items IH]; intros i [|k]; simpl;
    [done | done | by rewrite Nat.add_0_r |].
  rewrite IH. by replace (S i + k)%nat with (i + S k)%nat by lia.
Qed.

Lemma assignedID_noID item i parentID :
  noID item ->
  assignedID item i parentID =
  Some (default "" parentID +:+ "/" +:+ pretty i).
Proof.
  unfold noID, assignedID. intros ->.
  destruct parentID as [p|]; [|done]. simpl. by destruct p.
Qed.

(** The id of an item of a tree without ids, after the assignment. *)
Lemma updateItemIDs_path path : forall items parentID item',
  EveryItem noID items ->
  itemAt (updateItemIDs items parentID) path = Some item' ->
  item_id item' = Some (default "" parentID +:+ pathID path).
Proof.
  induction path as [|i path IH]; intros items parentID item' Hno; [done|].
  cbn [itemAt]. unfold updateItemIDs at 1.
  rewrite lookup_updateItemIDsFrom. simpl.
  destruct (items !! i) as [item|] eqn:Hi; [|done]. simpl.
  apply EveryItem_inv in Hno.
  rewrite Forall_forall in Hno.
  destruct (Hno item) as [Hitem Hcs]; [by eapply list_elem_of_lookup_2|].
  destruct path as [|j path].
  - intros [= <-]. rewrite item_id_updateItemID, assignedID_noID by done.
    simpl. by rewrite append_nil_r.
  - rewrite updateItemID_unfold. cbn [item_children set_children].
    intros Hat. apply IH in Hat; [|done]. rewrite Hat.
    rewrite assignedID_noID by done. cbn [default pathID]. unfold id.
    by rewrite !append_assoc.
Qed.

Lemma itemAt_updateItemIDs path : forall items parentID item,
  itemAt items path = Some item ->
  is_Some (itemAt (updateItemIDs items parentID) path).
Proof.
  induction path as [|i path IH]; intros items parentID item; [done|].
  cbn [itemAt]. unfold updateItemIDs at 1.
  rewrite lookup_updateItemIDsFrom. simpl.
  destruct (items !! i) as [it|]; [|done]. simpl.
  destruct path as [|j path]; [by eexists|].
  rewrite updateItemID_unfold. cbn [item_children set_children].
  apply IH.
Qed.

(** X6: on a tree whose items bring no ids, the id that an item gets is the
    path of indices that leads to it, like /0/2/1, behind the id of the
    parent of the level. *)
Theorem default_ids_are_paths items parentID path item :
  EveryItem noID items ->
  itemAt items path = Some item ->
  exists item',
    itemAt (updateItemIDs items parentID) path = Some item' /\
    item_id item' = Some (default "" parentID +:+ pathID path).
Proof.
  intros Hno Hat.
  destruct (itemAt_updateItemIDs path items parentID item Hat)
    as [item' Hitem'].
  exists item'. split; [done|]. by eapply updateItemIDs_path.
Qed.

Lemma default_ids_are_paths_witness :
  exists item',
    itemAt (updateItemIDs [mkItem None None None None [];
                           mkItem None None None None
                             [mkItem None None None (Some "") []]] None)
      [1; 0]%nat = Some item' /\
    item_id item' = Some "/1/0".
Proof.
  apply (default_ids_are_paths
           [mkItem None None None None [];
            mkItem None None None None [mkItem None None None (Some "") []]]
           None [1; 0]%nat (mkItem None None None (Some "") [])).
  - constructor. repeat constructor.
  - reflexivity.
Defined.

(** The decimal digits hold no slash. *)
Lemma pretty_N_go_noSlash x : forall s, noSlash s -> noSlash (pretty_N_go x s).
Proof.
  induction (N.lt_wf_0 x) as [x _ IH]; intros s Hs.
  assert (x = 0 \/ 0 < x)%N as [->|Hpos] by lia.
  - by rewrite pretty_N_go_0.
  - rewrite pretty_N_go_step by done. apply IH.
    + by apply N.div_lt.
    + split; [|done]. unfold pretty_N_char. by repeat case_match.
Qed.

Lemma pretty_nat_noSlash (i : nat) : noSlash (pretty i).
Proof.
  unfold pretty, pretty_nat, pretty, pretty_N.
  case_decide; [by split|]. by apply pretty_N_go_noSlash.
Qed.

(** Two strings without a slash that are followed by the end or by a slash
    are equal if the whole strings are. *)
Lemma noSlash_split (a : string) : forall b r r' : string,
  noSlash a -> noSlash b ->
  (r = "" \/ exists t, r = String "/" t) ->
  (r' = "" \/ exists t, r' = String "/" t) ->
  a +:+ r = b +:+ r' -> a = b /\ r = r'.
Proof.
  induction a as [|c a IH]; intros [|d b] r r' Ha Hb Hr Hr'.
  - done.
  - change ("" +:+ r) with r. change (String d b +:+ r') with
      (String d (b +:+ r')). intros ->.
    destruct Hb as [Hd _]. destruct Hr as [|[t Ht]]; [done|].
    injection Ht as -> _. done.
  - change ("" +:+ r') with r'. change (String c a +:+ r) with
      (String c (a +:+ r)). intros <-.
    destruct Ha as [Hc _]. destruct Hr' as [|[t Ht]]; [done|].
    injection Ht as -> _. done.
  - change (String c a +:+ r) with (String c (a +:+ r)).
    change (String d b +:+ r') with (String d (b +:+ r')).
    intros [= -> Heq]. destruct Ha as [_ Ha]. destruct Hb as [_ Hb].
    destruct (IH b r r' Ha Hb Hr Hr' Heq) as [-> ->]. done.
Qed.

Lemma pathID_shape path :
  pathID path = "" \/ exists t, pathID path = String "/" t.
Proof. destruct path; [by left|right]. by eexists. Qed.

Lemma pathID_inj p : forall q, pathID p = pathID q -> p = q.
Proof.
  induction p as [|i p IH]; intros [|j q]; try done.
  cbn [pathID]. intros Heq. apply (inj (String.app "/")) in Heq.
  apply noSlash_split in Heq as [Hij Hpq];
    auto using pretty_nat_noSlash, pathID_shape.
  apply (inj pretty) in Hij as ->. by rewrite (IH q Hpq).
Qed.

(** X7: on a tree whose items bring no ids, different items get different
    ids: the items that two different paths lead to differ in their ids. *)
Theorem default_ids_distinct items parentID p q a b :
  EveryItem noID items ->
  itemAt (updateItemIDs items parentID) p = Some a ->
  itemAt (updateItemIDs items parentID) q = Some b ->
  p <> q ->
  item_id a <> item_id b.
Proof.
  intros Hno Ha Hb Hpq Hab. apply Hpq.
  apply updateItemIDs_path in Ha; [|done].
  apply updateItemIDs_path in Hb; [|done].
  rewrite Ha, Hb in Hab. injection Hab as Hab.
  apply (inj (String.app _)) in Hab. by apply pathID_inj.
Qed.

Lemma default_ids_distinct_witness :
  item_id (mkItem None None None (Some "/0") []) <>
  item_id (mkItem None None None (Some "/1/0") []).
Proof.
  apply (default_ids_distinct
           [mkItem None None None None [];
            mkItem None None None None [mkItem None None None None []]]
           None [0]%nat [1; 0]%nat).
  - constructor. repeat constructor.
  - reflexivity.
  - reflexivity.
  - discriminate.
Defined.

(** ** The id assignment, run again *)

Lemma updateItemID_fixed item : forall i parentID,
  JS.truthy (item_id item) = true ->
  EveryItem (fun item => JS.truthy (item_id item) = true)
    (item_children item) ->
  updateItemID item i parentID = item.
Proof.
  induction item as [n ic a d cs IH] using Item_ind'.
  intros i parentID Hid Hcs. rewrite updateItemID_unfold.
  unfold assignedID. cbn [item_id item_children] in *. rewrite Hid.
  unfold set_children, set_id. cbn. f_equal.
  apply EveryItem_inv in Hcs. unfold updateItemIDs. generalize 0%nat.
  induction cs as [|c cs IHcs]; intros k; simpl; [done|].
  apply Forall_cons in IH as [IHc IH].
  apply Forall_cons in Hcs as [[Hc Hcc] Hcs].
  f_equal; [by apply IHc | by apply IHcs].
Qed.

Lemma updateItemIDsFrom_fixed items : forall i parentID,
  EveryItem (fun item => JS.truthy (item_id item) = true) items ->
  updateItemIDsFrom i items parentID = items.
Proof.
  intros i parentID H. apply EveryItem_inv in H. revert i.
  induction H as [|item items [Hid Hcs] _ IH]; intros i; simpl; [done|].
  f_equal; [by apply updateItemID_fixed | apply IH].
Qed.

(** X8: the id assignment is idempotent: after one pass every item has an id,
    and a second pass, with whatever id of the parent, changes nothing. *)
Theorem updateItemIDs_idempotent items parentID parentID' :
  updateItemIDs (updateItemIDs items parentID) parentID' =
  updateItemIDs items parentID.
Proof.
  unfold updateItemIDs at 1. apply updateItemIDsFrom_fixed.
  apply (EveryItem_updateItemIDs (fun _ => True)).
  - intros item i p _. rewrite item_id_updateItemID.
    apply assignedID_truthy.
  - by apply EveryItem_trivial.
Qed.

(** ** The angle solver: what it leaves alone *)

Lemma forEachItem_erase callback items : forall slots items',
  Forall (fun item => forall a item',
    callback item a = Some item' -> eraseAngles item' = eraseAngles item)
    items ->
  forEachItem callback items slots = Some items' ->
  map eraseAngles items' = map eraseAngles items.
Proof.
  induction items as [|item items IH]; intros slots items' Hcb; simpl.
  - by intros [= <-].
  - destruct slots as [|a slots]; [done|].
    apply Forall_cons in Hcb as [Hitem Hcb].
    destruct (callback item a) as [item1|] eqn:Hc; [|done].
    cbn [mbind option_bind].
    destruct (forEachItem callback items slots) as [rest|] eqn:Hr; [|done].
    cbn [mbind option_bind]. intros [= <-]. simpl.
    f_equal; [by eapply Hitem | by eapply IH].
Qed.

Lemma updateItemAnglesWith_erase callback items pa ok items' :
  Forall (fun item => forall a item',
    callback item a = Some item' -> eraseAngles item' = eraseAngles item)
    items ->
  updateItemAnglesWith callback items pa = Some (ok, items') ->
  map eraseAngles items' = map eraseAngles items.
Proof.
  intros Hcb. unfold updateItemAnglesWith.
  destruct (length items =? 0)%nat; [by intros [= _ <-]|].
  destruct (negb _); [by intros [= _ <-]|].
  destruct (assignLevel _ _) as [slots'|]; [|done].
  cbn [mbind option_bind].
  destruct (forEachItem callback items slots') as [its|] eqn:Hf; [|done].
  cbn [mbind option_bind]. intros [= _ <-].
  by eapply forEachItem_erase.
Qed.

Lemma updateChildAngles_erase item : forall a item',
  updateChildAngles item a = Some item' ->
  eraseAngles item' = eraseAngles item.
Proof.
  induction item as [n ic a0 d cs IH] using Item_ind'. intros a item'.
  rewrite updateChildAngles_unfold. cbn [item_children].
  destruct (updateItemAngles cs (childParentAngle a)) as [[ok cs']|] eqn:Hu;
    [|done].
  cbn [mbind option_bind snd]. intros [= <-]. simpl. f_equal.
  by eapply updateItemAnglesWith_erase.
Qed.

(** X4: the solver returns on every tree of items, whatever angles the items
    bring, and it writes nothing but angles: the names, the icons, the ids
    and the shape of the tree are as before. *)
Theorem updateItemAngles_writes_angles_only items pa :
  exists ok items',
    updateItemAngles items pa = Some (ok, items') /\
    map eraseAngles items' = map eraseAngles items.
Proof.
  destruct (updateItemAngles_total items pa) as (ok & items' & H & _).
  exists ok, items'. split; [done|].
  eapply updateItemAnglesWith_erase; [|exact H].
  apply Forall_forall. intros item _. apply updateChildAngles_erase.
Qed.

(** X5: the value that the solver returns does not depend on the items below
    the level it is called on: two lists of items that agree in the angles
    of the items themselves get the same answer. *)
Theorem updateItemAngles_result_of_level items1 items2 pa :
  map item_angle items1 = map item_angle items2 ->
  fst <$> updateItemAngles items1 pa = fst <$> updateItemAngles items2 pa.
Proof.
  intros Heq. destruct items1 as [|i1 items1], items2 as [|i2 items2];
    try done.
  rewrite !updateItemAngles_verdict by done. by rewrite Heq.
Qed.

Lemma updateItemAngles_result_of_level_witness :
  fst <$> updateItemAngles
            [mkItem None None (Some 90%Q) None
               [mkItem None None (Some 400%Q) None []]] None =
  fst <$> updateItemAngles [mkItem None None (Some 90%Q) None []] None.
Proof.
  apply (updateItemAngles_result_of_level
           [mkItem None None (Some 90%Q) None
              [mkItem None None (Some 400%Q) None []]]
           [mkItem None None (Some 90%Q) None []] None).
  reflexivity.
Defined.

(** ** Clamping: inner points, order and a monitor that is too small *)

Lemma clampAxis_inner (x : Z) (lo hi : Q) :
  (lo <= inject_Z x <= hi)%Q ->
  JS.floor (JS.min (JS.max (inject_Z x) lo) hi) = x.
Proof.
  intros [Hlo Hhi]. unfold JS.floor, JS.min, JS.max.
  rewrite (Qfloor_comp _ (inject_Z x)); [apply Qfloor_Z|].
  rewrite Q.max_l by done. by rewrite Q.min_l.
Qed.

Lemma clampAxis_monotone (x x' lo hi : Q) :
  (x <= x')%Q ->
  JS.floor (JS.min (JS.max x lo) hi) <= JS.floor (JS.min (JS.max x' lo) hi).
Proof.
  intros Hle. unfold JS.floor, JS.min, JS.max.
  apply Qfloor_resp_le, Q.min_le_compat_r, Q.max_le_compat_r, Hle.
Qed.


(** X9: a pointer at a whole-numbered position inside the allowed area stays
    where it is: clamping returns the position itself, and the pointer is
    not warped. *)
Theorem clamp_keeps_inner_points settings monitor (x y : Z) b m :
  let lo := (10 + maxSize settings / 2)%Q in
  (lo <= inject_Z x <= monitor_width monitor - lo)%Q ->
  (lo <= inject_Z y <= monitor_height monitor - lo)%Q ->
  clampToToMonitor settings monitor (inject_Z x) (inject_Z y) 10 = (x, y) /\
  clampAndWarp settings monitor (mkPointer (inject_Z x) (inject_Z y) b) m =
    m.
Proof.
  intros lo Hx Hy.
  assert (Hc : clampToToMonitor settings monitor (inject_Z x) (inject_Z y)
                 10 = (x, y)).
  { unfold clampToToMonitor. cbv zeta. f_equal; by apply clampAxis_inner. }
  split; [done|]. unfold clampAndWarp, pointerMoved.
  cbn [pointerX pointerY]. rewrite Hc. cbn [fst snd].
  by rewrite !Qeq_bool_refl.
Qed.

Lemma clamp_keeps_inner_points_witness :
  clampToToMonitor exampleSettings exampleMonitor
    (inject_Z 100) (inject_Z 200) 10 = (100, 200) /\
  clampAndWarp exampleSettings exampleMonitor
    (mkPointer (inject_Z 100) (inject_Z 200) true) newMenu = newMenu.
Proof.
  apply (clamp_keeps_inner_points exampleSettings exampleMonitor 100 200
           true newMenu).
  - vm_compute. split; discriminate.
  - vm_compute. split; discriminate.
Defined.

(** X10: clamping keeps the order of the positions on each axis. *)
Theorem clamp_monotone settings monitor (x y x' y' margin : Q) :
  (x <= x')%Q -> (y <= y')%Q ->
  fst (clampToToMonitor settings monitor x y margin) <=
    fst (clampToToMonitor settings monitor x' y' margin) /\
  snd (clampToToMonitor settings monitor x y margin) <=
    snd (clampToToMonitor settings monitor x' y' margin).
Proof.
  intros Hx Hy. unfold clampToToMonitor. cbn [fst snd].
  split; by apply clampAxis_monotone.
Qed.

Lemma clamp_monotone_witness :
  fst (clampToToMonitor exampleSettings exampleMonitor 3 2000 10) <=
    fst (clampToToMonitor exampleSettings exampleMonitor 500 2500 10) /\
  snd (clampToToMonitor exampleSettings exampleMonitor 3 2000 10) <=
    snd (clampToToMonitor exampleSettings exampleMonitor 500 2500 10).
Proof.
  apply (clamp_monotone exampleSettings exampleMonitor 3 2000 500 2500 10).
  - vm_compute. discriminate.
  - vm_compute. discriminate.
Defined.



(** ** The menu under all its signals *)

Lemma set_tree_members t m :
  menuID (set_tree t m) = menuID m /\
  menuSelectionChain (set_tree t m) = menuSelectionChain m /\
  draggedChild (set_tree t m) = draggedChild m /\
  effects (set_tree t m) = effects m.
Proof. unfold set_tree. by destruct (root m). Qed.

Lemma clampAndWarp_members settings monitor ptr m :
  draggedChild (clampAndWarp settings monitor ptr m) = draggedChild m /\
  reports (clampAndWarp settings monitor ptr m) = reports m.
Proof.
  unfold clampAndWarp. destruct (pointerMoved _ _); [|done].
  split; [done|]. unfold reports, emit. cbn [effects].
  by rewrite List.filter_app, app_nil_r.
Qed.

Lemma reports_emit e m :
  reports (emit e m) = reports m ++ (if isReport e then [e] else []).
Proof.
  unfold reports, emit. cbn [effects]. rewrite List.filter_app. simpl.
  by destruct (isReport e).
Qed.

Lemma Consistent_members m m' :
  menuID m' = menuID m ->
  menuSelectionChain m' = menuSelectionChain m ->
  draggedChild m' = draggedChild m ->
  Consistent m -> Consistent m'.
Proof. unfold Consistent. by intros -> -> ->. Qed.

Lemma Consistent_active m c :
  Consistent m -> menuSelectionChain m !! 0%nat = Some c ->
  exists id, menuID m = Some id.
Proof.
  intros [Hid _] Hc. destruct (menuID m) as [id|]; [by eexists|].
  rewrite (proj1 Hid eq_refl) in Hc. done.
Qed.

(** Closing the menu, after the call of a callback or without one. *)
Lemma hide_closes m :
  Consistent m -> Consistent (hide m) /\ menuID (hide m) = None /\
  reports (hide m) = reports m.
Proof.
  intros [Hid Hdrag]. unfold hide.
  destruct (menuID m) as [id|] eqn:E.
  - repeat split; try done. unfold reports. simpl.
    by rewrite List.filter_app, app_nil_r.
  - repeat split; try done; rewrite ?E; tauto.
Qed.

Lemma Consistent_emit e m : Consistent m -> Consistent (emit e m).
Proof. by apply Consistent_members. Qed.

Section Signals.

Variable settings : Settings.
Variable monitor : Monitor.
Variable redraw : MenuItem -> MenuItem.

Lemma childHovered_react index ptr m m' :
  Consistent m ->
  childHovered redraw index ptr m = Some m' ->
  Consistent m' /\ Quiet m m'.
Proof.
  intros Hc. unfold childHovered. intros H.
  destruct (tree m) as [t|]; [|done]. cbn [mbind option_bind] in H.
  destruct (menuSelectionChain m !! 0%nat) as [center|] eqn:Hcenter; [|done].
  cbn [mbind option_bind] in H.
  destruct (getItem t center); [|done]. cbn [mbind option_bind] in H.
  match type of H with (?tm ≫= _) = _ => destruct tm as [[t' m1]|] eqn:Htm end;
    [|done].
  cbn [mbind option_bind fst snd] in H. injection H as <-.
  destruct (set_tree_members (redraw t') m1) as (Hid & Hch & Hdr & Heff).
  assert (Hm1 : menuID m1 = menuID m /\
                menuSelectionChain m1 = menuSelectionChain m /\
                effects m1 = effects m /\
                (draggedChild m1 = None \/
                 exists i, draggedChild m1 = Some (center ++ [i]))).
  { destruct (button1 ptr && (0 <=? index)).
    - match type of Htm with (?c ≫= _) = _ => destruct c end; [|done].
      cbn [mbind option_bind] in Htm.
      destruct (nthZ _ _); [|done]. cbn [mbind option_bind] in Htm.
      injection Htm as _ <-. repeat split; try done. right. by eexists.
    - injection Htm as _ <-. repeat split; try done. by left. }
  destruct Hm1 as (Hid1 & Hch1 & Heff1 & Hdr1).
  split.
  - destruct Hc as [Hnull _]. split.
    + rewrite Hid, Hch, Hid1, Hch1. done.
    + intros r. rewrite Hdr, Hch, Hch1. intros Hr.
      destruct Hdr1 as [Hn|[i Hi]]; [congruence|].
      exists center, i. split; [done|]. congruence.
  - split; [congruence|]. unfold reports. congruence.
Qed.

Lemma childSelected_react index ptr m m' :
  Consistent m ->
  childSelected settings monitor redraw index ptr m = Some m' ->
  Consistent m' /\ (Quiet m m' \/ Reported m m').
Proof.
  intros Hc. unfold childSelected. intros H.
  destruct (tree m) as [t|]; [|done]. cbn [mbind option_bind] in H.
  destruct (menuSelectionChain m !! 0%nat) as [parent|] eqn:Hparent; [|done].
  cbn [mbind option_bind] in H.
  destruct (getItem t parent) as [parentItem|]; [|done].
  cbn [mbind option_bind] in H.
  destruct (nthZ _ _) as [childItem|]; [|done].
  cbn [mbind option_bind] in H.
  destruct (button1 ptr && _).
  { injection H as <-. split; [done|]. by left. }
  destruct (Consistent_active m parent Hc Hparent) as [id Hid].
  match type of H with context [set_tree ?a ?b] =>
    set (m5 := set_tree a b) in * end.
  assert (Hm5 : menuID m5 = Some id /\
                menuSelectionChain m5 =
                  (parent ++ [Z.to_nat index]) :: menuSelectionChain m /\
                draggedChild m5 = None /\ reports m5 = reports m).
  { unfold m5.
    match goal with |- context [set_tree ?a ?b] =>
      destruct (set_tree_members a b) as (-> & -> & -> & Heff) end.
    unfold reports. rewrite Heff. fold (reports m).
    destruct (0 <? length (mi_children childItem))%nat.
    - cbn [menuID menuSelectionChain draggedChild emit].
      match goal with |- context [clampAndWarp _ _ ?p ?x] =>
        destruct (clampAndWarp_fields settings monitor p x) as (-> & _ & ->);
        destruct (clampAndWarp_members settings monitor p x) as (-> & Hr) end.
      repeat split; try done;
        match goal with |- List.filter _ (effects ?x) = _ =>
          change (reports x = reports m) end;
        by rewrite reports_emit, Hr, app_nil_r.
    - match goal with |- context [clampAndWarp _ _ ?p ?x] =>
        destruct (clampAndWarp_fields settings monitor p x) as (-> & _ & ->);
        destruct (clampAndWarp_members settings monitor p x) as (-> & Hr) end.
      repeat split; try done;
        match goal with |- List.filter _ (effects ?x) = _ =>
          change (reports x = reports m) end;
        by rewrite Hr. }
  clearbody m5. destruct Hm5 as (Hid5 & Hch5 & Hdr5 & Hrep5).
  assert (Hc5 : Consistent m5).
  { split; [by rewrite Hid5, Hch5 | by rewrite Hdr5]. }
  destruct (tree m5) as [t5|]; [|done]. cbn [mbind option_bind] in H.
  destruct (getItem t5 _) as [childItem5|]; [|done].
  cbn [mbind option_bind] in H.
  destruct (length (mi_children childItem5) =? 0)%nat.
  - injection H as <-.
    destruct (hide_closes (emit (OnSelect (menuID m5) (mi_id childItem5)) m5))
      as (Hch & Hidh & Hreph); [by apply Consistent_emit|].
    split; [done|]. right.
    exists id, (OnSelect (Some id) (mi_id childItem5)).
    repeat split; try done.
    + by rewrite Hreph, reports_emit, Hid5, Hrep5.
    + right. by eexists.
  - injection H as <-. split; [done|]. left. split; congruence.
Qed.

Lemma parentHovered_react m m' :
  Consistent m ->
  parentHovered redraw m = Some m' ->
  Consistent m' /\ Quiet m m'.
Proof.
  intros Hc. unfold parentHovered. intros H.
  destruct (tree m) as [t|]; [|done]. cbn [mbind option_bind] in H.
  destruct (menuSelectionChain m !! 0%nat) as [center|]; [|done].
  cbn [mbind option_bind] in H.
  destruct (getItem t center); [|done]. cbn [mbind option_bind] in H.
  destruct (menuSelectionChain m !! 1%nat) as [parent|]; [|done].
  cbn [mbind option_bind] in H.
  destruct (getItem t parent); [|done]. cbn [mbind option_bind] in H.
  injection H as <-.
  match goal with |- context [set_tree ?a ?b] =>
    destruct (set_tree_members a b) as (Hid & Hch & Hdr & Heff) end.
  split.
  - destruct Hc as [Hnull _]. split; [|done].
    cbn [menuID menuSelectionChain set_draggedChild]. by rewrite Hid, Hch.
  - split; [done|]. unfold reports.
    cbn [effects set_draggedChild]. by rewrite Heff.
Qed.

Lemma parentSelected_react ptr m m' :
  Consistent m ->
  parentSelected settings monitor redraw ptr m = Some m' ->
  Consistent m' /\ Quiet m m'.
Proof.
  intros Hc. unfold parentSelected. intros H.
  destruct (tree m) as [t|]; [|done]. cbn [mbind option_bind] in H.
  destruct (menuSelectionChain m !! 1%nat) as [parent|] eqn:Hparent; [|done].
  cbn [mbind option_bind] in H.
  destruct (getItem t parent) as [parentItem|]; [|done].
  cbn [mbind option_bind] in H.
  match type of H with context [clampAndWarp _ _ ?p ?x] =>
    set (m2 := clampAndWarp settings monitor p x) in *;
    destruct (clampAndWarp_fields settings monitor p x) as (Hid2 & _ & Hch2);
    destruct (clampAndWarp_members settings monitor p x) as (_ & Hrep2) end.
  fold m2 in Hid2, Hch2, Hrep2. clearbody m2.
  cbn [menuID menuSelectionChain set_chain] in Hid2, Hch2.
  change (reports m2 = reports m) in Hrep2.
  destruct (menuSelectionChain m) as [|c [|p rest]] eqn:Hchain; try done.
  assert (Hid : exists id, menuID m = Some id).
  { destruct Hc as [Hnull _]. destruct (menuID m); [by eexists|].
    pose proof (proj1 Hnull eq_refl) as Hn. congruence. }
  destruct Hid as [id Hid]. cbn [tail] in Hch2.
  match type of H with (last (menuSelectionChain ?x) ≫= _) = _ =>
    set (m3 := x) in *;
    assert (Hm3 : menuID m3 = Some id /\
                  menuSelectionChain m3 = p :: rest /\
                  reports m3 = reports m) end.
  { unfold m3. destruct (1 <? length (menuSelectionChain m2))%nat;
      cbn [menuID menuSelectionChain emit];
      (repeat split; [congruence | done |]);
      by rewrite reports_emit, Hrep2, app_nil_r. }
  clearbody m3. destruct Hm3 as (Hid3 & Hch3 & Hrep3).
  destruct (last _); [|done]. cbn [mbind option_bind] in H.
  injection H as <-.
  match goal with |- context [set_tree ?a ?b] =>
    destruct (set_tree_members a b) as (Hidt & Hcht & Hdrt & Heff) end.
  cbn [menuID menuSelectionChain draggedChild effects set_draggedChild]
    in Hidt, Hcht, Hdrt, Heff.
  split.
  - split; [by rewrite Hidt, Hcht, Hid3, Hch3 | by rewrite Hdrt].
  - split; [congruence|]. unfold reports. rewrite Heff. exact Hrep3.
Qed.

Lemma closing_react (m : Menu) :
  Consistent m ->
  let m' := hide (emit (OnCancel (menuID m)) m) in
  Consistent m' /\ (Quiet m m' \/ Reported m m').
Proof.
  intros Hc m'.
  destruct (hide_closes (emit (OnCancel (menuID m)) m))
    as (Hch & Hidh & Hreph); [by apply Consistent_emit|].
  split; [done|]. fold m' in Hidh, Hreph.
  rewrite reports_emit in Hreph.
  destruct (menuID m) as [id|] eqn:Hid.
  - right. exists id, (OnCancel (Some id)). repeat split; try done. by left.
  - left. split; [congruence|]. by rewrite Hreph, app_nil_r.
Qed.

Lemma motionEvent_react b hovered m m' :
  Consistent m ->
  motionEvent b hovered m = Some m' ->
  Consistent m' /\ Quiet m m'.
Proof.
  intros Hc. unfold motionEvent. intros H.
  destruct b; [|by injection H as <-].
  destruct (draggedChild m); [by injection H as <-|].
  destruct (0 <=? hovered); [|by injection H as <-].
  destruct (tree m) as [t|]; [|done]. cbn [mbind option_bind] in H.
  destruct (menuSelectionChain m !! 0%nat) as [center|] eqn:Hcenter; [|done].
  cbn [mbind option_bind] in H.
  destruct (getItem t center); [|done]. cbn [mbind option_bind] in H.
  destruct (nthZ _ _); [|done]. cbn [mbind option_bind] in H.
  injection H as <-.
  match goal with |- context [set_tree ?a ?b] =>
    destruct (set_tree_members a b) as (Hid & Hch & Hdr & Heff) end.
  split.
  - destruct Hc as [Hnull _]. split.
    + cbn [menuID menuSelectionChain set_draggedChild]. by rewrite Hid, Hch.
    + cbn [draggedChild menuSelectionChain set_draggedChild].
      intros r [= <-]. rewrite Hch. by eexists _, _.
  - split; [done|]. unfold reports.
    cbn [effects set_draggedChild]. by rewrite Heff.
Qed.

Lemma show_react menuID' structure previewMode' grab ptr m r :
  Consistent m ->
  show settings monitor redraw menuID' structure previewMode' grab ptr m =
    Some r ->
  Consistent (snd r).
Proof.
  intros Hc. unfold show.
  destruct (JS.truthy (menuID m)); [by intros [= <-]|].
  destruct (negb _); [by intros [= <-]|].
  destruct (updateItemAngles _ _) as [[ok items']|]; [|done].
  cbn [mbind option_bind fst snd].
  assert (Hd : Consistent (set_previewMode previewMode' (destroyRoot m))).
  { revert Hc. apply Consistent_members; unfold destroyRoot;
      by destruct (root m). }
  destruct ok; cbn [negb]; [|by intros [= <-]].
  destruct grab; cbn [negb]; [|by intros [= <-]].
  intros [= <-]. cbn [snd].
  match goal with |- Consistent (if _ then ?x else _) =>
    assert (Hx : Consistent x) end.
  { destruct Hd as [Hnull Hdrag]. split.
    - cbn. split; [done|]. by destruct (menuSelectionChain _).
    - cbn. cbn in Hdrag. intros r Hr.
      destruct (Hdrag r Hr) as (c & i & Hc0 & ->).
      exists c, i. split; [|done]. by apply lookup_app_l_Some. }
  destruct previewMode'; [done|].
  revert Hx. apply Consistent_members.
  - apply clampAndWarp_fields.
  - apply clampAndWarp_fields.
  - apply clampAndWarp_members.
Qed.

Lemma react_Consistent s m m' :
  Consistent m -> react settings monitor redraw s m = Some m' ->
  Consistent m'.
Proof.
  intros Hc. destruct s as [id st pm grab ptr|e|b h|faded| |]; simpl.
  - destruct (show _ _ _ _ _ _ _ _ _) as [r|] eqn:Hs; [|done].
    cbn [mbind option_bind]. intros [= <-]. by eapply show_react.
  - destruct e as [index ptr|index ptr| |ptr|]; simpl; intros H.
    + by eapply childHovered_react.
    + by eapply childSelected_react.
    + by eapply parentHovered_react.
    + by eapply parentSelected_react.
    + unfold cancelSelection in H. injection H as <-.
      by apply closing_react.
  - intros H. by eapply motionEvent_react.
  - intros [= <-]. revert Hc. apply Consistent_members;
      unfold transitionsCompleted; destruct (root m); try done;
      by destruct faded.
  - unfold closeEvent. intros [= <-]. by apply closing_react.
  - intros [= <-]. unfold onSettingsChange. destruct (tree m); [|done].
    revert Hc. apply Consistent_members; apply set_tree_members.
Qed.

Lemma react_reports s m m' :
  isShowRequest s = false ->
  Consistent m -> react settings monitor redraw s m = Some m' ->
  Quiet m m' \/ Reported m m'.
Proof.
  intros Hs Hc. destruct s as [id st pm grab ptr|e|b h|faded| |]; simpl;
    [done|..].
  - destruct e as [index ptr|index ptr| |ptr|]; simpl; intros H.
    + left. by eapply childHovered_react.
    + by eapply childSelected_react.
    + left. by eapply parentHovered_react.
    + left. by eapply parentSelected_react.
    + unfold cancelSelection in H. injection H as <-.
      by apply closing_react.
  - intros H. left. by eapply motionEvent_react.
  - intros [= <-]. left. unfold Quiet, reports, transitionsCompleted.
    destruct (root m); [|done]. by destruct faded.
  - unfold closeEvent. intros [= <-]. by apply closing_react.
  - intros [= <-]. left. unfold Quiet, reports, onSettingsChange.
    destruct (tree m); [|done].
    match goal with |- context [set_tree ?a ?b] =>
      destruct (set_tree_members a b) as (-> & _ & _ & ->) end. done.
Qed.

Lemma reactAll_Consistent ss : forall m m',
  Consistent m -> reactAll settings monitor redraw ss m = Some m' ->
  Consistent m'.
Proof.
  induction ss as [|s ss IH]; intros m m' Hc; simpl; [by intros [= <-]|].
  destruct (react _ _ _ s m) as [m1|] eqn:Hs; [|done].
  cbn [mbind option_bind]. apply IH. by eapply react_Consistent.
Qed.

End Signals.

Lemma newMenu_Consistent : Consistent newMenu.
Proof. split; [done|]. by intros r. Qed.

(** X13: whatever reaches the menu after its construction, show requests, the
    signals of the selection wedges, motion, the end of a transition, the
    close button or a change of the settings, and however the items redraw
    themselves: the menu ID is null exactly when the selection chain is
    empty, and a dragged child is a child of the first item of the chain. *)
Theorem reachable_menu_consistent settings monitor redraw ss m :
  reactAll settings monitor redraw ss newMenu = Some m ->
  Consistent m.
Proof. apply reactAll_Consistent, newMenu_Consistent. Qed.

Lemma reachable_menu_consistent_witness :
  exists m,
    reactAll exampleSettings exampleMonitor redrawExample
      [ShowRequest "m1" nestedStructure false true examplePointer;
       MotionEvent true 0;
       Wedges (ChildHovered 1 (mkPointer 100 100 true));
       SettingsChanged] newMenu = Some m /\
    draggedChild m = Some [1%nat] /\ Consistent m.
Proof.
  eexists. split; [vm_compute; reflexivity|]. split; [reflexivity|].
  apply (reachable_menu_consistent exampleSettings exampleMonitor
           redrawExample
           [ShowRequest "m1" nestedStructure false true examplePointer;
            MotionEvent true 0;
            Wedges (ChildHovered 1 (mkPointer 100 100 true));
            SettingsChanged]).
  vm_compute. reflexivity.
Defined.

Lemma closed_stays_quiet settings monitor redraw ss : forall m m',
  Consistent m -> menuID m = None ->
  forallb (fun s => negb (isShowRequest s)) ss = true ->
  reactAll settings monitor redraw ss m = Some m' ->
  menuID m' = None /\ reports m' = reports m.
Proof.
  induction ss as [|s ss IH]; intros m m' Hc Hid Hss; simpl;
    [by intros [= <-]|].
  simpl in Hss. apply andb_prop in Hss as [Hs Hss].
  apply negb_true_iff in Hs.
  destruct (react _ _ _ s m) as [m1|] eqn:Hr; [|done].
  cbn [mbind option_bind]. intros Hrun.
  pose proof (react_Consistent _ _ _ _ _ _ Hc Hr) as Hc1.
  destruct (react_reports _ _ _ _ _ _ Hs Hc Hr) as [[Hid1 Hrep1]|Hrep].
  - destruct (IH m1 m' Hc1) as [Hid' Hrep']; try done; [congruence|].
    split; [done|]. congruence.
  - destruct Hrep as (id & r & Hsome & _). congruence.
Qed.

Lemma session_reports settings monitor redraw ss : forall m id m',
  Consistent m -> menuID m = Some id ->
  forallb (fun s => negb (isShowRequest s)) ss = true ->
  reactAll settings monitor redraw ss m = Some m' ->
  (menuID m' = Some id /\ reports m' = reports m) \/
  (menuID m' = None /\
   exists r, reports m' = reports m ++ [r] /\ reportOf id r).
Proof.
  induction ss as [|s ss IH]; intros m id m' Hc Hid Hss; simpl.
  { intros [= <-]. by left. }
  simpl in Hss. apply andb_prop in Hss as [Hs Hss].
  apply negb_true_iff in Hs.
  destruct (react _ _ _ s m) as [m1|] eqn:Hr; [|done].
  cbn [mbind option_bind]. intros Hrun.
  pose proof (react_Consistent _ _ _ _ _ _ Hc Hr) as Hc1.
  destruct (react_reports _ _ _ _ _ _ Hs Hc Hr) as [[Hid1 Hrep1]|Hrep].
  - rewrite <- Hrep1. apply (IH m1 id m' Hc1); [congruence|done|done].
  - destruct Hrep as (id' & r & Hsome & Hnone & Hreps & Hr').
    assert (id' = id) as -> by congruence.
    destruct (closed_stays_quiet _ _ _ ss m1 m' Hc1 Hnone Hss Hrun)
      as [Hid' Hrep'].
    right. split; [done|]. exists r. split; [congruence|done].
Qed.

(** X14: a menu that is open reports once: as long as no new show request
    arrives, none of the two callbacks is called for a menu while it stays
    open, and exactly one call, a selection or a cancellation with the ID of
    the menu, has been made once it is closed; whatever arrives later
    adds no call that names a menu. *)
Theorem open_menu_reports_once settings monitor redraw ss0 ss m id m' :
  reactAll settings monitor redraw ss0 newMenu = Some m ->
  menuID m = Some id ->
  forallb (fun s => negb (isShowRequest s)) ss = true ->
  reactAll settings monitor redraw ss m = Some m' ->
  (menuID m' = Some id /\ reports m' = reports m) \/
  (menuID m' = None /\
   exists r, reports m' = reports m ++ [r] /\ reportOf id r).
Proof.
  intros Hreach. apply session_reports.
  by eapply reactAll_Consistent; [apply newMenu_Consistent|].
Qed.

Lemma open_menu_reports_once_witness :
  exists m',
    reactAll exampleSettings exampleMonitor redrawExample
      [Wedges (ChildHovered 0 examplePointer);
       Wedges (ChildSelected 0 examplePointer);
       Wedges CancelSelection;
       TransitionsCompleted true] exampleMenu = Some m' /\
    ((menuID m' = Some "m1" /\ reports m' = reports exampleMenu) \/
     (menuID m' = None /\
      exists r, reports m' = reports exampleMenu ++ [r] /\
                reportOf "m1" r)).
Proof.
  eexists. split; [vm_compute; reflexivity|].
  apply (open_menu_reports_once exampleSettings exampleMonitor
           redrawExample
           [ShowRequest "m1" exampleStructure false true examplePointer]
           [Wedges (ChildHovered 0 examplePointer);
            Wedges (ChildSelected 0 examplePointer);
            Wedges CancelSelection;
            TransitionsCompleted true] exampleMenu "m1").
  - vm_compute. reflexivity.
  - reflexivity.
  - reflexivity.
  - vm_compute. reflexivity.
Defined.

(** ** The result of a show request *)

(** X12: a show request always returns, and four tests decide in this order
    what it returns: the menu is active, the root has no children, the fixed
    angles of the children of the root are invalid, the input cannot be
    grabbed.  The items below the children of the root have no say.  The
    menu ID is set exactly when the request is accepted. *)
Theorem show_result_decided settings monitor redraw menuID' structure
    previewMode' grab ptr m :
  exists structure' m',
    show settings monitor redraw menuID' structure previewMode' grab ptr m =
      Some (showResult menuID' structure grab m, structure', m') /\
    menuID m' =
      match showResult menuID' structure grab m with
      | Shown id => Some id
      | Failed _ => menuID m
      end.
Proof.
  unfold show, showResult.
  destruct (JS.truthy (menuID m)); [by eexists _, _|].
  destruct (item_children structure) as [|c cs] eqn:Hcs; [by eexists _, _|].
  cbn [length Nat.ltb Nat.leb negb Nat.eqb].
  destruct (rootDefaults_fields structure) as (_ & _ & _ & Hch).
  cbn [item_children set_angle]. rewrite Hch, Hcs.
  destruct (updateItemAngles_total (c :: cs) None) as (ok & items' & Hu & _).
  pose proof (updateItemAngles_verdict (c :: cs) None ltac:(done)) as Hv.
  rewrite Hu in Hv. injection Hv as ->. rewrite Hu.
  cbn [mbind option_bind fst snd].
  assert (Hd : menuID (set_previewMode previewMode' (destroyRoot m)) =
               menuID m) by (unfold destroyRoot; by destruct (root m)).
  destruct (levelValid _ _); cbn [negb]; [|by eexists _, _].
  destruct grab; cbn [negb]; [|by eexists _, _].
  eexists _, _. split; [done|].
  destruct previewMode'; [done|].
  by rewrite (proj1 (clampAndWarp_fields _ _ _ _)).
Qed.

(** ** The angle solver: the angles of a level differ *)










Section Level.

Variable n : Z.
Variable fixedAngles : list FixedAngle.

Hypothesis fixed_range : forall f, f ∈ fixedAngles ->
  0 <= findex f < n /\ (0 <= fangle f < 360)%Q.
Hypothesis fixed_sorted :
  StronglySorted (fun f g => findex f < findex g) fixedAngles.
Hypothesis fixed_increase : forall i j x y, (i < j)%nat ->
  fixedAngles !! i = Some x -> fixedAngles !! j = Some y ->
  (fangle x < fangle y)%Q.













End Level.







(** ** The angle solver on a whole tree *)









(** ** The angle solver, run again on its own result *)

(** On a valid level the fixed angles grow with the index. *)
Lemma levelValid_increasing (slots : Slots) pa i j a b :
  levelValid slots pa = true -> (i < j)%nat ->
  slots !! i = Some (Some a) -> slots !! j = Some (Some b) ->
  (0 <= a)%Q -> (0 <= b)%Q -> (a < b)%Q.
Proof.
  intros Hvalid Hij Hi Hj Ha Hb.
  unfold levelValid in Hvalid. apply andb_true_iff in Hvalid as [Hinc _].
  apply anglesIncrease_true in Hinc as (_ & _ & Hs).
  pose proof (fixedAnglesFrom_complete 0 _ _ _ Hi Ha) as Hfi.
  pose proof (fixedAnglesFrom_complete 0 _ _ _ Hj Hb) as Hfj.
  apply list_elem_of_lookup_1 in Hfi as [pi Hpi].
  apply list_elem_of_lookup_1 in Hfj as [pj Hpj].
  fold (fixedAnglesOf slots) in Hpi, Hpj.
  assert (Hlt : (pi < pj)%nat).
  { destruct (Nat.lt_ge_cases pi pj) as [Hlt|Hge]; [done|].
    pose proof (sorted_lookup_le _ pj pi _ _
                  (fixedAnglesFrom_sorted 0 slots) Hge Hpj Hpi) as Hle.
    simpl in Hle. lia. }
  apply (Hs pi pj); [done|..]; rewrite list_lookup_fmap;
    [by rewrite Hpi | by rewrite Hpj].
Qed.

(** X18: the result of the solver is not always a request that the solver
    accepts: four or more items without fixed angles and without a parent
    link are spread from 90 degrees over the full circle, so that the
    last item ends up below the first one; taken as fixed angles these do
    not increase, and a second pass over the result returns false. *)
Theorem solver_rejects_its_own_result items items' :
  fixedValues items = [] -> (4 <= length items)%nat ->
  updateItemAngles items None = Some (true, items') ->
  fst <$> updateItemAngles items' None = Some false.
Proof.
  intros Hnil Hlen Hsolve.
  assert (Hne : items <> []) by (destruct items; [simpl in Hlen; lia|done]).
  destruct (updateItemAngles_accepted _ _ _ Hne Hsolve) as [_ Hlevel].
  destruct (updateItemAngles_total items None) as (ok & its & Hu & Hlen').
  rewrite Hsolve in Hu. injection Hu as <- <-.
  assert (Hne' : items' <> []).
  { destruct items'; [simpl in Hlen'; lia | done]. }
  rewrite (updateItemAngles_verdict items' None Hne'). f_equal.
  destruct (levelValid (map item_angle items') None) eqn:Hvalid; [|done].
  exfalso.
  set (n := length items) in *.
  pose proof (fixedValues_nil _ Hnil) as Hfixed.
  destruct (assignLevel_even _ _ Hfixed Hlevel 0)
    as (a0 & H0 & Ha0); [rewrite length_map; fold n; lia|].
  destruct (assignLevel_even _ _ Hfixed Hlevel (n - 1))
    as (a1 & H1 & Ha1); [rewrite length_map; fold n; lia|].
  rewrite length_map in Ha0, Ha1. fold n in Ha0, Ha1.
  assert (Hn : (4 <= inject_Z (Z.of_nat n))%Q).
  { change 4%Q with (inject_Z 4). rewrite <- Zle_Qle. lia. }
  assert (Hn0 : ~ (inject_Z (Z.of_nat n) == 0)%Q) by lra.
  assert (He0 : (evenAngle n 0 == 90)%Q).
  { unfold evenAngle. cbv zeta. change (inject_Z (Z.of_nat 0)) with 0%Q.
    assert (Hz : (90 + 360 * 0 / inject_Z (Z.of_nat n) == 90)%Q)
      by (field; done).
    destruct (Qle_bool 360 _) eqn:E; [|done].
    apply Qle_bool_iff in E. lra. }
  assert (He1 : (evenAngle n (n - 1) ==
                 90 - 360 / inject_Z (Z.of_nat n))%Q).
  { unfold evenAngle. cbv zeta.
    replace (Z.of_nat (n - 1)) with (Z.of_nat n - 1) by lia.
    unfold Zminus. rewrite inject_Z_plus. change (inject_Z (-1)) with (-1)%Q.
    assert (Hz : (90 + 360 * (inject_Z (Z.of_nat n) + -1) /
                          inject_Z (Z.of_nat n) ==
                  450 - 360 / inject_Z (Z.of_nat n))%Q) by (field; done).
    assert (Hfrac : (0 < 360 / inject_Z (Z.of_nat n) <= 90)%Q).
    { split.
      - apply Qlt_shift_div_l; lra.
      - apply Qle_shift_div_r; lra. }
    destruct (Qle_bool 360 _) eqn:E.
    + rewrite Hz. ring.
    + exfalso. apply not_true_iff_false in E. apply E.
      apply Qle_bool_iff. rewrite Hz. lra. }
  assert (Hfrac : (0 < 360 / inject_Z (Z.of_nat n) <= 90)%Q).
  { split.
    - apply Qlt_shift_div_l; lra.
    - apply Qle_shift_div_r; lra. }
  pose proof (levelValid_increasing _ _ 0 (n - 1) a0 a1 Hvalid
                ltac:(lia) H0 H1 ltac:(lra) ltac:(lra)) as Hlt.
  lra.
Qed.

Lemma solver_rejects_its_own_result_witness :
  exists items',
    updateItemAngles [mkItem None None None None [];
                      mkItem None None None None [];
                      mkItem None None None None [];
                      mkItem None None None None []] None =
      Some (true, items') /\
    fst <$> updateItemAngles items' None = Some false.
Proof.
  eexists.
  assert (H : updateItemAngles [mkItem None None None None [];
                      mkItem None None None None [];
                      mkItem None None None None [];
                      mkItem None None None None []] None =
                Some (true, _)) by (vm_compute; reflexivity).
  split; [exact H|].
  apply (solver_rejects_its_own_result
           [mkItem None None None None []; mkItem None None None None [];
            mkItem None None None None []; mkItem None None None None []]);
    [reflexivity | simpl; lia | exact H].
Defined.

(** ** The angle solver: the items of a level follow each other clockwise *)





(** ** The selection chain of a menu that has just been shown *)

(** X20: a show request that is accepted by a menu whose ID is null, in
    whatever state the menu has reached since its construction, leaves a
    selection chain that holds the root item only, no dragged child, the
    new menu ID and a live tree, and it calls none of the callbacks. *)
Theorem shown_menu_starts_at_root settings monitor redraw ss m menuID'
    structure previewMode' grab ptr structure' m' :
  reactAll settings monitor redraw ss newMenu = Some m ->
  menuID m = None ->
  show settings monitor redraw menuID' structure previewMode' grab ptr m =
    Some (Shown menuID', structure', m') ->
  menuSelectionChain m' = [[]] /\ draggedChild m' = None /\
  menuID m' = Some menuID' /\
  (exists t, root m' = Some (mkRoot t false)) /\
  reports m' = reports m.
Proof.
  intros Hreach Hid.
  pose proof (reactAll_Consistent _ _ _ _ _ _ newMenu_Consistent Hreach)
    as [Hnull Hdrag].
  pose proof (proj1 Hnull Hid) as Hchain.
  assert (Hnodrag : draggedChild m = None).
  { destruct (draggedChild m) as [r|] eqn:Hr; [|done].
    destruct (Hdrag r eq_refl) as (c & i & Hc & _).
    by rewrite Hchain in Hc. }
  unfold show. rewrite Hid. cbn [JS.truthy].
  destruct (negb _); [done|].
  destruct (updateItemAngles _ _) as [[ok items']|]; [|done].
  cbn [mbind option_bind fst snd].
  destruct ok; cbn [negb]; [|done].
  destruct grab; cbn [negb]; [|done].
  intros [= _ <-].
  assert (Hkeep : forall x : Menu,
            menuSelectionChain x = [[]] -> draggedChild x = None ->
            menuID x = Some menuID' ->
            (exists t, root x = Some (mkRoot t false)) ->
            reports x = reports m ->
            let x' := if previewMode' then x
                      else clampAndWarp settings monitor ptr x in
            menuSelectionChain x' = [[]] /\ draggedChild x' = None /\
            menuID x' = Some menuID' /\
            (exists t, root x' = Some (mkRoot t false)) /\
            reports x' = reports m).
  { intros x H1 H2 H3 H4 H5. destruct previewMode'; [done|]. simpl.
    destruct (clampAndWarp_fields settings monitor ptr x) as (-> & -> & ->).
    destruct (clampAndWarp_members settings monitor ptr x) as (-> & ->).
    done. }
  apply Hkeep.
  - cbn. unfold destroyRoot. destruct (root m); cbn; by rewrite Hchain.
  - cbn. unfold destroyRoot. by destruct (root m).
  - done.
  - by eexists.
  - rewrite reports_emit. cbn [isReport]. rewrite app_nil_r.
    unfold reports. cbn. unfold destroyRoot. by destruct (root m).
Qed.

Lemma shown_menu_starts_at_root_witness :
  exists structure' m',
    show exampleSettings exampleMonitor redrawExample "m2" nestedStructure
      false true examplePointer
      (hide (emit (OnCancel (Some "m1")) exampleMenu)) =
      Some (Shown "m2", structure', m') /\
    menuSelectionChain m' = [[]] /\ draggedChild m' = None /\
    menuID m' = Some "m2" /\
    (exists t, root m' = Some (mkRoot t false)) /\
    reports m' = reports (hide (emit (OnCancel (Some "m1")) exampleMenu)).
Proof.
  do 2 eexists.
  assert (H : show exampleSettings exampleMonitor redrawExample "m2"
                nestedStructure false true examplePointer
                (hide (emit (OnCancel (Some "m1")) exampleMenu)) =
              Some (Shown "m2", _, _)) by (vm_compute; reflexivity).
  split; [exact H|].
  eapply (shown_menu_starts_at_root exampleSettings exampleMonitor
            redrawExample
            [ShowRequest "m1" exampleStructure false true examplePointer;
             CloseEvent]);
    [vm_compute; reflexivity | reflexivity | exact H].
Defined.
